(** * A shallow embedding of the orchestration core of [audit.js]

    The development follows the source file top to bottom: the
    configuration record, [processSitemapUrl], the [ConcurrencyLimiter]
    class, the [browserInstances] tracker with [cleanup], the sitemap
    collector ([fetchXML], [extractUrlsFromSitemap], [getSitemapsFromIndex],
    [getAllUrls]), the error classifier [isRetryableError], the job runner
    [runAccessibilityCheck], [processUrlBatch], the batch loop of [main],
    [escapeHtml] and the figures that [generateHTMLReport] and the summary
    of [main] compute from the outcomes.

    Conventions.
    - JavaScript numbers that the code obtains with [parseInt], and what it
      computes from them alone, are integers ([Z]).  The retry multiplier
      comes from [parseFloat] and [Math.random()] is a fraction: these are
      IEEE 754 binary64 values ([double]), and what the code computes from
      them is computed in binary64, with the rounding this entails.
    - JavaScript strings are [string]s whose characters stand for the code
      units U+0000..U+00FF.
    - Everything outside the file (the pa11y checker, axios/xml2js, the
      scheduler that decides which pending promise settles next, the
      [close] method of a browser handle) is an explicit oracle argument.
    - [delay(ms)] and the other observable actions are recorded in an event
      log that is threaded through the code. *)

From Stdlib Require Import ZArith QArith Qpower List Bool String Ascii Lia.
From Stdlib Require SpecFloat.
From Equations Require Import Equations.
Import ListNotations.

Local Open Scope Z_scope.

(** ** Numbers *)

(** A Number that need not be an integer: a binary64 value, that is a
    [spec_float] with a precision of 53 bits and exponents below 1024. *)
Definition double : Type := SpecFloat.spec_float.

(** The Number an integer stands for: the integer itself when a double can
    hold it (as every integer below [2 ^ 53] in absolute value), the nearest
    double otherwise. *)
Definition double_of_Z (z : Z) : double := SpecFloat.binary_normalize 53 1024 z 0 false.

(** [x * y]: the product, rounded to the nearest double, ties to even. *)
Definition double_mul (x y : double) : double := SpecFloat.SFmul 53 1024 x y.

(** The rational a finite double is (and 0 for the other doubles, which
    are no rationals). *)
Definition value_of (x : double) : Q :=
  match x with
  | SpecFloat.S754_finite s m e =>
      ((if s then - (1) else 1) * inject_Z (Zpos m) * 2 ^ e)%Q
  | _ => 0%Q
  end.

(** A Number as [delay] receives it. *)
Inductive Number :=
| Finite (q : Q)
| Infinity (negative : bool)
| NotANumber.

Coercion Finite : Q >-> Number.

Definition number_of_double (x : double) : Number :=
  match x with
  | SpecFloat.S754_infinity s => Infinity s
  | SpecFloat.S754_nan => NotANumber
  | _ => Finite (value_of x)
  end.

(** ** The [CONFIG] object *)

(** Only the fields that the orchestration code reads.  A [parseInt(..) || d]
    field can hold any integer but [0]; nothing in the source restricts the
    sign.  [parseFloat(..) || 2] is any double but [NaN] and zero. *)
Record Config := mkConfig {
  MAX_CONCURRENT_CHECKS : Z;
  BATCH_SIZE : Z;
  DELAY_BETWEEN_REQUESTS : Z;
  MAX_RETRIES : Z;
  INITIAL_RETRY_DELAY : Z;
  RETRY_MULTIPLIER : double
}.

(** The defaults, used when no environment variable is set. *)
Definition CONFIG_default : Config :=
  {| MAX_CONCURRENT_CHECKS := 1;
     BATCH_SIZE := 3;
     DELAY_BETWEEN_REQUESTS := 5000;
     MAX_RETRIES := 3;
     INITIAL_RETRY_DELAY := 5000;
     RETRY_MULTIPLIER := double_of_Z 2 |}.

(** ** JavaScript string methods used by the source *)

Module Js.

(** [s.startsWith(p)] *)
Fixpoint startsWith (s p : string) {struct p} : bool :=
  match p with
  | EmptyString => true
  | String c p' =>
      match s with
      | EmptyString => false
      | String d s' => if Ascii.eqb c d then startsWith s' p' else false
      end
  end.

Fixpoint rev_acc (s acc : string) : string :=
  match s with
  | EmptyString => acc
  | String c s' => rev_acc s' (String c acc)
  end.

Definition rev (s : string) : string := rev_acc s EmptyString.

(** [s.endsWith(p)] *)
Definition endsWith (s p : string) : bool := startsWith (rev s) (rev p).

(** [s.includes(p)] *)
Fixpoint includes (s p : string) : bool :=
  if startsWith s p then true
  else match s with
       | EmptyString => false
       | String _ s' => includes s' p
       end.

(** White space and line terminators of ECMAScript among U+0000..U+00FF:
    TAB, LF, VT, FF, CR, SPACE and NBSP. *)
Definition isWhiteSpace (c : ascii) : bool :=
  let n := nat_of_ascii c in
  ((9 <=? n) && (n <=? 13))%nat || (n =? 32)%nat || (n =? 160)%nat.

Fixpoint trimStart (s : string) : string :=
  match s with
  | EmptyString => EmptyString
  | String c s' => if isWhiteSpace c then trimStart s' else s
  end.

Definition trimEnd (s : string) : string := rev (trimStart (rev s)).

(** [s.trim()] *)
Definition trim (s : string) : string := trimEnd (trimStart s).

(** [s.toLowerCase()] on U+0000..U+00FF: A-Z and the letters U+00C0..U+00DE
    except the multiplication sign U+00D7 move up by 32. *)
Definition lowerChar (c : ascii) : ascii :=
  let n := nat_of_ascii c in
  if ((65 <=? n) && (n <=? 90))%nat
     || ((192 <=? n) && (n <=? 222) && negb (n =? 215))%nat
  then ascii_of_nat (n + 32) else c.

Fixpoint toLowerCase (s : string) : string :=
  match s with
  | EmptyString => EmptyString
  | String c s' => String (lowerChar c) (toLowerCase s')
  end.

(** [s.replace(/\/$/, '')]: the pattern matches a slash at the very end of
    the string (no [m] flag), and at most one replacement is made. *)
Fixpoint replaceTrailingSlash (s : string) : string :=
  match s with
  | EmptyString => EmptyString
  | String c s' =>
      match s' with
      | EmptyString => if Ascii.eqb c "/"%char then EmptyString else s
      | String _ _ => String c (replaceTrailingSlash s')
      end
  end.

(** [Array.prototype.slice(start, end)] with JavaScript's treatment of
    negative and oversized indices. *)
Definition sliceIndex (len i : Z) : Z :=
  (if i <? 0 then Z.max (len + i) 0 else Z.min i len)%Z.

Definition slice {A} (l : list A) (start stop : Z) : list A :=
  let len := Z.of_nat (List.length l) in
  let from := sliceIndex len start in
  let to := sliceIndex len stop in
  firstn (Z.to_nat (to - from)%Z) (skipn (Z.to_nat from) l).

(** [Math.ceil(a / b)] for integers [a] and [b <> 0]. *)
Definition ceilDiv (a b : Z) : Z := (- ((- a) / b))%Z.

(** A JavaScript [Set]: insertion ordered, no repeated member. *)
Section JsSet.
Context {A : Type} (eqb : A -> A -> bool).

Definition has (s : list A) (x : A) : bool := existsb (eqb x) s.

Definition add (s : list A) (x : A) : list A :=
  if has s x then s else s ++ [x].

(** [xs.forEach(x => s.add(x))] *)
Definition addAll (s : list A) (xs : list A) : list A :=
  fold_left add xs s.
End JsSet.

End Js.

(** ** Termination of the process *)

(** A function either returns or ends the process with [process.exit(code)]. *)
Inductive Completion (A : Type) : Type :=
| Returns (a : A)
| Exits (code : Z).
Arguments Returns {A} a.
Arguments Exits {A} code.

(** ** [processSitemapUrl] *)

Section ProcessSitemapUrl.
Local Open Scope string_scope.

(** [process.argv[2]] is a string or [undefined] ([None]). *)
Definition processSitemapUrl (input : option string) : Completion string :=
  match input with
  | None => Exits 1
  | Some "" => Exits 1
  | Some input =>
      let url := Js.trim input in
      let url :=
        if negb (Js.startsWith url "http://") && negb (Js.startsWith url "https://")
        then "https://" ++ url else url in
      if Js.endsWith url ".xml" then Returns url
      else
        let url := Js.replaceTrailingSlash url in
        Returns (url ++ "/sitemap_index.xml")
  end.
End ProcessSitemapUrl.

(** ** Values thrown and caught *)

(** The value of a [message] property, as far as the code distinguishes:
    [message?.toLowerCase()] is skipped on [undefined]/[null], works on a
    string, and is a [TypeError] on anything else. *)
Inductive JsValue :=
| VUndefined
| VNull
| VString (s : string)
| VOther.

(** A thrown value: [null]/[undefined], or an object with a [message]. *)
Inductive Thrown :=
| ThrownNullish
| ThrownObject (message : JsValue).

(** The [TypeError]s raised by the language itself. *)
Definition TypeError (msg : string) : Thrown := ThrownObject (VString msg).

Inductive Result (A : Type) : Type :=
| Ok (a : A)
| Throw (e : Thrown).
Arguments Ok {A} a.
Arguments Throw {A} e.

(** [error.message] *)
Definition message_of (error : Thrown) : Result JsValue :=
  match error with
  | ThrownNullish =>
      Throw (TypeError "Cannot read properties of null (reading 'message')")
  | ThrownObject m => Ok m
  end.

(** ** Observable actions *)

Definition Handle := nat.

(** The call sites of [delay(ms)]. *)
Inductive DelaySite :=
| FetchRetry    (* fetchXML, between two tries *)
| Jitter        (* runAccessibilityCheck, before a retry's check *)
| Backoff       (* runAccessibilityCheck, after a retryable failure *)
| Pacing        (* processUrlBatch, after each check *)
| BatchPause.   (* main, between two batches *)

(** The strings ['success'] and ['error']. *)
Inductive Status := StatusSuccess | StatusError.

Record Issue := mkIssue {
  issue_type : string;
  issue_code : string;
  issue_message : string;
  issue_context : option string;
  issue_selector : option string
}.

(** The object returned by [runAccessibilityCheck] and by the fallback of
    [processUrlBatch]; [o_error] and [o_isRetryable] are absent ([None])
    where the source does not set them. *)
Record Outcome := mkOutcome {
  o_url : string;
  o_issues : list Issue;
  o_status : Status;
  o_error : option JsValue;
  o_documentTitle : string;
  o_attempts : Z;
  o_isRetryable : option bool
}.

Inductive Event :=
| EvDelay (site : DelaySite) (ms : Number)
| EvRequest (url : string)                       (* axios.get *)
| EvBatch (i startIdx endIdx : Z)                (* "Processing batch ..." *)
| EvStart (globalIndex : Z) (url : string)       (* the unit's spinner starts *)
| EvCheck (url : string) (attemptNumber : Z)     (* pa11y is invoked *)
| EvDone (globalIndex : Z) (o : Outcome)         (* the unit's promise settles *)
| EvClose (h : Handle) (threw : bool).           (* browser.close() *)

(** ** [ConcurrencyLimiter] *)

Module ConcurrencyLimiter.
Section Limiter.
(** A queue entry [{fn, resolve, reject}]. *)
Context {U : Type}.

Record t := mk {
  limit : Z;
  running : Z;
  queue : list U
}.

Definition constructor (limit : Z) : t :=
  {| limit := limit; running := 0; queue := [] |}.

(** [process()] up to the [await]: either nothing happens, or the head of
    the queue is taken and its [fn] is called (returned here as [Some]). *)
Definition process (l : t) : t * option U :=
  if (running l >=? limit l) || (Z.of_nat (List.length (queue l)) =? 0) then (l, None)
  else
    match queue l with
    | [] => (l, None)
    | u :: rest =>
        ({| limit := limit l; running := running l + 1; queue := rest |}, Some u)
    end.

(** [run(fn)]: push the entry, then [process()]. *)
Definition run (l : t) (u : U) : t * option U :=
  process {| limit := limit l; running := running l; queue := queue l ++ [u] |}.

(** The [finally] block, entered when an awaited [fn()] settles:
    [running--], then [process()]. *)
Definition settled (l : t) : t * option U :=
  process {| limit := limit l; running := running l - 1; queue := queue l |}.

(** *** The limiter under an arbitrary client *)

(** A client either submits a unit or lets the [k]-th unit in flight
    settle. *)
Inductive Action :=
| Submit (u : U)
| Settle (k : nat).

Record World := mkWorld {
  lim : t;
  inflight : list U;     (* started and not yet settled, oldest first *)
  submitted : list U;    (* every unit passed to [run], in order *)
  started : list U       (* every unit whose [fn] was called, in order *)
}.

Definition initial (limit : Z) : World :=
  {| lim := constructor limit; inflight := []; submitted := []; started := [] |}.

(** The bookkeeping after [process()]: a unit whose [fn] was called is in
    flight.  The unit is returned as well. *)
Definition launch (w : World) (r : t * option U) (sub : list U) (fl : list U)
  : World * option U :=
  match snd r with
  | None =>
      ({| lim := fst r; inflight := fl; submitted := sub; started := started w |},
       None)
  | Some u =>
      ({| lim := fst r; inflight := fl ++ [u]; submitted := sub;
          started := started w ++ [u] |},
       Some u)
  end.

Definition remove_nth (k : nat) (l : list U) : list U :=
  firstn k l ++ skipn (S k) l.

(** [limiter.run(u)] by the client. *)
Definition submit (w : World) (u : U) : World * option U :=
  launch w (run (lim w) u) (submitted w ++ [u]) (inflight w).

(** The [k]-th unit in flight settles; impossible ([None]) when there is
    no such unit. *)
Definition settle (w : World) (k : nat) : option (World * option U) :=
  match nth_error (inflight w) k with
  | None => None
  | Some _ =>
      Some (launch w (settled (lim w)) (submitted w) (remove_nth k (inflight w)))
  end.

Definition step (w : World) (a : Action) : option World :=
  match a with
  | Submit u => Some (fst (submit w u))
  | Settle k => option_map fst (settle w k)
  end.

Fixpoint exec (w : World) (acts : list Action) : option World :=
  match acts with
  | [] => Some w
  | a :: acts' =>
      match step w a with
      | None => None
      | Some w' => exec w' acts'
      end
  end.
End Limiter.
Arguments t : clear implicits.
Arguments World : clear implicits.
Arguments Action : clear implicits.
End ConcurrencyLimiter.

(** ** The mutable module state and the code that runs against it *)

(** [browserInstances] is the module-level [Set]; [requests] counts the
    [axios.get] calls issued so far and [log] records what happened. *)
Record Store := mkStore {
  browserInstances : list Handle;
  requests : nat;
  log : list Event
}.

Definition emptyStore : Store :=
  {| browserInstances := []; requests := 0; log := [] |}.

(** A computation reads and updates the store and either returns or
    throws; what it did to the store before throwing stays done. *)
Definition M (A : Type) : Type := Store -> Result A * Store.

Definition ret {A} (a : A) : M A := fun st => (Ok a, st).

Definition throw {A} (e : Thrown) : M A := fun st => (Throw e, st).

Definition bind {A B} (m : M A) (k : A -> M B) : M B :=
  fun st =>
    match m st with
    | (Ok a, st') => k a st'
    | (Throw e, st') => (Throw e, st')
    end.

(** [try { body } catch (e) { handler }] *)
Definition tryCatch {A} (body : M A) (handler : Thrown -> M A) : M A :=
  fun st =>
    match body st with
    | (Ok a, st') => (Ok a, st')
    | (Throw e, st') => handler e st'
    end.

Definition lift {A} (r : Result A) : M A := fun st => (r, st).

Declare Scope js_scope.
Delimit Scope js_scope with js.
Notation "x <- m ;; k" := (bind m (fun x => k))
  (at level 61, m at next level, right associativity) : js_scope.
Notation "m ;; k" := (bind m (fun _ => k))
  (at level 61, right associativity) : js_scope.
Local Open Scope js_scope.

Definition emit (e : Event) : M unit :=
  fun st =>
    (Ok tt, {| browserInstances := browserInstances st;
               requests := requests st;
               log := log st ++ [e] |}).

(** [await delay(ms)] *)
Definition delay (site : DelaySite) (ms : Number) : M unit := emit (EvDelay site ms).

(** [for (const x of xs) body] *)
Fixpoint forOf {A} (xs : list A) (body : A -> M unit) : M unit :=
  match xs with
  | [] => ret tt
  | x :: xs' => body x ;; forOf xs' body
  end.

(** [browserInstances.add(h)] *)
Definition browserInstances_add (h : Handle) : M unit :=
  fun st =>
    (Ok tt, {| browserInstances := Js.add Nat.eqb (browserInstances st) h;
               requests := requests st;
               log := log st |}).

(** [browserInstances.clear()] *)
Definition browserInstances_clear : M unit :=
  fun st =>
    (Ok tt, {| browserInstances := []; requests := requests st; log := log st |}).

(** ** What the program is run against *)

(** A parsed sitemap document as xml2js delivers it for the standard
    shapes: element children are arrays, a [<loc>] holds text only and is a
    string.  (A [<loc>] with an attribute would be an object; such
    documents are outside this type.) *)
Record LocItem := mkLocItem { loc : option (list string) }.
Record UrlSet := mkUrlSet { url : option (list LocItem) }.
Record SitemapIndex := mkSitemapIndex { sitemap : option (list LocItem) }.
Record XmlDoc := mkXmlDoc {
  urlset : option UrlSet;
  sitemapindex : option SitemapIndex
}.

(** One [axios.get] followed by [parseStringPromise]: the parse result
    (possibly [null], [None]) or an exception from either call. *)
Inductive Response :=
| Parsed (doc : option XmlDoc)
| Failed (e : Thrown).

(** The object pa11y resolves with. *)
Record Pa11yResults := mkPa11yResults {
  r_issues : option (list Issue);
  r_documentTitle : option string;
  r_browser : option Handle
}.

Inductive Settlement :=
| Resolved (results : option Pa11yResults)
| Rejected (e : Thrown).

(** One invocation of pa11y: how its promise settles, and the browser
    session it launched meanwhile, if any.  The code sees only
    [settlement]. *)
Record Attempt := mkAttempt {
  session : option Handle;
  settlement : Settlement
}.

Record Env := mkEnv {
  (** the [n]-th request of the run, made to [url] *)
  http : nat -> string -> Response;
  (** the check of [url] made by attempt number [attemptNumber] *)
  pa11y : string -> Z -> Attempt;
  (** [Math.random()] as drawn by that attempt *)
  Math_random : string -> Z -> double;
  (** [Math.pow(base, exponent)] for an integer exponent: the language
      leaves the value to the implementation, as an approximation of the
      power *)
  Math_pow : double -> Z -> double;
  (** which unit in flight settles at the [n]-th settlement *)
  scheduler : nat -> nat;
  (** [browser.close()] *)
  browser_close : Handle -> Result unit
}.

(** ** [cleanup] *)

Section Cleanup.
Variable env : Env.

Definition close (browser : Handle) : M unit :=
  fun st =>
    let r := browser_close env browser in
    (r, {| browserInstances := browserInstances st;
           requests := requests st;
           log := log st ++ [EvClose browser
                               match r with Ok _ => false | Throw _ => true end] |}).

Definition cleanup : M unit :=
  fun st =>
    (forOf (browserInstances st)
       (fun browser =>
          tryCatch (close browser)
                   (fun _ => (* Ignore errors during cleanup *) ret tt)) ;;
     browserInstances_clear) st.
End Cleanup.

(** ** The sitemap collector *)

Section Collector.
Variable env : Env.

(** [axios.get(url, ...)] followed by the parse. *)
Definition axios_get_and_parse (url : string) : M (option XmlDoc) :=
  fun st =>
    let st' := {| browserInstances := browserInstances st;
                  requests := S (requests st);
                  log := log st ++ [EvRequest url] |} in
    match http env (requests st) url with
    | Parsed doc => (Ok doc, st')
    | Failed e => (Throw e, st')
    end.

(** The loop of [fetchXML], entered at [attempt = retries - left].  The
    result is the parsed document or [null] ([None]). *)
Fixpoint fetchXML_loop (url : string) (retries left : nat) : M (option XmlDoc) :=
  let attempt := (retries - left)%nat in
  tryCatch
    (axios_get_and_parse url)
    (fun _ =>
       match left with
       | S left' => (* attempt < retries *)
           let delayMs := 1000 * (Z.of_nat attempt + 1) in
           delay FetchRetry (inject_Z delayMs) ;;
           fetchXML_loop url retries left'
       | O => ret None
       end).

Definition fetchXML (url : string) : M (option XmlDoc) :=
  let retries := 2%nat in
  fetchXML_loop url retries retries.

(** [item.loc && item.loc[0]], and the value pushed when it is truthy. *)
Definition first_loc (item : LocItem) : option string :=
  match loc item with
  | Some (l0 :: _) => if String.eqb l0 "" then None else Some l0
  | _ => None
  end.

(** [items.forEach(item => { if (...) out.push(item.loc[0]) })] *)
Fixpoint push_locs (items : list LocItem) (out : list string) : list string :=
  match items with
  | [] => out
  | item :: items' =>
      match first_loc item with
      | Some l0 => push_locs items' (out ++ [l0])
      | None => push_locs items' out
      end
  end.

Definition extractUrlsFromSitemap (sitemapData : option XmlDoc) : list string :=
  let urls := [] in
  match sitemapData with
  | Some {| urlset := Some {| url := Some items |} |} => push_locs items urls
  | _ => urls
  end.

Definition getSitemapsFromIndex (indexData : option XmlDoc) : list string :=
  let sitemaps := [] in
  match indexData with
  | Some {| sitemapindex := Some {| sitemap := Some items |} |} => push_locs items sitemaps
  | _ => sitemaps
  end.

(** The [for (const sitemapUrl of sitemaps)] loop of [getAllUrls], with
    the local [allUrls] threaded through. *)
Fixpoint fetchEach (sitemaps : list string) (allUrls : list string) : M (list string) :=
  match sitemaps with
  | [] => ret allUrls
  | sitemapUrl :: rest =>
      sitemapData <- fetchXML sitemapUrl ;;
      match sitemapData with
      | Some _ =>
          let urls := extractUrlsFromSitemap sitemapData in
          fetchEach rest (Js.addAll String.eqb allUrls urls)
      | None => (* warn: Failed to fetch *)
          fetchEach rest allUrls
      end
  end.

Definition getAllUrls (sitemapUrl : string) : M (list string) :=
  let allUrls := [] in
  tryCatch
    (indexData <- fetchXML sitemapUrl ;;
     match indexData with
     | None => ret []
     | Some _ =>
         let sitemaps := getSitemapsFromIndex indexData in
         allUrls <- fetchEach sitemaps allUrls ;;
         let urls := extractUrlsFromSitemap indexData in
         let allUrls := Js.addAll String.eqb allUrls urls in
         ret allUrls
     end)
    (fun _ => ret []).
End Collector.

(** ** [isRetryableError] *)

Definition retryablePatterns : list string :=
  [ "timeout"; "timed out"; "navigation timeout"; "net::err"; "econnreset";
    "econnrefused"; "socket hang up"; "empty response"; "protocol error";
    "target closed"; "session closed"; "page crashed"; "abnormal";
    "failed action"; "wait for" ]%string.

(** [error.message?.toLowerCase() || ''] *)
Definition errorMessage_of (error : Thrown) : Result string :=
  match message_of error with
  | Throw e => Throw e
  | Ok VUndefined | Ok VNull => Ok ""%string
  | Ok (VString s) => Ok (Js.toLowerCase s)
  | Ok VOther =>
      Throw (TypeError "error.message?.toLowerCase is not a function")
  end.

Definition isRetryableError (error : Thrown) : Result bool :=
  match errorMessage_of error with
  | Throw e => Throw e
  | Ok errorMessage =>
      Ok (existsb (fun pattern => Js.includes errorMessage pattern) retryablePatterns)
  end.

(** ** [runAccessibilityCheck] *)

Section JobRunner.
Variable CONFIG : Config.
Variable env : Env.

(** [await pa11y(url, {...})] *)
Definition call_pa11y (url : string) (attemptNumber : Z) : M (option Pa11yResults) :=
  emit (EvCheck url attemptNumber) ;;
  match settlement (pa11y env url attemptNumber) with
  | Resolved results => ret results
  | Rejected e => throw e
  end.

(** Reading a property of the resolved value; a [TypeError] when pa11y
    resolved with [undefined]. *)
Definition results_object (results : option Pa11yResults) : M Pa11yResults :=
  match results with
  | Some r => ret r
  | None =>
      throw (TypeError "Cannot read properties of undefined (reading 'browser')")
  end.

Definition or_else {A} (x : option A) (d : A) : A :=
  match x with Some a => a | None => d end.

(** [results.documentTitle || url] *)
Definition title_or (t : option string) (url : string) : string :=
  match t with
  | Some t => if String.eqb t "" then url else t
  | None => url
  end.

(** [CONFIG.INITIAL_RETRY_DELAY * Math.pow(CONFIG.RETRY_MULTIPLIER, attemptNumber - 1)] *)
Definition retryDelay_of (attemptNumber : Z) : double :=
  double_mul (double_of_Z (INITIAL_RETRY_DELAY CONFIG))
             (Math_pow env (RETRY_MULTIPLIER CONFIG) (attemptNumber - 1)).

(** [Math.random() * 2000] *)
Definition jitter_of (url : string) (attemptNumber : Z) : double :=
  double_mul (Math_random env url attemptNumber) (double_of_Z 2000).

Equations? runAccessibilityCheck (url : string) (attemptNumber : Z) : M Outcome
  by wf (Z.to_nat (MAX_RETRIES CONFIG - attemptNumber)) lt :=
runAccessibilityCheck url attemptNumber :=
  tryCatch
    ((if attemptNumber >? 1
      then
        let jitter := jitter_of url attemptNumber in
        delay Jitter (number_of_double jitter)
      else ret tt) ;;
     results <- call_pa11y url attemptNumber ;;
     results <- results_object results ;;
     (* Track browser instance for cleanup *)
     match r_browser results with
     | Some browser => browserInstances_add browser
     | None => ret tt
     end ;;
     ret {| o_url := url;
            o_issues := or_else (r_issues results) [];
            o_status := StatusSuccess;
            o_error := None;
            o_documentTitle := title_or (r_documentTitle results) url;
            o_attempts := attemptNumber;
            o_isRetryable := None |})
    (fun error =>
       isRetryable <- lift (isRetryableError error) ;;
       match sumbool_of_bool (isRetryable && (attemptNumber <? MAX_RETRIES CONFIG)) with
       | left _ =>
           let retryDelay := retryDelay_of attemptNumber in
           delay Backoff (number_of_double retryDelay) ;;
           runAccessibilityCheck url (attemptNumber + 1)
       | right _ =>
           error_message <- lift (message_of error) ;;
           ret {| o_url := url;
                  o_issues := [];
                  o_status := StatusError;
                  o_error := Some error_message;
                  o_documentTitle := url;
                  o_attempts := attemptNumber;
                  o_isRetryable := Some isRetryable |}
       end).
Proof.
  apply andb_prop in e. destruct e as [_ H]. apply Z.ltb_lt in H. lia.
Qed.
End JobRunner.

(** ** [processUrlBatch] *)

(** The closure passed to [limiter.run] for one element of [urls]. *)
Record Job := mkJob {
  job_index : nat;          (* [index] within the batch *)
  job_url : string;
  job_globalIndex : Z       (* [startIndex + index + 1] *)
}.

(** The whole state of a run: the module state, the module-level
    [limiter] with the units it has in flight, and the number of promise
    settlements so far. *)
Record Runtime := mkRuntime {
  store : Store;
  world : ConcurrencyLimiter.World Job;
  ticks : nat
}.

Definition initialRuntime (CONFIG : Config) : Runtime :=
  {| store := emptyStore;
     world := ConcurrencyLimiter.initial (MAX_CONCURRENT_CHECKS CONFIG);
     ticks := 0 |}.

(** [Promise.all] over settled slots. *)
Fixpoint allSettled {A} (slots : list (option A)) : option (list A) :=
  match slots with
  | [] => Some []
  | None :: _ => None
  | Some a :: rest =>
      match allSettled rest with
      | Some l => Some (a :: l)
      | None => None
      end
  end.

Fixpoint set_slot {A} (slots : list (option A)) (i : nat) (a : A) : list (option A) :=
  match slots, i with
  | [], _ => []
  | _ :: rest, O => Some a :: rest
  | s :: rest, S i' => s :: set_slot rest i' a
  end.

Section Batches.
Variable CONFIG : Config.
Variable env : Env.

(** The body of the unit, from the [try] on; the spinner line that
    precedes it is the [EvStart] logged when the limiter calls the unit. *)
Definition job_body (job : Job) : M Outcome :=
  let url := job_url job in
  tryCatch
    (result <- runAccessibilityCheck CONFIG env url 1 ;;
     (* Add delay between requests to avoid rate limiting *)
     delay Pacing (inject_Z (DELAY_BETWEEN_REQUESTS CONFIG)) ;;
     ret result)
    (fun error =>
       error_message <- lift (message_of error) ;;
       ret {| o_url := url;
              o_issues := [];
              o_status := StatusError;
              o_error := Some error_message;
              o_documentTitle := url;
              o_attempts := 1;
              o_isRetryable := None |}).

Definition on_launch (launched : option Job) : M unit :=
  match launched with
  | Some job => emit (EvStart (job_globalIndex job) (job_url job))
  | None => ret tt
  end.

Definition with_store (rt : Runtime) (m : M unit) : Store := snd (m (store rt)).

(** [urls.map((url, index) => limiter.run(...))]: the units are submitted
    in order; the limiter calls those it can start at once. *)
Fixpoint submitAll (jobs : list Job) (rt : Runtime) : Runtime :=
  match jobs with
  | [] => rt
  | job :: rest =>
      let (w, launched) := ConcurrencyLimiter.submit (world rt) job in
      submitAll rest {| store := with_store rt (on_launch launched);
                        world := w;
                        ticks := ticks rt |}
  end.

(** [await Promise.all(promises)].  While units are in flight the
    scheduler picks the one that settles next; its body is run to
    completion at that point, then the limiter's [finally] block calls the
    next queued unit.  A rejection rejects [Promise.all]; with nothing in
    flight and units still queued the promise stays pending ([None]).
    [budget] bounds the number of settlements awaited. *)
Fixpoint awaitAll (budget : nat) (slots : list (option Outcome)) (rt : Runtime)
  : option (Result (list Outcome) * Runtime) :=
  let w := world rt in
  match ConcurrencyLimiter.inflight w with
  | [] =>
      match ConcurrencyLimiter.queue (ConcurrencyLimiter.lim w) with
      | [] =>
          match allSettled slots with
          | Some batchResults => Some (Ok batchResults, rt)
          | None => None
          end
      | _ :: _ => None
      end
  | _ :: _ =>
      match budget with
      | O => None
      | S budget' =>
          let k := (scheduler env (ticks rt)
                    mod List.length (ConcurrencyLimiter.inflight w))%nat in
          match nth_error (ConcurrencyLimiter.inflight w) k,
                ConcurrencyLimiter.settle w k with
          | Some job, Some (w', launched) =>
              let (r, st) := job_body job (store rt) in
              match r with
              | Ok result =>
                  let st := snd (emit (EvDone (job_globalIndex job) result) st) in
                  let st := snd (on_launch launched st) in
                  awaitAll budget' (set_slot slots (job_index job) result)
                    {| store := st; world := w'; ticks := S (ticks rt) |}
              | Throw e =>
                  let st := snd (on_launch launched st) in
                  Some (Throw e, {| store := st; world := w'; ticks := S (ticks rt) |})
              end
          | _, _ => None
          end
      end
  end.

Fixpoint jobs_from (urls : list string) (startIndex : Z) (index : nat) : list Job :=
  match urls with
  | [] => []
  | url :: rest =>
      {| job_index := index; job_url := url;
         job_globalIndex := startIndex + Z.of_nat index + 1 |}
      :: jobs_from rest startIndex (S index)
  end.

Definition processUrlBatch (urls : list string) (startIndex totalUrls : Z) (rt : Runtime)
  : option (Result (list Outcome) * Runtime) :=
  let results := [] in
  let rt := submitAll (jobs_from urls startIndex 0) rt in
  match awaitAll (List.length urls) (map (fun _ => None) urls) rt with
  | Some (Ok batchResults, rt') => Some (Ok (results ++ batchResults), rt')
  | other => other
  end.

(** ** The batch loop and the end of [main] *)

Definition in_store (rt : Runtime) (m : M unit) : Runtime :=
  {| store := with_store rt m; world := world rt; ticks := ticks rt |}.

(** The [for (let i = 0; i < batches; i++)] loop, over the values [i]
    takes. *)
Fixpoint forBatches (indices : list Z) (batches : Z) (urls : list string)
         (results : list Outcome) (rt : Runtime)
  : option (Result (list Outcome) * Runtime) :=
  match indices with
  | [] => Some (Ok results, rt)
  | i :: rest =>
      let startIdx := i * BATCH_SIZE CONFIG in
      let endIdx := Z.min (startIdx + BATCH_SIZE CONFIG) (Z.of_nat (List.length urls)) in
      let batch := Js.slice urls startIdx endIdx in
      let rt := in_store rt (emit (EvBatch i startIdx endIdx)) in
      match processUrlBatch batch startIdx (Z.of_nat (List.length urls)) rt with
      | None => None
      | Some (Throw e, rt) => Some (Throw e, rt)
      | Some (Ok batchResults, rt) =>
          let results := results ++ batchResults in
          (* Add delay between batches *)
          let rt :=
            if i <? batches - 1
            then in_store rt (delay BatchPause
                                (inject_Z (DELAY_BETWEEN_REQUESTS CONFIG * 2)))
            else rt in
          forBatches rest batches urls results rt
      end
  end.

Definition range (n : Z) : list Z := map Z.of_nat (seq 0 (Z.to_nat n)).

Definition runBatches (urls : list string) (rt : Runtime)
  : option (Result (list Outcome) * Runtime) :=
  let results := [] in
  let batches := Js.ceilDiv (Z.of_nat (List.length urls)) (BATCH_SIZE CONFIG) in
  forBatches (range batches) batches urls results rt.

(** How a run ends: the report is written from [results] and the process
    exits with 0; or [process.exit(code)] earlier; or an exception reaches
    [main().catch], which cleans up and exits with 1. *)
Inductive RunEnd :=
| Reported (urls : list string) (results : list Outcome)
| Exited (code : Z)
| Crashed (e : Thrown).

(** [main], from [getAllUrls] on. *)
Definition main (sitemapUrl : string) (rt : Runtime) : option (RunEnd * Runtime) :=
  let (r, st) := getAllUrls env sitemapUrl (store rt) in
  let rt := {| store := st; world := world rt; ticks := ticks rt |} in
  match r with
  | Throw e => Some (Crashed e, in_store rt (cleanup env))
  | Ok urls =>
      if Z.of_nat (List.length urls) =? 0 then Some (Exited 1, rt)
      else
        match runBatches urls rt with
        | None => None
        | Some (Throw e, rt) => Some (Crashed e, in_store rt (cleanup env))
        | Some (Ok results, rt) =>
            (* Clean up browser instances *)
            match cleanup env (store rt) with
            | (Ok _, st) =>
                Some (Reported urls results,
                      {| store := st; world := world rt; ticks := ticks rt |})
            | (Throw e, st) =>
                Some (Crashed e,
                      in_store {| store := st; world := world rt; ticks := ticks rt |}
                               (cleanup env))
            end
        end
  end.
End Batches.

(** ** [escapeHtml] *)

(** [map[m]] for one of the five characters of the pattern (ampersand,
    less-than, greater-than, double quote, apostrophe), the character itself
    otherwise. *)
Definition escapeChar (m : ascii) : string :=
  if Ascii.eqb m "&" then "&amp;"
  else if Ascii.eqb m "<" then "&lt;"
  else if Ascii.eqb m ">" then "&gt;"
  else if Ascii.eqb m "034" then "&quot;"
  else if Ascii.eqb m "'" then "&#039;"
  else String m EmptyString.

(** [text.replace(pattern, m => map[m])], the pattern being global. *)
Fixpoint escapeHtml (text : string) : string :=
  match text with
  | EmptyString => EmptyString
  | String c rest => (escapeChar c ++ escapeHtml rest)%string
  end.

(** ** The figures of the report and of the summary *)

(** An object used as a table of counters: its own properties in insertion
    order.  The keys are issue types, none of them a name inherited from
    [Object.prototype]. *)
Definition Counters := list (string * Z).

(** [o[k]], [undefined] being [None]. *)
Fixpoint prop_get (o : Counters) (k : string) : option Z :=
  match o with
  | [] => None
  | (k', v) :: rest => if String.eqb k k' then Some v else prop_get rest k
  end.

(** [o[k] = v] *)
Fixpoint prop_set (o : Counters) (k : string) (v : Z) : Counters :=
  match o with
  | [] => [(k, v)]
  | (k', v') :: rest =>
      if String.eqb k k' then (k', v) :: rest else (k', v') :: prop_set rest k v
  end.

(** [x || 0] *)
Definition or_zero (x : option Z) : Z :=
  match x with
  | Some v => v
  | None => 0
  end.

(** [table[issue.type] = (table[issue.type] || 0) + 1] *)
Definition count_issue (table : Counters) (issue : Issue) : Counters :=
  prop_set table (issue_type issue) (or_zero (prop_get table (issue_type issue)) + 1).

(** [results.forEach(r => r.issues.forEach(issue => ...))] *)
Definition count_issues (table : Counters) (results : list Outcome) : Counters :=
  fold_left (fun table result => fold_left count_issue (o_issues result) table)
            results table.

(** [results.reduce((sum, r) => sum + r.issues.length, 0)] *)
Definition totalIssues (results : list Outcome) : Z :=
  fold_left (fun sum r => sum + Z.of_nat (List.length (o_issues r))) results 0.

Definition status_eqb (a b : Status) : bool :=
  match a, b with
  | StatusSuccess, StatusSuccess | StatusError, StatusError => true
  | _, _ => false
  end.

(** [results.filter(r => r.status === 'error').length] *)
Definition failedChecks (results : list Outcome) : Z :=
  Z.of_nat (List.length (filter (fun r => status_eqb (o_status r) StatusError) results)).

(** [results.filter(r => r.status === 'success').length] *)
Definition successfulChecks (results : list Outcome) : Z :=
  Z.of_nat (List.length (filter (fun r => status_eqb (o_status r) StatusSuccess) results)).

(** [results.filter(r => r.attempts > 1).length], in [main] *)
Definition retriedChecks (results : list Outcome) : Z :=
  Z.of_nat (List.length (filter (fun r => o_attempts r >? 1) results)).

(** The [issuesByType] of [generateHTMLReport]. *)
Definition issuesByType (results : list Outcome) : Counters :=
  count_issues [("error", 0); ("warning", 0); ("notice", 0)]%string results.

(** The [issueTypes] of [main], filled when there is an issue at all. *)
Definition issueTypes (results : list Outcome) : Counters :=
  count_issues [] results.

(** ** Worked environments *)

(** The double 0.5. *)
Definition one_half : double := SpecFloat.S754_finite false 4503599627370496 (-53).

(** A [Math.pow] that multiplies [base] by itself: exact as long as the
    power is a double. *)
Fixpoint pow_by_products (base : double) (n : nat) : double :=
  match n with
  | O => double_of_Z 1
  | S n' => double_mul base (pow_by_products base n')
  end.

(** An environment in which every check settles the same way, every
    request fails and nothing else goes wrong; used for worked examples. *)
Definition env_where_checks (a : Attempt) : Env :=
  {| http := fun _ _ => Failed (TypeError "Network Error");
     pa11y := fun _ _ => a;
     Math_random := fun _ _ => one_half;
     Math_pow := fun base exponent => pow_by_products base (Z.to_nat exponent);
     scheduler := fun _ => 0%nat;
     browser_close := fun _ => Ok tt |}.

Definition navigation_timeout : Attempt :=
  {| session := Some 7%nat;
     settlement := Rejected (TypeError "Navigation timeout of 90000 ms exceeded") |}.

(** The value an attempt rejected with. *)
Definition settlement_error (a : Attempt) : Thrown :=
  match settlement a with
  | Rejected e => e
  | Resolved _ => ThrownNullish
  end.

Definition invalid_selector : Attempt :=
  {| session := Some 7%nat;
     settlement := Rejected (TypeError "invalid selector") |}.

Definition clean_page : Attempt :=
  {| session := Some 7%nat;
     settlement := Resolved (Some {| r_issues := Some [];
                                     r_documentTitle := Some "Home"%string;
                                     r_browser := None |}) |}.

Definition page (l : string) : LocItem := {| loc := Some [l] |}.

Definition sitemap_of (pages : list string) : XmlDoc :=
  {| urlset := Some {| url := Some (map page pages) |}; sitemapindex := None |}.

Definition index_of (children : list string) : XmlDoc :=
  {| urlset := None; sitemapindex := Some {| sitemap := Some (map page children) |} |}.

(** A site whose documents are given by URL; any other request fails. *)
Definition env_of_site (site : string -> option XmlDoc) : Env :=
  {| http := fun _ u => match site u with
                        | Some doc => Parsed (Some doc)
                        | None => Failed (TypeError "Request failed with status code 404")
                        end;
     pa11y := fun _ _ => clean_page;
     Math_random := fun _ _ => one_half;
     Math_pow := fun base exponent => pow_by_products base (Z.to_nat exponent);
     scheduler := fun _ => 0%nat;
     browser_close := fun _ => Ok tt |}.

Section WorkedSites.
Local Open Scope string_scope.

(** An index of two sitemaps of three pages each, one page in both. *)
Definition two_children (u : string) : option XmlDoc :=
  if String.eqb u "https://x/sitemap_index.xml"
  then Some (index_of ["https://x/a.xml"; "https://x/b.xml"])
  else if String.eqb u "https://x/a.xml"
  then Some (sitemap_of ["https://x/1"; "https://x/2"; "https://x/3"])
  else if String.eqb u "https://x/b.xml"
  then Some (sitemap_of ["https://x/3"; "https://x/4"; "https://x/5"])
  else None.

(** An index whose first child cannot be fetched. *)
Definition missing_child (u : string) : option XmlDoc :=
  if String.eqb u "https://x/sitemap_index.xml"
  then Some (index_of ["https://x/gone.xml"; "https://x/b.xml"])
  else if String.eqb u "https://x/b.xml"
  then Some (sitemap_of ["https://x/3"; "https://x/4"])
  else None.

(** An index that lists no sitemap. *)
Definition empty_index (u : string) : option XmlDoc :=
  if String.eqb u "https://x/sitemap_index.xml" then Some (index_of []) else None.
End WorkedSites.

(** * Properties *)

(** ** Worked examples *)

Example processSitemapUrl_bare :
  processSitemapUrl (Some "  example.com/ "%string)
  = Returns "https://example.com/sitemap_index.xml"%string.
Proof. reflexivity. Qed.

Example processSitemapUrl_xml :
  processSitemapUrl (Some "http://example.com/sitemap.xml"%string)
  = Returns "http://example.com/sitemap.xml"%string.
Proof. reflexivity. Qed.

Example processSitemapUrl_blank :
  processSitemapUrl (Some " "%string)
  = Returns "https://sitemap_index.xml"%string.
Proof. reflexivity. Qed.

Example limiter_two_of_three :
  ConcurrencyLimiter.exec (ConcurrencyLimiter.initial 2)
    [ConcurrencyLimiter.Submit 10%nat; ConcurrencyLimiter.Submit 11%nat;
     ConcurrencyLimiter.Submit 12%nat; ConcurrencyLimiter.Settle 1%nat]
  = Some {| ConcurrencyLimiter.lim :=
              {| ConcurrencyLimiter.limit := 2; ConcurrencyLimiter.running := 2;
                 ConcurrencyLimiter.queue := [] |};
            ConcurrencyLimiter.inflight := [10; 12]%nat;
            ConcurrencyLimiter.submitted := [10; 11; 12]%nat;
            ConcurrencyLimiter.started := [10; 11; 12]%nat |}.
Proof. reflexivity. Qed.

Example isRetryableError_navigation :
  isRetryableError (TypeError "Navigation Timeout Exceeded: 90000ms exceeded") = Ok true.
Proof. reflexivity. Qed.

Example isRetryableError_selector :
  isRetryableError (TypeError "invalid selector") = Ok false.
Proof. reflexivity. Qed.

Example always_navigation_timeout :
  fst (runAccessibilityCheck CONFIG_default (env_where_checks navigation_timeout)
         "https://example.com/" 1 emptyStore)
  = Ok {| o_url := "https://example.com/";
          o_issues := [];
          o_status := StatusError;
          o_error := Some (VString "Navigation timeout of 90000 ms exceeded");
          o_documentTitle := "https://example.com/";
          o_attempts := 3;
          o_isRetryable := Some true |}.
Proof. reflexivity. Qed.

Example first_invalid_selector :
  fst (runAccessibilityCheck CONFIG_default (env_where_checks invalid_selector)
         "https://example.com/" 1 emptyStore)
  = Ok {| o_url := "https://example.com/";
          o_issues := [];
          o_status := StatusError;
          o_error := Some (VString "invalid selector");
          o_documentTitle := "https://example.com/";
          o_attempts := 1;
          o_isRetryable := Some false |}.
Proof. reflexivity. Qed.

Example two_children_collected :
  fst (getAllUrls (env_of_site two_children) "https://x/sitemap_index.xml" emptyStore)
  = Ok ["https://x/1"; "https://x/2"; "https://x/3"; "https://x/4"; "https://x/5"]%string.
Proof. reflexivity. Qed.

Example missing_child_skipped :
  getAllUrls (env_of_site missing_child) "https://x/sitemap_index.xml" emptyStore
  = (Ok ["https://x/3"; "https://x/4"]%string,
     {| browserInstances := [];
        requests := 5;
        log := [EvRequest "https://x/sitemap_index.xml";
                EvRequest "https://x/gone.xml"; EvDelay FetchRetry (inject_Z 1000);
                EvRequest "https://x/gone.xml"; EvDelay FetchRetry (inject_Z 2000);
                EvRequest "https://x/gone.xml";
                EvRequest "https://x/b.xml"] |}).
Proof. reflexivity. Qed.

(** [parseInt(..) || d] lets a negative number through.  With a negative
    batch size the loop of [main] runs no batch; with a negative limit the
    limiter starts no unit and [Promise.all] stays pending; with a negative
    maximum the first attempt is still made. *)
Example negative_batch_size :
  runBatches
    {| MAX_CONCURRENT_CHECKS := 1; BATCH_SIZE := -3; DELAY_BETWEEN_REQUESTS := 5000;
       MAX_RETRIES := 3; INITIAL_RETRY_DELAY := 5000; RETRY_MULTIPLIER := double_of_Z 2 |}
    (env_where_checks clean_page)
    ["https://x/1"; "https://x/2"]%string
    (initialRuntime CONFIG_default)
  = Some (Ok [], initialRuntime CONFIG_default).
Proof. reflexivity. Qed.

Example negative_limit :
  processUrlBatch CONFIG_default (env_where_checks clean_page)
    ["https://x/1"; "https://x/2"]%string 0 2
    {| store := emptyStore; world := ConcurrencyLimiter.initial (-1); ticks := 0 |}
  = None.
Proof. reflexivity. Qed.

Example negative_max_retries :
  option_map o_attempts
    (match runAccessibilityCheck
             {| MAX_CONCURRENT_CHECKS := 1; BATCH_SIZE := 3;
                DELAY_BETWEEN_REQUESTS := 5000; MAX_RETRIES := -1;
                INITIAL_RETRY_DELAY := 5000; RETRY_MULTIPLIER := double_of_Z 2 |}
             (env_where_checks navigation_timeout) "https://x/1" 1 emptyStore
     with
     | (Ok o, _) => Some o
     | (Throw _, _) => None
     end)
  = Some 1.
Proof. reflexivity. Qed.

(** ** Strings *)

Section StringFacts.
Local Open Scope string_scope.

Lemma append_nil_r (s : string) : s ++ "" = s.
Proof. induction s as [|c s IH]; simpl; [reflexivity | now rewrite IH]. Qed.

Lemma append_assoc (a b c : string) : (a ++ b) ++ c = a ++ (b ++ c).
Proof. induction a as [|x a IH]; simpl; [reflexivity | now rewrite IH]. Qed.

Lemma startsWith_iff (s p : string) :
  Js.startsWith s p = true <-> exists t, s = p ++ t.
Proof.
  revert s. induction p as [|c p IH]; intros s; simpl.
  - split; [intros _; now exists s | reflexivity].
  - destruct s as [|d s].
    + split; [discriminate | intros [t Ht]; discriminate].
    + destruct (Ascii.eqb_spec c d) as [->|Hne].
      * rewrite IH. split; intros [t Ht]; exists t; congruence.
      * split; [discriminate | intros [t Ht]; congruence].
Qed.

Lemma rev_acc_app (s acc : string) : Js.rev_acc s acc = Js.rev s ++ acc.
Proof.
  unfold Js.rev. revert acc. induction s as [|c s IH]; intros acc; simpl.
  - reflexivity.
  - rewrite IH, (IH (String c "")), append_assoc. reflexivity.
Qed.

Lemma rev_cons (c : ascii) (s : string) : Js.rev (String c s) = Js.rev s ++ String c "".
Proof. unfold Js.rev at 1. simpl. apply rev_acc_app. Qed.

Lemma rev_app (a b : string) : Js.rev (a ++ b) = Js.rev b ++ Js.rev a.
Proof.
  induction a as [|c a IH]; simpl.
  - now rewrite append_nil_r.
  - rewrite !rev_cons, IH, append_assoc. reflexivity.
Qed.

Lemma rev_involutive (s : string) : Js.rev (Js.rev s) = s.
Proof.
  induction s as [|c s IH]; [reflexivity|].
  rewrite rev_cons, rev_app, IH. reflexivity.
Qed.

Lemma endsWith_iff (s p : string) :
  Js.endsWith s p = true <-> exists t, s = t ++ p.
Proof.
  unfold Js.endsWith. rewrite startsWith_iff. split; intros [t Ht].
  - exists (Js.rev t). apply (f_equal Js.rev) in Ht.
    rewrite rev_involutive, rev_app, rev_involutive in Ht. exact Ht.
  - exists (Js.rev t). subst s. apply rev_app.
Qed.

Lemma replaceTrailingSlash_cons (c d : ascii) (s : string) :
  Js.replaceTrailingSlash (String c (String d s))
  = String c (Js.replaceTrailingSlash (String d s)).
Proof. reflexivity. Qed.

Lemma replaceTrailingSlash_slash (v : string) :
  Js.replaceTrailingSlash (v ++ "/") = v.
Proof.
  induction v as [|c v IH]; [reflexivity|].
  destruct v as [|d v]; [reflexivity|].
  change (String c (String d v) ++ "/") with (String c (String d v ++ "/")).
  change (String d v ++ "/") with (String d (v ++ "/")) at 1.
  rewrite replaceTrailingSlash_cons.
  change (String d (v ++ "/")) with (String d v ++ "/"). now rewrite IH.
Qed.

Lemma replaceTrailingSlash_other (s : string) :
  Js.endsWith s "/" = false -> Js.replaceTrailingSlash s = s.
Proof.
  intros H. induction s as [|c s IH]; [reflexivity|].
  destruct s as [|d s].
  - simpl. destruct (Ascii.eqb_spec c "/"%char) as [->|]; [discriminate H | reflexivity].
  - rewrite replaceTrailingSlash_cons, IH; [reflexivity|].
    destruct (Js.endsWith (String d s) "/") eqn:E; [|reflexivity].
    apply endsWith_iff in E. destruct E as [t Ht].
    assert (Js.endsWith (String c (String d s)) "/" = true) as H'.
    { apply endsWith_iff. exists (String c t). simpl. now rewrite Ht. }
    congruence.
Qed.

(** Removing a final slash and then appending a path that begins with a
    slash keeps whatever prefix ended in a slash. *)
Lemma replaceTrailingSlash_keeps_prefix (p t rest : string) :
  Js.startsWith (Js.replaceTrailingSlash ((p ++ "/") ++ t) ++ String "/" rest) (p ++ "/")
  = true.
Proof.
  apply startsWith_iff.
  destruct (Js.endsWith ((p ++ "/") ++ t) "/") eqn:E.
  - apply endsWith_iff in E. destruct E as [v Hv].
    rewrite Hv, replaceTrailingSlash_slash.
    destruct t as [|c t].
    + rewrite append_nil_r in Hv.
      assert (v = p) as ->.
      { apply (f_equal Js.rev) in Hv. rewrite !rev_app in Hv. simpl in Hv.
        injection Hv as Hv. apply (f_equal Js.rev) in Hv.
        now rewrite !rev_involutive in Hv. }
      exists rest. now rewrite append_assoc.
    + assert (exists t', String c t = t' ++ "/") as [t' Ht'].
      { assert (Js.endsWith (String c t) "/" = true) as Hs.
        { unfold Js.endsWith. apply (f_equal Js.rev) in Hv.
          rewrite !rev_app in Hv. rewrite rev_cons in *.
          destruct (Js.rev t ++ String c "") as [|x y] eqn:Ex.
          - destruct (Js.rev t); discriminate Ex.
          - simpl in Hv. injection Hv as Hx _. subst x.
            simpl. reflexivity. }
        now apply endsWith_iff in Hs. }
      rewrite Ht' in Hv. rewrite <- append_assoc in Hv.
      assert (v = (p ++ "/") ++ t') as ->.
      { apply (f_equal Js.rev) in Hv. rewrite (rev_app _ "/"), (rev_app v "/") in Hv.
        simpl in Hv. injection Hv as Hv. apply (f_equal Js.rev) in Hv.
        now rewrite !rev_involutive in Hv. }
      exists (t' ++ String "/" rest). now rewrite !append_assoc.
  - rewrite replaceTrailingSlash_other by exact E.
    exists (t ++ String "/" rest). now rewrite !append_assoc.
Qed.
End StringFacts.

(** ** [processSitemapUrl] *)

Section ProcessSitemapUrlFacts.
Local Open Scope string_scope.

(** The URL after the protocol step of [processSitemapUrl]. *)
Definition withProtocol (input : string) : string :=
  let trimmed := Js.trim input in
  if Js.startsWith trimmed "http://" || Js.startsWith trimmed "https://"
  then trimmed else "https://" ++ trimmed.

Lemma withProtocol_shape (input : string) :
  (exists t, withProtocol input = ("http:/" ++ "/") ++ t)
  \/ (exists t, withProtocol input = ("https:/" ++ "/") ++ t).
Proof.
  unfold withProtocol.
  destruct (Js.startsWith (Js.trim input) "http://") eqn:E1; cbn [orb].
  - left. apply startsWith_iff in E1. exact E1.
  - destruct (Js.startsWith (Js.trim input) "https://") eqn:E2.
    + right. apply startsWith_iff in E2. exact E2.
    + right. now exists (Js.trim input).
Qed.

Lemma processSitemapUrl_unfold (input : string) :
  input <> "" ->
  processSitemapUrl (Some input)
  = if Js.endsWith (withProtocol input) ".xml" then Returns (withProtocol input)
    else Returns (Js.replaceTrailingSlash (withProtocol input) ++ "/sitemap_index.xml").
Proof.
  intros Hne. unfold processSitemapUrl, withProtocol.
  destruct input as [|c s]; [congruence|].
  destruct (Js.startsWith (Js.trim (String c s)) "http://");
    destruct (Js.startsWith (Js.trim (String c s)) "https://"); reflexivity.
Qed.

(** C10.  For a non-empty input, [processSitemapUrl] returns a URL that
    begins with [http://] or [https://], [https://] having been put in
    front of the trimmed input when it began with neither.  When the URL
    so obtained ends with [.xml] it is the result; otherwise the result is
    that URL without its final slash, if it had one, followed by
    [/sitemap_index.xml]. *)
Theorem processSitemapUrl_spec (input : string) :
  input <> "" ->
  let trimmed := Js.trim input in
  let url :=
    if Js.startsWith trimmed "http://" || Js.startsWith trimmed "https://"
    then trimmed else "https://" ++ trimmed in
  exists result,
    processSitemapUrl (Some input) = Returns result
    /\ ((exists rest, result = "http://" ++ rest)
        \/ (exists rest, result = "https://" ++ rest))
    /\ ((exists v, url = v ++ ".xml") -> result = url)
    /\ (~ (exists v, url = v ++ ".xml") ->
        (forall v, url = v ++ "/" -> result = v ++ "/sitemap_index.xml")
        /\ (~ (exists v, url = v ++ "/") -> result = url ++ "/sitemap_index.xml")).
Proof.
  intros Hne trimmed url.
  assert (url = withProtocol input) as Hurl by reflexivity.
  rewrite Hurl. clear Hurl url trimmed.
  rewrite (processSitemapUrl_unfold input Hne).
  destruct (Js.endsWith (withProtocol input) ".xml") eqn:Exml.
  - exists (withProtocol input). split; [reflexivity|]. split; [|split].
    + destruct (withProtocol_shape input) as [[t Ht]|[t Ht]]; [left|right];
        exists t; exact Ht.
    + reflexivity.
    + intros Hno. exfalso. apply Hno. now apply endsWith_iff.
  - eexists. split; [reflexivity|]. split; [|split].
    + destruct (withProtocol_shape input) as [[t Ht]|[t Ht]]; [left|right];
        rewrite Ht; apply startsWith_iff.
      * exact (replaceTrailingSlash_keeps_prefix "http:/" t "sitemap_index.xml").
      * exact (replaceTrailingSlash_keeps_prefix "https:/" t "sitemap_index.xml").
    + intros Hyes. apply endsWith_iff in Hyes. congruence.
    + intros _. split.
      * intros v Hv. rewrite Hv, replaceTrailingSlash_slash. reflexivity.
      * intros Hno. rewrite replaceTrailingSlash_other; [reflexivity|].
        destruct (Js.endsWith (withProtocol input) "/") eqn:E; [|reflexivity].
        exfalso. apply Hno. now apply endsWith_iff.
Qed.

Lemma processSitemapUrl_spec_witness :
  "example.com/" <> "" /\
  exists result,
    processSitemapUrl (Some "example.com/") = Returns result
    /\ ((exists rest, result = "http://" ++ rest)
        \/ (exists rest, result = "https://" ++ rest))
    /\ ((exists v, "https://example.com/" = v ++ ".xml")
        -> result = "https://example.com/")
    /\ (~ (exists v, "https://example.com/" = v ++ ".xml") ->
        (forall v, "https://example.com/" = v ++ "/"
                   -> result = v ++ "/sitemap_index.xml")
        /\ (~ (exists v, "https://example.com/" = v ++ "/")
            -> result = "https://example.com/" ++ "/sitemap_index.xml")).
Proof.
  split; [discriminate|].
  apply (processSitemapUrl_spec "example.com/"). discriminate.
Defined.
End ProcessSitemapUrlFacts.

(** ** [cleanup] *)

Section CleanupFacts.
Variable env : Env.

(** What [browser.close()] leaves in the log. *)
Definition closeEvent (browser : Handle) : Event :=
  EvClose browser match browser_close env browser with
                  | Ok _ => false
                  | Throw _ => true
                  end.

Lemma close_swallowed (browser : Handle) (st : Store) :
  tryCatch (close env browser) (fun _ => ret tt) st
  = (Ok tt, {| browserInstances := browserInstances st;
               requests := requests st;
               log := log st ++ [closeEvent browser] |}).
Proof.
  unfold tryCatch, close, closeEvent, ret.
  destruct (browser_close env browser) as [[]|e]; reflexivity.
Qed.

Lemma close_all_runs (handles : list Handle) (st : Store) :
  forOf handles (fun browser => tryCatch (close env browser) (fun _ => ret tt)) st
  = (Ok tt, {| browserInstances := browserInstances st;
               requests := requests st;
               log := log st ++ map closeEvent handles |}).
Proof.
  revert st. induction handles as [|h hs IH]; intros st.
  - simpl. unfold ret. rewrite app_nil_r. now destruct st.
  - cbn [forOf map]. unfold bind. rewrite close_swallowed, IH.
    cbn [browserInstances requests log]. now rewrite <- app_assoc.
Qed.

Lemma cleanup_runs (st : Store) :
  cleanup env st
  = (Ok tt, {| browserInstances := [];
               requests := requests st;
               log := log st ++ map closeEvent (browserInstances st) |}).
Proof.
  unfold cleanup, bind. rewrite close_all_runs. reflexivity.
Qed.

(** C5.  From every store, whatever [close] does on each handle,
    [cleanup] returns normally, has called [close] on every tracked
    handle in turn (also after one that threw), and leaves
    [browserInstances] empty. *)
Theorem cleanup_empties (st : Store) :
  exists st',
    cleanup env st = (Ok tt, st')
    /\ browserInstances st' = []
    /\ log st' = log st ++ map closeEvent (browserInstances st).
Proof.
  unfold cleanup, bind. rewrite close_all_runs.
  eexists. split; [reflexivity|]. split; reflexivity.
Qed.
End CleanupFacts.

(** ** [ConcurrencyLimiter] *)

Section LimiterFacts.
Context {U : Type}.
Import ConcurrencyLimiter.

(** What holds of the limiter between any two client actions: the counter
    is the number of units in flight and stays within the limit, the
    units started so far followed by the queue are the units submitted,
    and units wait only while the limit is reached. *)
Record Inv (L : Z) (w : World U) : Prop := mkInv {
  inv_limit : limit (lim w) = L;
  inv_count : running (lim w) = Z.of_nat (List.length (inflight w));
  inv_bound : running (lim w) <= Z.max 0 L;
  inv_fifo : started w ++ queue (lim w) = submitted w;
  inv_busy : queue (lim w) = [] \/ L <= running (lim w)
}.

Lemma Inv_initial (L : Z) : Inv L (initial L).
Proof. constructor; simpl; auto; lia. Qed.

(** [process()] followed by the bookkeeping, from a state in which the
    queue may just have grown by one unit or the counter may just have
    dropped by one. *)
Lemma Inv_launch (L : Z) (w : World U) (l : t U) (sub fl : list U) :
  limit l = L ->
  running l = Z.of_nat (List.length fl) ->
  running l <= Z.max 0 L ->
  started w ++ queue l = sub ->
  (List.length (queue l) <= 1)%nat \/ L <= running l + 1 ->
  Inv L (fst (launch w (process l) sub fl)).
Proof.
  intros HL Hc Hb Hf Hbusy. unfold launch, process.
  destruct (running l >=? limit l) eqn:Eg; cbn [orb].
  - cbn [snd fst]. constructor; cbn [lim inflight submitted started]; auto.
    right. rewrite <- HL. apply Z.geb_le in Eg. lia.
  - assert (running l < L) as Hlt.
    { rewrite <- HL. destruct (Z.geb_spec (running l) (limit l)); [discriminate | lia]. }
    destruct (queue l) as [|u rest] eqn:Eq; cbn [List.length Z.of_nat Z.eqb].
    + cbn [snd fst]. constructor; cbn [lim inflight submitted started]; auto.
      rewrite <- Hf, Eq. reflexivity.
    + replace (Z.of_nat (S (List.length rest)) =? 0) with false
        by (symmetry; apply Z.eqb_neq; lia).
      cbn [snd fst]. constructor; cbn [lim inflight submitted started limit running queue].
      * exact HL.
      * rewrite length_app, Hc. simpl List.length. lia.
      * lia.
      * rewrite <- app_assoc. exact Hf.
      * destruct Hbusy as [Hone|Hnear]; [left | right; lia].
        simpl in Hone. destruct rest; [reflexivity | simpl in Hone; lia].
Qed.

Lemma Inv_submit (L : Z) (w : World U) (u : U) :
  Inv L w -> Inv L (fst (submit w u)).
Proof.
  intros [HL Hc Hb Hf Hbusy]. unfold submit, run.
  apply Inv_launch; cbn [limit running queue]; auto.
  - rewrite app_assoc, Hf. reflexivity.
  - destruct Hbusy as [Hq|Hr]; [left | right; lia].
    rewrite Hq. simpl. lia.
Qed.

Lemma length_remove_nth (k : nat) (l : list U) (x : U) :
  nth_error l k = Some x -> List.length l = S (List.length (remove_nth k l)).
Proof.
  intros H. unfold remove_nth.
  assert (k < List.length l)%nat as Hk by (apply nth_error_Some; congruence).
  rewrite length_app, length_firstn, length_skipn. lia.
Qed.

Lemma Inv_settle (L : Z) (w w' : World U) (k : nat) (launched : option U) :
  Inv L w -> settle w k = Some (w', launched) -> Inv L w'.
Proof.
  intros [HL Hc Hb Hf Hbusy] Hs. unfold settle in Hs.
  destruct (nth_error (inflight w) k) as [x|] eqn:Ek; [|discriminate].
  injection Hs as Hs. apply (f_equal fst) in Hs. cbn [fst] in Hs. subst w'.
  pose proof (length_remove_nth _ _ _ Ek) as Hlen.
  unfold settled. apply Inv_launch; cbn [limit running queue]; auto.
  - lia.
  - lia.
  - destruct Hbusy as [Hq|Hr]; [left | right; lia].
    rewrite Hq. simpl. lia.
Qed.

Lemma Inv_step (L : Z) (w w' : World U) (a : Action U) :
  Inv L w -> step w a = Some w' -> Inv L w'.
Proof.
  intros HI Hs. destruct a as [u|k]; cbn [step] in Hs.
  - injection Hs as <-. now apply Inv_submit.
  - destruct (settle w k) as [[w1 launched]|] eqn:Ek; [|discriminate].
    injection Hs as <-. eapply Inv_settle; eauto.
Qed.

Lemma Inv_exec (L : Z) (acts : list (Action U)) (w w' : World U) :
  Inv L w -> exec w acts = Some w' -> Inv L w'.
Proof.
  revert w. induction acts as [|a acts IH]; intros w HI He; cbn [exec] in He.
  - now injection He as <-.
  - destruct (step w a) as [w1|] eqn:Es; [|discriminate].
    eapply IH; [|exact He]. eapply Inv_step; eauto.
Qed.

(** C3.  Whatever units a client submits with [run] and in whatever
    order the started ones settle, in every state the limiter reaches its
    [running] counter is the number of units in flight and is at most the
    limit, and the units started so far, followed by those still queued,
    are the units submitted, in submission order. *)
Theorem limiter_bounded_fifo (L : Z) (acts : list (Action U)) (w : World U) :
  0 <= L ->
  exec (initial L) acts = Some w ->
  running (lim w) = Z.of_nat (List.length (inflight w))
  /\ running (lim w) <= L
  /\ started w ++ queue (lim w) = submitted w.
Proof.
  intros HL He.
  destruct (Inv_exec L acts _ _ (Inv_initial L) He) as [_ Hc Hb Hf _].
  repeat split; auto. lia.
Qed.
End LimiterFacts.

Lemma limiter_bounded_fifo_witness :
  let acts := [ConcurrencyLimiter.Submit 10%nat; ConcurrencyLimiter.Submit 11%nat;
               ConcurrencyLimiter.Submit 12%nat; ConcurrencyLimiter.Settle 1%nat;
               ConcurrencyLimiter.Submit 13%nat] in
  exists w,
    0 <= 2
    /\ ConcurrencyLimiter.exec (ConcurrencyLimiter.initial 2) acts = Some w
    /\ ConcurrencyLimiter.running (ConcurrencyLimiter.lim w) = 2
    /\ ConcurrencyLimiter.started w = [10; 11; 12]%nat
    /\ ConcurrencyLimiter.queue (ConcurrencyLimiter.lim w) = [13]%nat
    /\ (ConcurrencyLimiter.running (ConcurrencyLimiter.lim w)
        = Z.of_nat (List.length (ConcurrencyLimiter.inflight w))
        /\ ConcurrencyLimiter.running (ConcurrencyLimiter.lim w) <= 2
        /\ ConcurrencyLimiter.started w
             ++ ConcurrencyLimiter.queue (ConcurrencyLimiter.lim w)
           = ConcurrencyLimiter.submitted w).
Proof.
  intros acts. eexists.
  split; [lia|]. split; [reflexivity|].
  split; [reflexivity|]. split; [reflexivity|]. split; [reflexivity|].
  apply (limiter_bounded_fifo 2 acts); [lia | reflexivity].
Defined.

(** ** [runAccessibilityCheck] *)

Section JobRunnerFacts.
Variable CONFIG : Config.
Variable env : Env.

Local Abbreviation run_check := (runAccessibilityCheck CONFIG env).

(** The value caught by the [catch] block when attempt [a] does not
    reach the [return] of the [try] block. *)
Definition attempt_error (a : Attempt) : option Thrown :=
  match settlement a with
  | Resolved (Some _) => None
  | Resolved None =>
      Some (TypeError "Cannot read properties of undefined (reading 'browser')")
  | Rejected e => Some e
  end.

(** What an attempt logs up to the point where pa11y settles. *)
Definition attempt_events (url : string) (attemptNumber : Z) : list Event :=
  (if attemptNumber >? 1
   then [EvDelay Jitter (number_of_double (jitter_of env url attemptNumber))]
   else [])
  ++ [EvCheck url attemptNumber].

Definition logged (st : Store) (evs : list Event) : Store :=
  {| browserInstances := browserInstances st;
     requests := requests st;
     log := log st ++ evs |}.

Definition tracked (st : Store) (browser : option Handle) : Store :=
  match browser with
  | Some h => {| browserInstances := Js.add Nat.eqb (browserInstances st) h;
                 requests := requests st;
                 log := log st |}
  | None => st
  end.

Lemma logged_logged st a b : logged (logged st a) b = logged st (a ++ b).
Proof. unfold logged; simpl. now rewrite app_assoc. Qed.

Ltac run_monad :=
  unfold tryCatch, bind, call_pa11y, results_object, delay, emit, ret, throw,
    lift, browserInstances_add; cbn beta iota.

(** The attempt succeeds. *)
Lemma run_check_resolved url n st r :
  settlement (pa11y env url n) = Resolved (Some r) ->
  run_check url n st
  = (Ok {| o_url := url;
           o_issues := or_else (r_issues r) [];
           o_status := StatusSuccess;
           o_error := None;
           o_documentTitle := title_or (r_documentTitle r) url;
           o_attempts := n;
           o_isRetryable := None |},
     tracked (logged st (attempt_events url n)) (r_browser r)).
Proof.
  intros Hs. rewrite runAccessibilityCheck_equation_1.
  unfold attempt_events, logged, tracked. run_monad.
  destruct (n >? 1); run_monad; cbn [log browserInstances requests];
    rewrite Hs; cbn beta iota; destruct (r_browser r);
    cbn beta iota; rewrite <- ?app_assoc; reflexivity.
Qed.

Lemma catch_reached url n st e :
  attempt_error (pa11y env url n) = Some e ->
  forall handler : Thrown -> M Outcome,
    tryCatch
      ((if n >? 1
        then
          let jitter := jitter_of env url n in
          delay Jitter (number_of_double jitter)
        else ret tt) ;;
       results <- call_pa11y env url n ;;
       results <- results_object results ;;
       match r_browser results with
       | Some browser => browserInstances_add browser
       | None => ret tt
       end ;;
       ret {| o_url := url;
              o_issues := or_else (r_issues results) [];
              o_status := StatusSuccess;
              o_error := None;
              o_documentTitle := title_or (r_documentTitle results) url;
              o_attempts := n;
              o_isRetryable := None |})%js
      handler st
    = handler e (logged st (attempt_events url n)).
Proof.
  intros He handler. unfold attempt_error in He.
  unfold attempt_events, logged. run_monad.
  destruct (n >? 1); run_monad; cbn [log browserInstances requests];
    destruct (settlement (pa11y env url n)) as [[r|]|e']; try discriminate;
    injection He as <-; cbn beta iota; rewrite <- ?app_assoc; reflexivity.
Qed.

(** The classifier itself throws: the exception leaves the function. *)
Lemma run_check_classifier_throws url n st e t :
  attempt_error (pa11y env url n) = Some e ->
  isRetryableError e = Throw t ->
  run_check url n st = (Throw t, logged st (attempt_events url n)).
Proof.
  intros He Hc. rewrite runAccessibilityCheck_equation_1.
  rewrite (catch_reached url n st e He). run_monad. rewrite Hc. reflexivity.
Qed.

(** A retryable failure with attempts left: wait, then run the next
    attempt. *)
Lemma run_check_retries url n st e :
  attempt_error (pa11y env url n) = Some e ->
  isRetryableError e = Ok true ->
  n < MAX_RETRIES CONFIG ->
  run_check url n st
  = run_check url (n + 1)
      (logged st (attempt_events url n
                  ++ [EvDelay Backoff (number_of_double (retryDelay_of CONFIG env n))])).
Proof.
  intros He Hc Hn. rewrite runAccessibilityCheck_equation_1.
  rewrite (catch_reached url n st e He). run_monad. rewrite Hc. cbn beta iota.
  destruct (sumbool_of_bool (true && (n <? MAX_RETRIES CONFIG))) as [_|Hf].
  - cbn beta iota zeta. unfold logged. cbn [log browserInstances requests].
    rewrite <- app_assoc. reflexivity.
  - apply Z.ltb_lt in Hn. rewrite Hn in Hf. discriminate.
Qed.

Lemma classified_has_message e b :
  isRetryableError e = Ok b -> exists m, e = ThrownObject m.
Proof.
  destruct e as [|m]; [discriminate | intros _; now exists m].
Qed.

(** Any other failure: the error outcome. *)
Lemma run_check_gives_up url n st e b :
  attempt_error (pa11y env url n) = Some e ->
  isRetryableError e = Ok b ->
  b && (n <? MAX_RETRIES CONFIG) = false ->
  exists m,
    e = ThrownObject m
    /\ run_check url n st
       = (Ok {| o_url := url;
                o_issues := [];
                o_status := StatusError;
                o_error := Some m;
                o_documentTitle := url;
                o_attempts := n;
                o_isRetryable := Some b |},
          logged st (attempt_events url n)).
Proof.
  intros He Hc Hn. destruct (classified_has_message e b Hc) as [m ->].
  exists m. split; [reflexivity|].
  rewrite runAccessibilityCheck_equation_1.
  rewrite (catch_reached url n st _ He). run_monad. rewrite Hc. cbn beta iota.
  destruct (sumbool_of_bool (b && (n <? MAX_RETRIES CONFIG))) as [Ht|_].
  - congruence.
  - reflexivity.
Qed.

Lemma attempt_error_none (a : Attempt) :
  attempt_error a = None -> exists r, settlement a = Resolved (Some r).
Proof.
  unfold attempt_error. destruct (settlement a) as [[r|]|e]; try discriminate.
  intros _. now exists r.
Qed.

(** The events a unit logs between its start and its end. *)
Definition job_event (e : Event) : Prop :=
  match e with
  | EvCheck _ _ => True
  | EvDelay Jitter _ | EvDelay Backoff _ | EvDelay Pacing _ => True
  | _ => False
  end.

Lemma attempt_events_job_events url n : Forall job_event (attempt_events url n).
Proof.
  unfold attempt_events. destruct (n >? 1); repeat constructor.
Qed.

(** What a call of [runAccessibilityCheck] entered at attempt [n] can
    end with. *)
Inductive ends_with (url : string) (n : Z) (st : Store)
  : Result Outcome * Store -> Prop :=
| ends_success (last : Z) (r : Pa11yResults) (evs : list Event) :
    Forall job_event evs ->
    n <= last <= Z.max n (MAX_RETRIES CONFIG) ->
    settlement (pa11y env url last) = Resolved (Some r) ->
    ends_with url n st
      (Ok {| o_url := url;
             o_issues := or_else (r_issues r) [];
             o_status := StatusSuccess;
             o_error := None;
             o_documentTitle := title_or (r_documentTitle r) url;
             o_attempts := last;
             o_isRetryable := None |},
       tracked (logged st evs) (r_browser r))
| ends_error (last : Z) (m : JsValue) (b : bool) (evs : list Event) :
    Forall job_event evs ->
    n <= last <= Z.max n (MAX_RETRIES CONFIG) ->
    attempt_error (pa11y env url last) = Some (ThrownObject m) ->
    isRetryableError (ThrownObject m) = Ok b ->
    (b = true -> MAX_RETRIES CONFIG <= last) ->
    ends_with url n st
      (Ok {| o_url := url;
             o_issues := [];
             o_status := StatusError;
             o_error := Some m;
             o_documentTitle := url;
             o_attempts := last;
             o_isRetryable := Some b |},
       logged st evs)
| ends_thrown (last : Z) (e : Thrown) (msg : string) (evs : list Event) :
    Forall job_event evs ->
    attempt_error (pa11y env url last) = Some e ->
    isRetryableError e = Throw (TypeError msg) ->
    ends_with url n st (Throw (TypeError msg), logged st evs).

Lemma classifier_throws_TypeError e t :
  isRetryableError e = Throw t -> exists msg, t = TypeError msg.
Proof.
  unfold isRetryableError, errorMessage_of, message_of.
  destruct e as [|[| |s|]]; intros H; try discriminate;
    injection H as <-; eexists; reflexivity.
Qed.

Lemma run_check_ends (url : string) (n : Z) (st : Store) :
  ends_with url n st (run_check url n st).
Proof.
  remember (Z.to_nat (MAX_RETRIES CONFIG - n)) as k eqn:Ek.
  revert n st Ek. induction k as [k IH] using lt_wf_ind. intros n st Ek.
  destruct (attempt_error (pa11y env url n)) as [e|] eqn:Ee.
  - destruct (isRetryableError e) as [b|t] eqn:Ec.
    + destruct (b && (n <? MAX_RETRIES CONFIG)) eqn:Eb.
      * apply andb_prop in Eb. destruct Eb as [-> Hlt]. apply Z.ltb_lt in Hlt.
        rewrite (run_check_retries url n st e Ee Ec Hlt).
        specialize (IH (Z.to_nat (MAX_RETRIES CONFIG - (n + 1))) ltac:(lia)
                       (n + 1) (logged st (attempt_events url n
                                 ++ [EvDelay Backoff (number_of_double (retryDelay_of CONFIG env n))]))
                       eq_refl).
        assert (forall evs, Forall job_event evs ->
                            Forall job_event
                              ((attempt_events url n
                                ++ [EvDelay Backoff (number_of_double (retryDelay_of CONFIG env n))]) ++ evs))
          as Hevs.
        { intros evs Hevs. apply Forall_app. split; [|exact Hevs].
          apply Forall_app. split; [apply attempt_events_job_events|].
          repeat constructor. }
        inversion IH as [last r evs Hj Hb Hs Heq | last m b evs Hj Hb He Hc Hm Heq
                         | last e' msg evs Hj He Hc Heq];
          rewrite logged_logged.
        -- apply ends_success; [auto | lia | assumption].
        -- apply ends_error; [auto | lia | assumption | assumption | assumption].
        -- eapply ends_thrown; [auto | eassumption | eassumption].
      * destruct (run_check_gives_up url n st e b Ee Ec Eb) as [m [-> ->]].
        apply ends_error;
          [apply attempt_events_job_events | lia | assumption | assumption |].
        intros ->. cbn [andb] in Eb. apply Z.ltb_ge in Eb. exact Eb.
    + destruct (classifier_throws_TypeError e t Ec) as [msg ->].
      rewrite (run_check_classifier_throws url n st e _ Ee Ec).
      eapply ends_thrown; [apply attempt_events_job_events | eassumption | eassumption].
  - destruct (attempt_error_none _ Ee) as [r Hr].
    rewrite (run_check_resolved url n st r Hr).
    apply ends_success; [apply attempt_events_job_events | lia | assumption].
Qed.
End JobRunnerFacts.

(** ** The job of one URL *)

Section JobFacts.
Variable CONFIG : Config.
Variable env : Env.

(** The object built in the [catch] block of the unit. *)
Definition fallback (url : string) (m : JsValue) : Outcome :=
  {| o_url := url;
     o_issues := [];
     o_status := StatusError;
     o_error := Some m;
     o_documentTitle := url;
     o_attempts := 1;
     o_isRetryable := None |}.

(** The unit always returns an outcome: that of
    [runAccessibilityCheck], after the pacing delay, or the fallback when
    [runAccessibilityCheck] threw. *)
Lemma job_body_returns (job : Job) (st : Store) :
  (exists o st1,
      runAccessibilityCheck CONFIG env (job_url job) 1 st = (Ok o, st1)
      /\ job_body CONFIG env job st
         = (Ok o, logged st1 [EvDelay Pacing (inject_Z (DELAY_BETWEEN_REQUESTS CONFIG))]))
  \/ (exists msg st1,
         runAccessibilityCheck CONFIG env (job_url job) 1 st
         = (Throw (TypeError msg), st1)
         /\ job_body CONFIG env job st
            = (Ok (fallback (job_url job) (VString msg)), st1)).
Proof.
  pose proof (run_check_ends CONFIG env (job_url job) 1 st) as H.
  unfold job_body, tryCatch, bind, delay, emit, ret, lift.
  inversion H as [last r evs Hj Hb Hs Heq | last m b evs Hj Hb He Hc Hm Heq
                  | last e' msg evs Hj He Hc Heq].
  - left. do 2 eexists. split; reflexivity.
  - left. do 2 eexists. split; reflexivity.
  - right. do 2 eexists. split; reflexivity.
Qed.

End JobFacts.


(** ** Binary64 arithmetic *)

Section DoubleFacts.
Import SpecFloat.




















End DoubleFacts.

(** ** Backoff *)

Section RunnerLog.
Variable CONFIG : Config.
Variable env : Env.


End RunnerLog.

Section BackoffFacts.
Variable CONFIG : Config.
Variable env : Env.

(** The multiplier and the initial delay as numbers. *)
Local Abbreviation ratio := (value_of (RETRY_MULTIPLIER CONFIG)).
Local Abbreviation initial := (INITIAL_RETRY_DELAY CONFIG).







End BackoffFacts.

(** A multiplier of 1.1, as [parseFloat] reads it, and one more attempt
    than the default. *)
Definition CONFIG_tenth_more : Config :=
  {| MAX_CONCURRENT_CHECKS := 1;
     BATCH_SIZE := 3;
     DELAY_BETWEEN_REQUESTS := 5000;
     MAX_RETRIES := 4;
     INITIAL_RETRY_DELAY := 5000;
     RETRY_MULTIPLIER := SpecFloat.S754_finite false 4953959590107546 (-52) |}.


Example backoff_at_tenth_more :
  exists q,
    number_of_double
      (retryDelay_of CONFIG_tenth_more (env_where_checks navigation_timeout) 3)
    = Finite q
    /\ (q == 6652045348044801 # 1099511627776)%Q
    /\ ~ (q == 6050)%Q.
Proof.
  eexists. split; [vm_compute; reflexivity|]. split.
  - vm_compute. reflexivity.
  - intros H. vm_compute in H. discriminate H.
Qed.


(** ** Registration of browser handles *)

Section JsSetFacts.
Context {A : Type} (eqb : A -> A -> bool).
Hypothesis eqb_spec : forall x y, reflect (x = y) (eqb x y).

Lemma has_iff (s : list A) (x : A) : Js.has eqb s x = true <-> In x s.
Proof.
  unfold Js.has. rewrite existsb_exists. split.
  - intros [y [Hy He]]. destruct (eqb_spec x y); [now subst | discriminate].
  - intros Hx. exists x. split; [exact Hx|]. now destruct (eqb_spec x x).
Qed.

Lemma add_In (s : list A) (x y : A) : In y (Js.add eqb s x) <-> In y s \/ y = x.
Proof.
  unfold Js.add. destruct (Js.has eqb s x) eqn:E.
  - apply has_iff in E. split; [now left | intros [H| ->]; assumption].
  - rewrite in_app_iff. simpl. intuition.
Qed.

Lemma add_NoDup (s : list A) (x : A) : NoDup s -> NoDup (Js.add eqb s x).
Proof.
  intros Hs. unfold Js.add. destruct (Js.has eqb s x) eqn:E; [exact Hs|].
  assert (~ In x s) as Hx by (rewrite <- has_iff, E; discriminate).
  clear E. induction Hs as [|a l Ha Hl IH]; simpl.
  - constructor; [intros [] | constructor].
  - constructor.
    + rewrite in_app_iff. simpl in *. intuition.
    + apply IH. simpl in Hx. intuition.
Qed.

Lemma addAll_In (xs s : list A) (y : A) :
  In y (Js.addAll eqb s xs) <-> In y s \/ In y xs.
Proof.
  unfold Js.addAll. revert s. induction xs as [|x xs IH]; intros s; simpl.
  - intuition.
  - rewrite IH, add_In. intuition.
Qed.

Lemma addAll_NoDup (xs s : list A) : NoDup s -> NoDup (Js.addAll eqb s xs).
Proof.
  unfold Js.addAll. revert s. induction xs as [|x xs IH]; intros s Hs; simpl.
  - exact Hs.
  - apply IH. now apply add_NoDup.
Qed.

(** Adding a list without repetition grows the set by the members that
    are new. *)
Lemma addAll_length (xs s : list A) :
  NoDup xs ->
  List.length (Js.addAll eqb s xs)
  = (List.length s + List.length (filter (fun x => negb (Js.has eqb s x)) xs))%nat.
Proof.
  unfold Js.addAll. revert s. induction xs as [|x xs IH]; intros s Hxs; simpl.
  - lia.
  - inversion Hxs as [|? ? Hx Hxs']; subst. rewrite (IH _ Hxs').
    unfold Js.add. destruct (Js.has eqb s x) eqn:E; simpl.
    + reflexivity.
    + rewrite length_app. simpl.
      rewrite (filter_ext_in (fun y => negb (Js.has eqb (s ++ [x]) y))
                             (fun y => negb (Js.has eqb s y))).
      * lia.
      * intros y Hy. f_equal. unfold Js.has. rewrite existsb_app. simpl.
        destruct (eqb_spec y x) as [->|_]; [contradiction|].
        now rewrite !orb_false_r.
Qed.

Lemma only_one_shared (l : list A) (f : A -> bool) (x : A) :
  NoDup l -> In x l -> f x = true ->
  (forall y, In y l -> f y = true -> y = x) ->
  List.length (filter f l) = 1%nat.
Proof.
  intros Hl Hx Hfx Hall.
  assert (NoDup (filter f l)) as Hnd by now apply NoDup_filter.
  assert (In x (filter f l)) as Hin by (apply filter_In; auto).
  assert (forall y, In y (filter f l) -> y = x) as Heq.
  { intros y Hy. apply filter_In in Hy. destruct Hy. auto. }
  destruct (filter f l) as [|a [|b rest]]; simpl in *.
  - contradiction.
  - reflexivity.
  - exfalso. inversion Hnd as [|? ? Hna _]; subst. apply Hna.
    left. rewrite (Heq a), (Heq b); auto.
Qed.
End JsSetFacts.

Section TrackerFacts.
Variable CONFIG : Config.
Variable env : Env.

(** The reading of C4 as it is written: every session opened by an
    attempt of the job, failed or not, is tracked when the runner
    returns. *)
Definition every_session_registered (url : string) (st : Store) : Prop :=
  forall o st',
    runAccessibilityCheck CONFIG env url 1 st = (Ok o, st') ->
    forall n h,
      1 <= n <= o_attempts o ->
      session (pa11y env url n) = Some h ->
      In h (browserInstances st').

(** C4, as the code has it.  When [runAccessibilityCheck] returns a
    success Outcome, the [browser] handle carried by the result of the
    final check, if there is one, is in [browserInstances], next to what
    was tracked before; when it returns an error Outcome, the attempts
    have left [browserInstances] as it was. *)
Theorem result_handle_registered (url : string) (st : Store) (o : Outcome) (st' : Store) :
  runAccessibilityCheck CONFIG env url 1 st = (Ok o, st') ->
  (o_status o = StatusSuccess ->
   (forall r h,
       settlement (pa11y env url (o_attempts o)) = Resolved (Some r) ->
       r_browser r = Some h ->
       In h (browserInstances st'))
   /\ (forall h, In h (browserInstances st) -> In h (browserInstances st')))
  /\ (o_status o = StatusError -> browserInstances st' = browserInstances st).
Proof.
  intros Hrun.
  pose proof (run_check_ends CONFIG env url 1 st) as H. rewrite Hrun in H.
  inversion H as [last r evs Hj Hb Hs Heq | last m b evs Hj Hb He Hc Hm Heq | ];
    subst o st'; cbn [o_status o_attempts].
  - split; [intros _ | discriminate]. split.
    + intros r' h Hs' Hh. rewrite Hs in Hs'. injection Hs' as <-.
      rewrite Hh. cbn [tracked browserInstances logged].
      apply (add_In Nat.eqb Nat.eqb_spec). now right.
    + intros h Hh. destruct (r_browser r) as [h'|]; cbn [tracked browserInstances logged].
      * apply (add_In Nat.eqb Nat.eqb_spec). now left.
      * exact Hh.
  - split; [discriminate | reflexivity].
Qed.
End TrackerFacts.

(** A first check that fails for good after launching session 7 returns
    its error Outcome with nothing tracked. *)
Lemma failed_attempt_session_untracked :
  ~ every_session_registered CONFIG_default (env_where_checks invalid_selector)
      "https://example.com/" emptyStore.
Proof.
  intros H.
  specialize (H _ _ eq_refl 1 7%nat ltac:(simpl; lia) eq_refl).
  exact H.
Qed.

Lemma result_handle_registered_witness :
  let env := env_where_checks
               {| session := Some 7%nat;
                  settlement := Resolved (Some {| r_issues := None;
                                                  r_documentTitle := None;
                                                  r_browser := Some 7%nat |}) |} in
  let run := runAccessibilityCheck CONFIG_default env "https://example.com/" 1 emptyStore in
  exists o st',
    run = (Ok o, st')
    /\ o_status o = StatusSuccess
    /\ browserInstances st' = [7%nat]
    /\ ((o_status o = StatusSuccess ->
         (forall r h,
             settlement (pa11y env "https://example.com/" (o_attempts o))
             = Resolved (Some r) ->
             r_browser r = Some h ->
             In h (browserInstances st'))
         /\ (forall h, In h (browserInstances emptyStore) -> In h (browserInstances st')))
        /\ (o_status o = StatusError -> browserInstances st' = browserInstances emptyStore)).
Proof.
  intros env run.
  exists {| o_url := "https://example.com/"; o_issues := []; o_status := StatusSuccess;
            o_error := None; o_documentTitle := "https://example.com/";
            o_attempts := 1; o_isRetryable := None |}.
  exists {| browserInstances := [7%nat]; requests := 0;
            log := [EvCheck "https://example.com/" 1] |}.
  split; [reflexivity|]. split; [reflexivity|]. split; [reflexivity|].
  apply (result_handle_registered CONFIG_default env "https://example.com/" emptyStore).
  reflexivity.
Defined.

(** ** The sitemap collector *)

Section CollectorFacts.
Variable env : Env.

Lemma string_eqb_reflect (x y : string) : reflect (x = y) (String.eqb x y).
Proof. apply String.eqb_spec. Qed.

(** [fetchXML] catches everything: it returns a document or [null]. *)
Lemma fetchXML_loop_returns (url : string) (retries left : nat) (st : Store) :
  exists d st', fetchXML_loop env url retries left st = (Ok d, st').
Proof.
  revert st. induction left as [|left IH]; intros st;
    cbn [fetchXML_loop]; unfold tryCatch, axios_get_and_parse;
    destruct (http env (requests st) url) as [doc|e].
  - now do 2 eexists.
  - now do 2 eexists.
  - now do 2 eexists.
  - unfold bind, delay, emit. apply IH.
Qed.

Lemma fetchXML_returns (url : string) (st : Store) :
  exists d st', fetchXML env url st = (Ok d, st').
Proof. apply fetchXML_loop_returns. Qed.

(** The children of an index fetched one after the other, as the loop of
    [getAllUrls] does; [None] marks a child whose fetch failed. *)
Fixpoint fetched_in_turn (sitemaps : list string) (st : Store)
  : list (option XmlDoc) * Store :=
  match sitemaps with
  | [] => ([], st)
  | sitemapUrl :: rest =>
      let (r, st1) := fetchXML env sitemapUrl st in
      let (docs, st2) := fetched_in_turn rest st1 in
      (match r with Ok d => d | Throw _ => None end :: docs, st2)
  end.

(** The URLs of the children that were fetched. *)
Definition urls_of_children (docs : list (option XmlDoc)) : list string :=
  flat_map (fun d => extractUrlsFromSitemap d) docs.

Lemma extract_None : extractUrlsFromSitemap None = [].
Proof. reflexivity. Qed.

Lemma addAll_app (s xs ys : list string) :
  Js.addAll String.eqb (Js.addAll String.eqb s xs) ys
  = Js.addAll String.eqb s (xs ++ ys).
Proof. unfold Js.addAll. now rewrite fold_left_app. Qed.

Lemma fetchEach_runs (sitemaps : list string) (allUrls : list string) (st : Store) :
  fetchEach env sitemaps allUrls st
  = (Ok (Js.addAll String.eqb allUrls
           (urls_of_children (fst (fetched_in_turn sitemaps st)))),
     snd (fetched_in_turn sitemaps st)).
Proof.
  revert allUrls st. induction sitemaps as [|u rest IH]; intros allUrls st.
  - reflexivity.
  - cbn [fetchEach fetched_in_turn]. unfold bind.
    destruct (fetchXML_returns u st) as (d & st1 & Hd). rewrite Hd.
    destruct (fetched_in_turn rest st1) as [docs st2] eqn:Er.
    cbn [fst snd urls_of_children flat_map].
    destruct d as [doc|].
    + rewrite IH, Er. cbn [fst snd]. now rewrite addAll_app.
    + rewrite IH, Er. cbn [fst snd]. rewrite extract_None. reflexivity.
Qed.

(** [getAllUrls] in one equation. *)
Lemma getAllUrls_runs (sitemapUrl : string) (st : Store) :
  getAllUrls env sitemapUrl st
  = match fetchXML env sitemapUrl st with
    | (Ok (Some idx), st1) =>
        let children :=
          fetched_in_turn (getSitemapsFromIndex (Some idx)) st1 in
        (Ok (Js.addAll String.eqb []
               (urls_of_children (fst children)
                ++ extractUrlsFromSitemap (Some idx))),
         snd children)
    | (_, st1) => (Ok [], st1)
    end.
Proof.
  unfold getAllUrls, tryCatch, bind.
  destruct (fetchXML_returns sitemapUrl st) as (d & st1 & Hd). rewrite Hd.
  destruct d as [idx|]; [|reflexivity].
  rewrite fetchEach_runs. unfold ret. cbn zeta. now rewrite addAll_app.
Qed.
End CollectorFacts.

Section CollectorClaims.
Variable env : Env.

Lemma addAll_nil_NoDup (xs : list string) :
  NoDup xs -> Js.addAll String.eqb [] xs = xs.
Proof.
  intros Hxs.
  assert (forall s, (forall x, In x xs -> ~ In x s) ->
                    Js.addAll String.eqb s xs = s ++ xs) as H.
  { induction Hxs as [|x xs Hx Hxs IH]; intros s Hs.
    - unfold Js.addAll. simpl. now rewrite app_nil_r.
    - change (Js.addAll String.eqb s (x :: xs))
        with (Js.addAll String.eqb (Js.add String.eqb s x) xs).
      assert (Js.add String.eqb s x = s ++ [x]) as ->.
      { unfold Js.add. destruct (Js.has String.eqb s x) eqn:E; [|reflexivity].
        apply (has_iff String.eqb string_eqb_reflect) in E.
        exfalso. apply (Hs x); simpl; auto. }
      rewrite IH.
      + now rewrite <- app_assoc.
      + intros y Hy Hin. apply in_app_iff in Hin. destruct Hin as [Hin|[->|[]]].
        * apply (Hs y); simpl; auto.
        * contradiction. }
  apply (H []). intros x _ [].
Qed.

Lemma getAllUrls_distinct (sitemapUrl : string) (st : Store) :
  exists urls st', getAllUrls env sitemapUrl st = (Ok urls, st') /\ NoDup urls.
Proof.
  rewrite getAllUrls_runs.
  destruct (fetchXML_returns env sitemapUrl st) as (d & st1 & Hd). rewrite Hd.
  destruct d as [idx|]; do 2 eexists; (split; [reflexivity|]).
  - apply (addAll_NoDup String.eqb string_eqb_reflect). constructor.
  - constructor.
Qed.

(** C7.  [getAllUrls] always returns, and the sequence it returns has no
    repeated URL, whatever the documents repeat.  In particular, when the
    root is an index of two child sitemaps that are both fetched and
    carry three distinct URLs each, exactly one of which they share, and
    the root lists no URL of its own, five URLs are returned. *)
Theorem getAllUrls_unique (sitemapUrl : string) (st : Store) :
  exists urls st',
    getAllUrls env sitemapUrl st = (Ok urls, st')
    /\ NoDup urls
    /\ (forall idx c1 c2 d1 d2 st1 st2 st3,
           fetchXML env sitemapUrl st = (Ok (Some idx), st1) ->
           getSitemapsFromIndex (Some idx) = [c1; c2] ->
           extractUrlsFromSitemap (Some idx) = [] ->
           fetchXML env c1 st1 = (Ok (Some d1), st2) ->
           fetchXML env c2 st2 = (Ok (Some d2), st3) ->
           let l1 := extractUrlsFromSitemap (Some d1) in
           let l2 := extractUrlsFromSitemap (Some d2) in
           NoDup l1 -> NoDup l2 ->
           List.length l1 = 3%nat -> List.length l2 = 3%nat ->
           (exists x, In x l1 /\ In x l2 /\ forall y, In y l1 -> In y l2 -> y = x) ->
           List.length urls = 5%nat).
Proof.
  rewrite getAllUrls_runs.
  destruct (fetchXML_returns env sitemapUrl st) as (d & st1 & Hd). rewrite Hd.
  destruct d as [idx|].
  - do 2 eexists. split; [reflexivity|]. split.
    + apply (addAll_NoDup String.eqb string_eqb_reflect). constructor.
    + intros idx' c1 c2 d1 d2 st1' st2 st3 Hroot Hidx Hown H1 H2 l1 l2
             Hn1 Hn2 Hl1 Hl2 (x & Hx1 & Hx2 & Hshared).
      injection Hroot as <- <-.
      rewrite Hidx, Hown, app_nil_r. cbn [fetched_in_turn].
      rewrite H1, H2. cbn [fst urls_of_children flat_map]. rewrite app_nil_r.
      fold l1 l2. rewrite <- addAll_app, (addAll_nil_NoDup l1 Hn1).
      rewrite (addAll_length String.eqb string_eqb_reflect l2 l1 Hn2).
      pose proof (filter_length (Js.has String.eqb l1) l2) as Hpart.
      rewrite (only_one_shared l2 (Js.has String.eqb l1) x Hn2 Hx2) in Hpart.
      * lia.
      * now apply (has_iff String.eqb string_eqb_reflect).
      * intros y Hy2 Hy1. apply (has_iff String.eqb string_eqb_reflect) in Hy1.
        now apply Hshared.
  - do 2 eexists. split; [reflexivity|]. split; [constructor|].
    intros; discriminate.
Qed.
End CollectorClaims.

Lemma getAllUrls_unique_witness :
  let env := env_of_site two_children in
  exists urls st',
    getAllUrls env "https://x/sitemap_index.xml" emptyStore = (Ok urls, st')
    /\ NoDup urls
    /\ List.length urls = 5%nat.
Proof.
  intros env.
  destruct (getAllUrls_unique env "https://x/sitemap_index.xml" emptyStore)
    as (urls & st' & Hrun & Hnd & Hscenario).
  exists urls, st'. split; [exact Hrun|]. split; [exact Hnd|].
  apply (Hscenario
           (index_of ["https://x/a.xml"; "https://x/b.xml"]%string)
           "https://x/a.xml"%string "https://x/b.xml"%string
           (sitemap_of ["https://x/1"; "https://x/2"; "https://x/3"]%string)
           (sitemap_of ["https://x/3"; "https://x/4"; "https://x/5"]%string)
           _ _ _ eq_refl eq_refl eq_refl eq_refl eq_refl).
  - repeat constructor; simpl; intuition discriminate.
  - repeat constructor; simpl; intuition discriminate.
  - reflexivity.
  - reflexivity.
  - exists "https://x/3"%string. simpl. split; [tauto|]. split; [tauto|].
    intros y [<-|[<-|[<-|[]]]] [H|[H|[H|[]]]]; try discriminate H; reflexivity.
Defined.

Section RootAndChildren.
Variable env : Env.

(** The reading of C8 as it is written: an empty result means that the
    fetch of the root failed. *)
Definition empty_only_if_root_fails (sitemapUrl : string) (st : Store) : Prop :=
  fst (getAllUrls env sitemapUrl st) = Ok [] ->
  fst (fetchXML env sitemapUrl st) = Ok None.

Lemma addAll_nil_iff (xs : list string) :
  Js.addAll String.eqb [] xs = [] <-> xs = [].
Proof.
  split; [|intros ->; reflexivity].
  intros H. destruct xs as [|x xs]; [reflexivity|].
  assert (In x (Js.addAll String.eqb [] (x :: xs))) as Hin.
  { apply (addAll_In String.eqb string_eqb_reflect). right. now left. }
  rewrite H in Hin. destruct Hin.
Qed.

(** C8, as the code has it.  When the fetch of the root fails,
    [getAllUrls] returns the empty sequence.  When it succeeds, every
    child is fetched in turn whether or not an earlier one failed, and the
    result holds exactly the URLs extracted from the children that were
    fetched and from the root itself; it is empty exactly when none of
    these documents yields a URL. *)
Theorem getAllUrls_root_and_children
        (sitemapUrl : string) (st st1 : Store) (root : option XmlDoc) :
  fetchXML env sitemapUrl st = (Ok root, st1) ->
  match root with
  | None => getAllUrls env sitemapUrl st = (Ok [], st1)
  | Some idx =>
      let children := fetched_in_turn env (getSitemapsFromIndex root) st1 in
      exists urls,
        getAllUrls env sitemapUrl st = (Ok urls, snd children)
        /\ (forall u,
               In u urls <->
               (exists d, In (Some d) (fst children)
                          /\ In u (extractUrlsFromSitemap (Some d)))
               \/ In u (extractUrlsFromSitemap root))
        /\ (urls = [] <->
            (forall d, In (Some d) (fst children)
                       -> extractUrlsFromSitemap (Some d) = [])
            /\ extractUrlsFromSitemap root = [])
  end.
Proof.
  intros Hroot. rewrite getAllUrls_runs, Hroot.
  destruct root as [idx|]; [|reflexivity].
  cbn zeta. eexists. split; [reflexivity|].
  set (docs := fst (fetched_in_turn env (getSitemapsFromIndex (Some idx)) st1)).
  assert (forall u, In u (urls_of_children docs) <->
                    exists d, In (Some d) docs
                              /\ In u (extractUrlsFromSitemap (Some d))) as Hchildren.
  { intros u. unfold urls_of_children. rewrite in_flat_map. split.
    - intros [[d|] [Hd Hu]]; [now exists d | destruct Hu].
    - intros [d [Hd Hu]]. now exists (Some d). }
  split.
  - intros u. rewrite (addAll_In String.eqb string_eqb_reflect), in_app_iff, Hchildren.
    simpl. tauto.
  - rewrite addAll_nil_iff. split.
    + intros H. apply app_eq_nil in H. destruct H as [Hc Hr]. split; [|exact Hr].
      intros d Hd. destruct (extractUrlsFromSitemap (Some d)) as [|u l] eqn:E;
        [reflexivity|].
      assert (In u (urls_of_children docs)) as Hin.
      { apply Hchildren. exists d. rewrite E. simpl. auto. }
      rewrite Hc in Hin. destruct Hin.
    + intros [Hc Hr]. rewrite Hr, app_nil_r.
      assert (forall u, ~ In u (urls_of_children docs)) as Hnone.
      { intros u Hin. apply Hchildren in Hin. destruct Hin as [d [Hd Hu]].
        rewrite (Hc d Hd) in Hu. destruct Hu. }
      destruct (urls_of_children docs) as [|u l]; [reflexivity|].
      exfalso. apply (Hnone u). simpl. auto.
Qed.
End RootAndChildren.

(** The root is fetched and is an index that lists nothing: the result is
    empty although the fetch of the root did not fail. *)
Lemma empty_result_with_root_fetched :
  ~ empty_only_if_root_fails (env_of_site empty_index)
      "https://x/sitemap_index.xml" emptyStore.
Proof.
  intros H. specialize (H eq_refl). discriminate H.
Qed.

Lemma getAllUrls_root_and_children_witness :
  let env := env_of_site missing_child in
  let root := Some (index_of ["https://x/gone.xml"; "https://x/b.xml"]%string) in
  let st1 := {| browserInstances := []; requests := 1;
                log := [EvRequest "https://x/sitemap_index.xml"] |} in
  let children := fetched_in_turn env (getSitemapsFromIndex root) st1 in
  fetchXML env "https://x/sitemap_index.xml" emptyStore = (Ok root, st1)
  /\ fst children = [None; Some (sitemap_of ["https://x/3"; "https://x/4"]%string)]
  /\ exists urls,
      getAllUrls env "https://x/sitemap_index.xml" emptyStore = (Ok urls, snd children)
      /\ (forall u,
             In u urls <->
             (exists d, In (Some d) (fst children)
                        /\ In u (extractUrlsFromSitemap (Some d)))
             \/ In u (extractUrlsFromSitemap root))
      /\ (urls = [] <->
          (forall d, In (Some d) (fst children)
                     -> extractUrlsFromSitemap (Some d) = [])
          /\ extractUrlsFromSitemap root = []).
Proof.
  intros env root st1 children.
  split; [reflexivity|]. split; [reflexivity|].
  apply (getAllUrls_root_and_children env "https://x/sitemap_index.xml"
           emptyStore st1 root).
  reflexivity.
Defined.

(** ** The limiter as used by [processUrlBatch] *)

Section LimiterQueueFacts.
Context {U : Type}.
Import ConcurrencyLimiter.

(** The units handed to [run] whose promise has not settled: those in
    flight, then those queued. *)
Definition unsettled (w : World U) : list U := inflight w ++ queue (lim w).

Lemma process_takes_head (l : t U) :
  match snd (process l) with
  | Some u => queue l = u :: queue (fst (process l))
  | None => queue (fst (process l)) = queue l
  end.
Proof.
  unfold process. destruct (running l >=? limit l); cbn [orb]; [reflexivity|].
  destruct (queue l) as [|u rest] eqn:E; cbn [List.length Z.of_nat Z.eqb].
  - cbn [snd fst]. exact E.
  - replace (Z.of_nat (S (List.length rest)) =? 0) with false
      by (symmetry; apply Z.eqb_neq; lia).
    reflexivity.
Qed.

Lemma launch_inflight (w : World U) (r : t U * option U) (sub fl : list U) :
  inflight (fst (launch w r sub fl))
  = fl ++ match snd (launch w r sub fl) with Some u => [u] | None => [] end.
Proof.
  unfold launch. destruct (snd r); cbn [fst snd inflight]; [reflexivity|].
  now rewrite app_nil_r.
Qed.

Lemma launch_unsettled (w : World U) (l : t U) (sub fl : list U) :
  unsettled (fst (launch w (process l) sub fl)) = fl ++ queue l.
Proof.
  unfold unsettled, launch. pose proof (process_takes_head l) as H.
  destruct (snd (process l)) as [u|]; cbn [fst snd inflight lim].
  - rewrite H, <- app_assoc. reflexivity.
  - rewrite H. reflexivity.
Qed.

Lemma submit_unsettled (w : World U) (u : U) :
  unsettled (fst (submit w u)) = unsettled w ++ [u].
Proof.
  unfold submit, run. rewrite launch_unsettled. cbn [queue].
  unfold unsettled. now rewrite app_assoc.
Qed.

Lemma remove_nth_app (k : nat) (l1 l2 : list U) :
  (k < List.length l1)%nat -> remove_nth k (l1 ++ l2) = remove_nth k l1 ++ l2.
Proof.
  intros Hk. unfold remove_nth.
  rewrite firstn_app, skipn_app.
  replace (k - List.length l1)%nat with 0%nat by lia.
  replace (S k - List.length l1)%nat with 0%nat by lia.
  simpl. rewrite app_nil_r, <- app_assoc. reflexivity.
Qed.

Lemma settle_unsettled (w w' : World U) (k : nat) (launched : option U) :
  settle w k = Some (w', launched) ->
  unsettled w' = remove_nth k (unsettled w)
  /\ inflight w'
     = remove_nth k (inflight w) ++ match launched with Some u => [u] | None => [] end.
Proof.
  unfold settle. destruct (nth_error (inflight w) k) as [x|] eqn:Ek; [|discriminate].
  intros H. injection H as H.
  assert (w' = fst (launch w (settled (lim w)) (submitted w) (remove_nth k (inflight w))))
    as Hw by now rewrite H.
  assert (launched
          = snd (launch w (settled (lim w)) (submitted w) (remove_nth k (inflight w))))
    as Hl by now rewrite H.
  subst w' launched. split.
  - unfold settled. rewrite launch_unsettled. cbn [queue]. unfold unsettled.
    rewrite remove_nth_app; [reflexivity|].
    apply nth_error_Some. congruence.
  - apply launch_inflight.
Qed.

Lemma submit_inflight (w : World U) (u : U) :
  inflight (fst (submit w u))
  = inflight w ++ match snd (submit w u) with Some v => [v] | None => [] end.
Proof. apply launch_inflight. Qed.

Lemma remove_nth_In (k : nat) (l : list U) (a x : U) :
  NoDup l -> nth_error l k = Some a ->
  (In x (remove_nth k l) <-> In x l /\ x <> a).
Proof.
  intros Hnd Hk. destruct (nth_error_split l k Hk) as (l1 & l2 & -> & <-).
  unfold remove_nth. rewrite firstn_app, skipn_app.
  rewrite firstn_all, Nat.sub_diag. simpl firstn. rewrite app_nil_r.
  rewrite skipn_all2 by lia.
  replace (S (List.length l1) - List.length l1)%nat with 1%nat by lia.
  simpl. apply NoDup_remove_2 in Hnd.
  rewrite !in_app_iff in *. simpl. split.
  - intros H. split; [tauto|]. intros ->. tauto.
  - intros [[H|[H|H]] Hne]; [tauto | congruence | tauto].
Qed.

Lemma remove_nth_NoDup (k : nat) (l : list U) :
  NoDup l -> NoDup (remove_nth k l).
Proof.
  intros Hnd. unfold remove_nth.
  rewrite <- (firstn_skipn k l) in Hnd.
  destruct (skipn k l) as [|a rest] eqn:E.
  - rewrite skipn_all2; [now rewrite app_nil_r in * |].
    apply (f_equal (@List.length U)) in E. rewrite length_skipn in E. simpl in E. lia.
  - replace (skipn (S k) l) with rest.
    + now apply NoDup_remove_1 in Hnd.
    + change (S k) with (1 + k)%nat. rewrite <- skipn_skipn, E. reflexivity.
Qed.
End LimiterQueueFacts.

(** ** [processUrlBatch] *)

Section BatchFacts.
Variable CONFIG : Config.
Variable env : Env.
Variable L : Z.
Hypothesis L_positive : 1 <= L.

Import ConcurrencyLimiter.

(** The events of a batch whose units carry the global indices
    [lo + 1 .. hi]. *)
Definition batch_event (lo hi : Z) (e : Event) : Prop :=
  match e with
  | EvStart g _ | EvDone g _ => lo < g <= hi
  | EvBatch _ _ _ => False
  | EvDelay BatchPause _ => False
  | _ => job_event e
  end.

(** The unit with global index [g] was started on [url], and later
    settled with an outcome for that URL. *)
Definition done_after_start (g : Z) (url : string) (body : list Event) : Prop :=
  exists pre o post,
    body = pre ++ EvDone g o :: post
    /\ In (EvStart g url) pre
    /\ o_url o = url.

Definition started_then_done (job : Job) (body : list Event) : Prop :=
  done_after_start (job_globalIndex job) (job_url job) body.

Lemma job_event_batch_event lo hi e : job_event e -> batch_event lo hi e.
Proof. destruct e as [[] ?| | | | | |]; simpl; tauto. Qed.

Lemma started_then_done_more job body more :
  started_then_done job body -> started_then_done job (body ++ more).
Proof.
  intros (pre & o & post & -> & Hs & Hu). exists pre, o, (post ++ more).
  rewrite <- app_assoc. simpl. auto.
Qed.

Lemma log_tracked st b : log (tracked st b) = log st.
Proof. now destruct b. Qed.

(** The unit returns an outcome for its own URL and logs job events
    only. *)
Lemma job_body_logs (job : Job) (st : Store) :
  exists o st' evs,
    job_body CONFIG env job st = (Ok o, st')
    /\ o_url o = job_url job
    /\ log st' = log st ++ evs
    /\ Forall job_event evs.
Proof.
  pose proof (run_check_ends CONFIG env (job_url job) 1 st) as H.
  unfold job_body, tryCatch, bind, delay, emit, ret, lift.
  inversion H as [last r evs Hj Hb Hs Heq | last m b evs Hj Hb He Hc Hm Heq
                  | last e' msg evs Hj He Hc Heq].
  - do 3 eexists. split; [reflexivity|]. split; [reflexivity|].
    cbn [log]. rewrite log_tracked. cbn [logged log].
    rewrite <- app_assoc. split; [reflexivity|].
    apply Forall_app. split; [exact Hj | repeat constructor].
  - do 3 eexists. split; [reflexivity|]. split; [reflexivity|].
    cbn [logged log]. rewrite <- app_assoc. split; [reflexivity|].
    apply Forall_app. split; [exact Hj | repeat constructor].
  - do 3 eexists. split; [reflexivity|]. split; [reflexivity|].
    cbn [logged log]. split; [reflexivity | exact Hj].
Qed.

(** What holds of a run while a batch is under way: [body] is what the
    batch has logged since its beginning, at [log0]. *)
Record Running (lo hi : Z) (log0 : list Event) (rt : Runtime) (body : list Event)
  : Prop := mkRunning {
  run_inv : Inv L (world rt);
  run_log : log (store rt) = log0 ++ body;
  run_events : Forall (batch_event lo hi) body;
  run_started :
    forall job, In job (inflight (world rt)) ->
                In (EvStart (job_globalIndex job) (job_url job)) body;
  run_range :
    forall job, In job (unsettled (world rt)) -> lo < job_globalIndex job <= hi
}.

Lemma on_launch_log (launched : option Job) (st : Store) :
  log (snd (on_launch launched st))
  = log st ++ match launched with
              | Some job => [EvStart (job_globalIndex job) (job_url job)]
              | None => []
              end.
Proof.
  destruct launched; cbn; [reflexivity | now rewrite app_nil_r].
Qed.

Lemma submitAll_runs (lo hi : Z) (log0 : list Event) (jobs : list Job) :
  forall (rt : Runtime) (body : list Event),
    Running lo hi log0 rt body ->
    (forall job, In job jobs -> lo < job_globalIndex job <= hi) ->
    exists body',
      Running lo hi log0 (submitAll jobs rt) body'
      /\ unsettled (world (submitAll jobs rt)) = unsettled (world rt) ++ jobs.
Proof.
  induction jobs as [|job rest IH]; intros rt body Hrun Hrange.
  - exists body. split; [exact Hrun|]. cbn. now rewrite app_nil_r.
  - cbn [submitAll].
    destruct (submit (world rt) job) as [w launched] eqn:Es.
    assert (w = fst (submit (world rt) job)) as Hw by now rewrite Es.
    assert (launched = snd (submit (world rt) job)) as Hl by now rewrite Es.
    pose proof (submit_unsettled (world rt) job) as Hu. rewrite <- Hw in Hu.
    pose proof (submit_inflight (world rt) job) as Hi. rewrite <- Hw, <- Hl in Hi.
    destruct Hrun as [Hinv Hlog Hev Hst Hrg].
    assert (forall j, In j (unsettled w) -> lo < job_globalIndex j <= hi) as Hrg'.
    { intros j Hj. rewrite Hu in Hj. apply in_app_iff in Hj.
      destruct Hj as [Hj|[<-|[]]]; [now apply Hrg | apply Hrange; now left]. }
    set (more := match launched with
                 | Some j => [EvStart (job_globalIndex j) (job_url j)]
                 | None => []
                 end).
    destruct (IH {| store := with_store rt (on_launch launched);
                    world := w; ticks := ticks rt |} (body ++ more)) as [body' [Hrun' Hu']].
    + constructor; cbn [world store].
      * rewrite Hw. now apply Inv_submit.
      * unfold with_store. rewrite on_launch_log, Hlog, <- app_assoc. reflexivity.
      * apply Forall_app. split; [exact Hev|].
        unfold more. destruct launched as [j|]; [|constructor].
        constructor; [|constructor]. cbn. apply Hrg'. unfold unsettled.
        rewrite Hi. rewrite !in_app_iff. left. right. now left.
      * intros j Hj. rewrite Hi in Hj. apply in_app_iff in Hj. apply in_app_iff.
        destruct Hj as [Hj|Hj]; [left; now apply Hst|right].
        unfold more. destruct launched as [j'|]; [|destruct Hj].
        destruct Hj as [<-|[]]. now left.
      * exact Hrg'.
    + intros j Hj. apply Hrange. now right.
    + exists body'. split; [exact Hrun'|].
      rewrite Hu'. cbn [world]. rewrite Hu, <- app_assoc. reflexivity.
Qed.

Lemma length_set_slot {A} (slots : list (option A)) (i : nat) (a : A) :
  List.length (set_slot slots i a) = List.length slots.
Proof.
  revert i. induction slots as [|s rest IH]; intros [|i]; simpl; auto.
Qed.

Lemma nth_error_set_slot_same {A} (slots : list (option A)) (i : nat) (a : A) :
  (i < List.length slots)%nat -> nth_error (set_slot slots i a) i = Some (Some a).
Proof.
  revert i. induction slots as [|s rest IH]; intros [|i] Hi; simpl in *;
    try lia; [reflexivity | apply IH; lia].
Qed.

Lemma nth_error_set_slot_other {A} (slots : list (option A)) (i j : nat) (a : A) :
  i <> j -> nth_error (set_slot slots i a) j = nth_error slots j.
Proof.
  revert i j. induction slots as [|s rest IH]; intros [|i] [|j] Hij; simpl;
    try reflexivity; [congruence | apply IH; congruence].
Qed.

(** [Promise.all] resolves once every slot is filled. *)
Lemma allSettled_filled {A B} (P : A -> B -> Prop) (J : list A) (slots : list (option B)) :
  List.length slots = List.length J ->
  (forall i job, nth_error J i = Some job ->
                 exists o, nth_error slots i = Some (Some o) /\ P job o) ->
  exists results, allSettled slots = Some results /\ Forall2 P J results.
Proof.
  revert slots. induction J as [|job J IH]; intros [|s slots] Hlen Hall;
    simpl in Hlen; try discriminate.
  - exists []. split; [reflexivity | constructor].
  - destruct (Hall 0%nat job eq_refl) as [o [Ho HP]]. simpl in Ho.
    injection Ho as ->.
    destruct (IH slots) as [results [Hr HF]].
    + lia.
    + intros i j Hj. apply (Hall (S i) j Hj).
    + exists (o :: results). simpl. rewrite Hr. split; [reflexivity|].
      now constructor.
Qed.

Section Await.
Variables lo hi : Z.
Variable log0 : list Event.
Variable J : list Job.
Hypothesis J_indexed : forall i job, nth_error J i = Some job -> job_index job = i.

(** Each unit of the batch is either still unsettled, its slot empty,
    or its slot holds an outcome for its URL and the log shows it
    started and done. *)
Definition slots_agree (slots : list (option Outcome)) (rt : Runtime)
           (body : list Event) : Prop :=
  forall i job,
    nth_error J i = Some job ->
    (In job (unsettled (world rt)) /\ nth_error slots i = Some None)
    \/ (exists o, nth_error slots i = Some (Some o)
                  /\ o_url o = job_url job
                  /\ started_then_done job body).

Lemma await_finished (budget : nat) (slots : list (option Outcome))
      (rt : Runtime) (body : list Event) :
  inflight (world rt) = [] ->
  Running lo hi log0 rt body ->
  List.length slots = List.length J ->
  slots_agree slots rt body ->
  exists results,
    awaitAll CONFIG env budget slots rt = Some (Ok results, rt)
    /\ unsettled (world rt) = []
    /\ Forall2 (fun job o => o_url o = job_url job) J results
    /\ (forall job, In job J -> started_then_done job body).
Proof.
  intros Hfl Hrun Hlen Hslots.
  assert (queue (lim (world rt)) = []) as Hq.
  { destruct (run_inv _ _ _ _ _ Hrun) as [_ Hc _ _ Hbusy].
    destruct Hbusy as [Hq|Hb]; [exact Hq|].
    rewrite Hc, Hfl in Hb. simpl in Hb. lia. }
  assert (unsettled (world rt) = []) as Hu by (unfold unsettled; now rewrite Hfl, Hq).
  assert (forall i job, nth_error J i = Some job ->
            exists o, nth_error slots i = Some (Some o)
                      /\ (o_url o = job_url job /\ started_then_done job body)) as Hall.
  { intros i job Hj. destruct (Hslots i job Hj) as [[Hin _]|(o & Ho & Hurl & Hsd)].
    - rewrite Hu in Hin. destruct Hin.
    - exists o. auto. }
  destruct (allSettled_filled _ J slots Hlen Hall) as [results [Hr HF]].
  exists results. split; [|split; [exact Hu|split]].
  - destruct budget; cbn [awaitAll]; rewrite Hfl, Hq, Hr; reflexivity.
  - clear -HF. induction HF; constructor; tauto.
  - intros job Hj. apply In_nth_error in Hj. destruct Hj as [i Hi].
    destruct (Hall i job Hi) as (o & _ & _ & Hsd). exact Hsd.
Qed.

Lemma remove_nth_incl {A} (k : nat) (l : list A) (x : A) :
  In x (remove_nth k l) -> In x l.
Proof.
  unfold remove_nth. intros H. apply in_app_iff in H.
  rewrite <- (firstn_skipn k l). apply in_app_iff.
  destruct H as [H|H]; [now left | right].
  change (S k) with (1 + k)%nat in H. rewrite <- skipn_skipn in H.
  destruct (skipn k l); simpl in H; [destruct H | now right].
Qed.

(** [await Promise.all(promises)] resolves, with one outcome per unit
    in the order of the units, after every unit has been started and
    has settled. *)
Lemma awaitAll_runs (budget : nat) :
  forall (slots : list (option Outcome)) (rt : Runtime) (body : list Event),
    (List.length (unsettled (world rt)) <= budget)%nat ->
    Running lo hi log0 rt body ->
    NoDup (unsettled (world rt)) ->
    (forall job, In job (unsettled (world rt)) -> In job J) ->
    List.length slots = List.length J ->
    slots_agree slots rt body ->
    exists results rt' body',
      awaitAll CONFIG env budget slots rt = Some (Ok results, rt')
      /\ Running lo hi log0 rt' body'
      /\ unsettled (world rt') = []
      /\ Forall2 (fun job o => o_url o = job_url job) J results
      /\ (forall job, In job J -> started_then_done job body').
Proof.
  induction budget as [|budget IH]; intros slots rt body Hb Hrun Hnd Hsub Hlen Hslots.
  - assert (inflight (world rt) = []) as Hfl.
    { unfold unsettled in Hb. destruct (inflight (world rt)); [reflexivity|].
      simpl in Hb. lia. }
    destruct (await_finished 0 slots rt body Hfl Hrun Hlen Hslots)
      as (results & Ha & Hu & HF & Hsd).
    exists results, rt, body. auto.
  - destruct (inflight (world rt)) as [|j0 fl] eqn:Hfl.
    { destruct (await_finished (S budget) slots rt body Hfl Hrun Hlen Hslots)
        as (results & Ha & Hu & HF & Hsd).
      exists results, rt, body. auto. }
    cbn [awaitAll]. rewrite Hfl.
    set (k := (scheduler env (ticks rt) mod List.length (j0 :: fl))%nat).
    assert (k < List.length (j0 :: fl))%nat as Hk
        by (apply Nat.mod_upper_bound; simpl; lia).
    destruct (nth_error (j0 :: fl) k) as [job|] eqn:Ek;
      [|apply nth_error_None in Ek; lia].
    destruct (settle (world rt) k) as [[w' launched]|] eqn:Es;
      [|unfold settle in Es; rewrite Hfl, Ek in Es; discriminate].
    destruct (job_body_logs job (store rt)) as (o & st' & evs & Hjob & Hurl & Hlog & Hevs).
    rewrite Hjob. cbn beta iota zeta.
    destruct (settle_unsettled _ _ _ _ Es) as [Hu' Hfl'].
    rewrite Hfl in Hfl'.
    assert (nth_error (unsettled (world rt)) k = Some job) as Hkth.
    { unfold unsettled. rewrite Hfl, nth_error_app1 by exact Hk. exact Ek. }
    assert (In job (inflight (world rt))) as Hjob_fl
        by (rewrite Hfl; eapply nth_error_In; exact Ek).
    assert (In job (unsettled (world rt))) as Hjob_un
        by (eapply nth_error_In; exact Hkth).
    destruct Hrun as [Hinv Hrlog Hev Hst Hrg].
    set (more := match launched with
                 | Some j => [EvStart (job_globalIndex j) (job_url j)]
                 | None => []
                 end).
    set (body1 := (body ++ evs) ++ EvDone (job_globalIndex job) o :: more).
    assert (forall j, In j (unsettled w') -> In j (unsettled (world rt))) as Hincl.
    { intros j Hj. rewrite Hu' in Hj. eapply remove_nth_incl; exact Hj. }
    assert (forall j, launched = Some j -> In j (unsettled w')) as Hlaunched.
    { intros j ->. unfold unsettled. rewrite Hfl'. rewrite !in_app_iff.
      left. right. now left. }
    assert (started_then_done job body1) as Hdone.
    { exists (body ++ evs), o, more. split; [reflexivity|]. split; [|exact Hurl].
      apply in_app_iff. left. now apply Hst. }
    destruct (IH (set_slot slots (job_index job) o)
                 {| store := snd (on_launch launched
                                    (snd (emit (EvDone (job_globalIndex job) o) st')));
                    world := w'; ticks := S (ticks rt) |}
                 body1)
      as (results & rt' & body' & Ha & Hrun' & Hfin & HF & Hsd); cbn [world store].
    + rewrite Hu'. pose proof (length_remove_nth _ _ _ Hkth). lia.
    + constructor; cbn [world store].
      * eapply Inv_settle; eauto.
      * rewrite on_launch_log. cbn [emit snd log]. rewrite Hlog, Hrlog.
        unfold body1. fold more. rewrite <- !app_assoc. reflexivity.
      * unfold body1. apply Forall_app. split; [apply Forall_app; split|].
        -- exact Hev.
        -- eapply Forall_impl; [|exact Hevs]. apply job_event_batch_event.
        -- constructor; [cbn; now apply Hrg|].
           unfold more. destruct launched as [j|]; [|constructor].
           constructor; [|constructor]. cbn. apply Hrg, Hincl, Hlaunched. reflexivity.
      * intros j Hj. rewrite Hfl' in Hj. unfold body1.
        apply in_app_iff in Hj. destruct Hj as [Hj|Hj].
        -- rewrite <- Hfl in Hj. apply remove_nth_incl in Hj.
           rewrite <- app_assoc. apply in_app_iff. left. now apply Hst.
        -- apply in_app_iff. right. right. unfold more.
           destruct launched as [j'|]; [|destruct Hj]. destruct Hj as [<-|[]]. now left.
      * intros j Hj. apply Hrg, Hincl, Hj.
    + rewrite Hu'. now apply remove_nth_NoDup.
    + intros j Hj. apply Hsub, Hincl, Hj.
    + rewrite length_set_slot. exact Hlen.
    + intros i ji Hji.
      destruct (Nat.eq_dec (job_index job) i) as [Heq|Hne].
      * (* the unit that has just settled *)
        right. exists o.
        assert (ji = job) as ->.
        { apply Hsub in Hjob_un. apply In_nth_error in Hjob_un.
          destruct Hjob_un as [i' Hi']. pose proof (J_indexed _ _ Hi') as Hidx.
          rewrite Heq in Hidx. subst i'. congruence. }
        split; [|split; [exact Hurl | exact Hdone]].
        rewrite Heq. apply nth_error_set_slot_same.
        rewrite Hlen. apply nth_error_Some. congruence.
      * rewrite nth_error_set_slot_other by exact Hne.
        assert (ji <> job) as Hdiff.
        { intros ->. apply Hne. now apply J_indexed. }
        destruct (Hslots i ji Hji) as [[Hin Hnone]|(o' & Ho' & Hurl' & Hsd')].
        -- left. split; [|exact Hnone]. cbn [world]. rewrite Hu'.
           apply (remove_nth_In k _ job ji Hnd Hkth). auto.
        -- right. exists o'. split; [exact Ho'|]. split; [exact Hurl'|].
           unfold body1. rewrite <- app_assoc. now apply started_then_done_more.
    + exists results, rt', body'. auto.
Qed.
End Await.

Lemma jobs_from_nth (urls : list string) (startIndex : Z) :
  forall (first i : nat) (job : Job),
    nth_error (jobs_from urls startIndex first) i = Some job ->
    job_index job = (first + i)%nat
    /\ job_globalIndex job = startIndex + Z.of_nat (first + i) + 1
    /\ nth_error urls i = Some (job_url job).
Proof.
  induction urls as [|u rest IH]; intros first i job H.
  - destruct i; discriminate H.
  - destruct i as [|i]; simpl in H.
    + injection H as <-. cbn. rewrite Nat.add_0_r. auto.
    + apply IH in H. replace (first + S i)%nat with (S first + i)%nat by lia.
      exact H.
Qed.

Lemma jobs_from_urls (urls : list string) (startIndex : Z) (first : nat) :
  map job_url (jobs_from urls startIndex first) = urls.
Proof.
  revert first. induction urls as [|u rest IH]; intros first; simpl;
    [reflexivity | now rewrite IH].
Qed.

Lemma jobs_from_NoDup (urls : list string) (startIndex : Z) (first : nat) :
  NoDup (jobs_from urls startIndex first).
Proof.
  apply NoDup_nth_error. intros i j Hi Hij.
  destruct (nth_error (jobs_from urls startIndex first) i) as [job|] eqn:Ei;
    [|apply nth_error_None in Ei; lia].
  symmetry in Hij.
  apply jobs_from_nth in Ei. apply jobs_from_nth in Hij. lia.
Qed.

(** A runtime between two batches: nothing queued, nothing in flight. *)
Definition idle (rt : Runtime) : Prop :=
  Inv L (world rt) /\ unsettled (world rt) = [].

(** A batch submitted to an idle limiter runs to completion: there is one
    outcome per URL, in the order of the URLs, every unit of the batch was
    started and has settled, and nothing else was logged. *)
Lemma processUrlBatch_runs (urls : list string) (startIndex totalUrls : Z) (rt : Runtime) :
  idle rt ->
  exists results rt' body,
    processUrlBatch CONFIG env urls startIndex totalUrls rt = Some (Ok results, rt')
    /\ idle rt'
    /\ map o_url results = urls
    /\ log (store rt') = log (store rt) ++ body
    /\ Forall (batch_event startIndex (startIndex + Z.of_nat (List.length urls))) body
    /\ (forall job, In job (jobs_from urls startIndex 0) -> started_then_done job body).
Proof.
  intros [Hinv Hidle].
  set (J := jobs_from urls startIndex 0).
  pose (lo := startIndex). pose (hi := startIndex + Z.of_nat (List.length urls)).
  assert (forall job, In job J -> lo < job_globalIndex job <= hi) as Hrange.
  { intros job Hj. apply In_nth_error in Hj. destruct Hj as [i Hi].
    pose proof (jobs_from_nth _ _ _ _ _ Hi) as (_ & Hg & Hu).
    assert (i < List.length urls)%nat by (apply nth_error_Some; congruence).
    unfold lo, hi. lia. }
  assert (Running lo hi (log (store rt)) rt []) as Hrun0.
  { constructor.
    - exact Hinv.
    - now rewrite app_nil_r.
    - constructor.
    - intros job Hj. exfalso.
      assert (In job (unsettled (world rt))) as H
          by (unfold unsettled; apply in_app_iff; now left).
      rewrite Hidle in H. destruct H.
    - intros job Hj. rewrite Hidle in Hj. destruct Hj. }
  destruct (submitAll_runs lo hi (log (store rt)) J rt [] Hrun0 Hrange)
    as [body1 [Hrun1 Hu1]].
  rewrite Hidle in Hu1. cbn [app] in Hu1.
  assert (List.length J = List.length urls) as HlenJ.
  { unfold J. rewrite <- (jobs_from_urls urls startIndex 0) at 2.
    now rewrite length_map. }
  destruct (awaitAll_runs lo hi (log (store rt)) J
              (fun i job H => proj1 (jobs_from_nth urls startIndex 0 i job H))
              (List.length urls) (map (fun _ => None) urls) (submitAll J rt) body1)
    as (results & rt' & body' & Ha & Hrun' & Hfin & HF & Hsd).
  - rewrite Hu1, HlenJ. lia.
  - exact Hrun1.
  - rewrite Hu1. apply jobs_from_NoDup.
  - intros job Hj. now rewrite Hu1 in Hj.
  - now rewrite length_map, HlenJ.
  - intros i job Hj. left. split; [now rewrite Hu1; eapply nth_error_In; eauto|].
    rewrite nth_error_map.
    pose proof (jobs_from_nth _ _ _ _ _ Hj) as (_ & _ & Hu). now rewrite Hu.
  - exists results, rt', body'.
    split; [unfold processUrlBatch; cbv zeta; fold J; now rewrite Ha|].
    split; [split; [exact (run_inv _ _ _ _ _ Hrun') | exact Hfin]|].
    split.
    { rewrite <- (jobs_from_urls urls startIndex 0). fold J.
      clear -HF. induction HF; simpl; congruence. }
    split; [exact (run_log _ _ _ _ _ Hrun')|].
    split; [exact (run_events _ _ _ _ _ Hrun') | exact Hsd].
Qed.
End BatchFacts.

(** ** The batch loop *)

Section RunBatchesFacts.
Variable CONFIG : Config.
Variable env : Env.
Variable L : Z.
Hypothesis L_positive : 1 <= L.
Hypothesis BATCH_SIZE_positive : 1 <= BATCH_SIZE CONFIG.

Variable urls : list string.

Local Abbreviation B := (BATCH_SIZE CONFIG).
Local Abbreviation n := (Z.of_nat (List.length urls)).
Local Abbreviation batches := (Js.ceilDiv n B).

Lemma ceilDiv_bounds (a b : Z) :
  1 <= b -> (Js.ceilDiv a b - 1) * b < a <= Js.ceilDiv a b * b.
Proof.
  intros Hb. unfold Js.ceilDiv.
  pose proof (Z.div_mod (- a) b ltac:(lia)) as Hdm.
  pose proof (Z.mod_pos_bound (- a) b ltac:(lia)) as Hmod.
  nia.
Qed.

Lemma batches_bounds : (batches - 1) * B < n <= batches * B.
Proof. apply ceilDiv_bounds. exact BATCH_SIZE_positive. Qed.

Lemma batches_nonneg : 0 <= batches.
Proof. pose proof batches_bounds. nia. Qed.

(** The slice taken for batch [i]. *)
Lemma slice_batch (i : Z) :
  0 <= i < batches ->
  Js.slice urls (i * B) (Z.min (i * B + B) n)
  = firstn (Z.to_nat B) (skipn (Z.to_nat (i * B)) urls).
Proof.
  intros Hi. pose proof batches_bounds as Hb.
  assert (0 <= i * B < n) as Hs by nia.
  unfold Js.slice, Js.sliceIndex.
  destruct (Z.ltb_spec (i * B) 0) as [|_]; [lia|].
  destruct (Z.ltb_spec (Z.min (i * B + B) n) 0) as [|_]; [lia|].
  rewrite !Z.min_l by lia. rewrite (Z.min_l (i * B) n) by lia.
  set (rest := skipn (Z.to_nat (i * B)) urls).
  assert (List.length rest = Z.to_nat (n - i * B)) as Hlen.
  { unfold rest. rewrite length_skipn. lia. }
  destruct (Z.le_gt_cases (i * B + B) n) as [Hle|Hgt].
  - rewrite Z.min_l by lia. f_equal. lia.
  - rewrite Z.min_r by lia.
    rewrite !firstn_all2; [reflexivity | lia | lia].
Qed.

Lemma length_slice_batch (i : Z) :
  0 <= i < batches ->
  Z.of_nat (List.length (Js.slice urls (i * B) (Z.min (i * B + B) n)))
  = Z.min (i * B + B) n - i * B.
Proof.
  intros Hi. pose proof batches_bounds as Hb.
  assert (0 <= i * B < n) as Hs by nia.
  rewrite slice_batch by exact Hi.
  rewrite length_firstn, length_skipn. lia.
Qed.

Lemma nth_error_slice_batch (i : Z) (j : nat) :
  0 <= i < batches ->
  (j < List.length (Js.slice urls (i * B) (Z.min (i * B + B) n)))%nat ->
  nth_error (Js.slice urls (i * B) (Z.min (i * B + B) n)) j
  = nth_error urls (Z.to_nat (i * B) + j).
Proof.
  intros Hi Hj. pose proof (length_slice_batch i Hi) as Hlen.
  rewrite slice_batch in * by exact Hi.
  rewrite nth_error_firstn, nth_error_skipn.
  destruct (Nat.ltb_spec j (Z.to_nat B)) as [|Hge]; [reflexivity|].
  rewrite length_firstn in Hj. lia.
Qed.

(** The pause that follows batch [i]. *)
Definition pause (i : Z) : list Event :=
  if i <? batches - 1
  then [EvDelay BatchPause (inject_Z (DELAY_BETWEEN_REQUESTS CONFIG * 2))]
  else [].

(** What batch [i] adds to the log: its banner, the events of its units,
    and the pause. *)
Definition segment (p : Z * list Event) : list Event :=
  EvBatch (fst p) (fst p * B) (Z.min (fst p * B + B) n) :: snd p ++ pause (fst p).

(** The events of the units of batch [i]: nothing of another batch, and
    every unit of the batch started and done. *)
Definition batch_body (i : Z) (body : list Event) : Prop :=
  Forall (batch_event (i * B) (Z.min (i * B + B) n)) body
  /\ forall g,
      i * B < g <= Z.min (i * B + B) n ->
      exists url,
        nth_error urls (Z.to_nat (g - 1)) = Some url
        /\ done_after_start g url body.

Lemma idle_in_store (rt : Runtime) (m : M unit) : idle L rt -> idle L (in_store rt m).
Proof. intros H. exact H. Qed.

Lemma processUrlBatch_body (i : Z) (rt : Runtime) :
  0 <= i < batches ->
  idle L rt ->
  exists results rt' body,
    processUrlBatch CONFIG env (Js.slice urls (i * B) (Z.min (i * B + B) n))
      (i * B) n rt
    = Some (Ok results, rt')
    /\ idle L rt'
    /\ map o_url results = firstn (Z.to_nat B) (skipn (Z.to_nat (i * B)) urls)
    /\ log (store rt') = log (store rt) ++ body
    /\ batch_body i body.
Proof.
  intros Hi Hidle.
  set (batch := Js.slice urls (i * B) (Z.min (i * B + B) n)).
  destruct (processUrlBatch_runs CONFIG env L L_positive batch (i * B) n rt Hidle)
    as (results & rt' & body & Hp & Hidle' & Hurls & Hlog & Hev & Hsd).
  exists results, rt', body.
  pose proof (length_slice_batch i Hi) as Hlen. fold batch in Hlen.
  split; [exact Hp|]. split; [exact Hidle'|].
  split; [rewrite Hurls; apply slice_batch; exact Hi|].
  split; [exact Hlog|]. split.
  - replace (Z.min (i * B + B) n) with (i * B + Z.of_nat (List.length batch)) by lia.
    exact Hev.
  - intros g Hg. pose proof batches_bounds as Hb.
    set (j := Z.to_nat (g - 1 - i * B)).
    assert (j < List.length batch)%nat as Hj by lia.
    destruct (nth_error (jobs_from batch (i * B) 0) j) as [job|] eqn:Ej.
    + pose proof (jobs_from_nth _ _ _ _ _ Ej) as (_ & Hgi & Hu).
      exists (job_url job). split.
      * unfold batch in Hu. rewrite nth_error_slice_batch in Hu by assumption.
        rewrite <- Hu. f_equal. lia.
      * replace g with (job_globalIndex job) by lia.
        apply Hsd. eapply nth_error_In. exact Ej.
    + apply nth_error_None in Ej.
      rewrite <- (jobs_from_urls batch (i * B) 0), length_map in Hj. lia.
Qed.

Lemma forBatches_runs (m : nat) :
  forall (k : nat) (results0 : list Outcome) (rt : Runtime),
    Z.of_nat (k + m) = batches ->
    idle L rt ->
    exists results rt' bodies,
      forBatches CONFIG env (map Z.of_nat (seq k m)) batches urls results0 rt
      = Some (Ok (results0 ++ results), rt')
      /\ idle L rt'
      /\ map o_url results = skipn (Z.to_nat (Z.of_nat k * B)) urls
      /\ Forall2 batch_body (map Z.of_nat (seq k m)) bodies
      /\ log (store rt')
         = log (store rt)
           ++ List.concat (map segment (combine (map Z.of_nat (seq k m)) bodies)).
Proof.
  pose proof batches_bounds as Hb.
  induction m as [|m IH]; intros k results0 rt Hk Hidle.
  - exists [], rt, []. cbn. rewrite !app_nil_r.
    split; [reflexivity|]. split; [exact Hidle|].
    split; [|split; [constructor | reflexivity]].
    symmetry. apply skipn_all2. nia.
  - set (i := Z.of_nat k). assert (0 <= i < batches) as Hi by lia.
    cbn [seq map forBatches].
    set (rt1 := in_store rt (emit (EvBatch i (i * B) (Z.min (i * B + B) n)))).
    destruct (processUrlBatch_body i rt1 Hi (idle_in_store rt _ Hidle))
      as (r1 & rt2 & body & Hp & Hidle2 & Hurls1 & Hlog2 & Hbody).
    fold i. fold rt1. rewrite Hp.
    set (rt3 := if i <? batches - 1
                then in_store rt2 (delay BatchPause
                                     (inject_Z (DELAY_BETWEEN_REQUESTS CONFIG * 2)))
                else rt2).
    assert (idle L rt3) as Hidle3 by (unfold rt3; destruct (i <? batches - 1); exact Hidle2).
    assert (log (store rt3) = log (store rt2) ++ pause i) as Hlog3.
    { unfold rt3, pause. destruct (i <? batches - 1); cbn; [reflexivity|].
      now rewrite app_nil_r. }
    destruct (IH (S k) (results0 ++ r1) rt3 ltac:(lia) Hidle3)
      as (r2 & rt' & bodies & Hf & Hidle' & Hurls2 & Hbodies & Hlog').
    exists (r1 ++ r2), rt', (body :: bodies).
    split; [rewrite Hf, <- app_assoc; reflexivity|].
    split; [exact Hidle'|]. split; [|split].
    + rewrite map_app, Hurls1, Hurls2.
      replace (Z.to_nat (Z.of_nat (S k) * B)) with (Z.to_nat B + Z.to_nat (i * B))%nat
        by (unfold i; nia).
      rewrite <- skipn_skipn. apply firstn_skipn.
    + constructor; assumption.
    + rewrite Hlog', Hlog3, Hlog2. unfold rt1. cbn [in_store with_store store emit snd log].
      cbn [combine map List.concat]. fold i.
      change (segment (i, body))
        with (EvBatch i (i * B) (Z.min (i * B + B) n) :: body ++ pause i).
      cbn [app]. rewrite <- !app_assoc. reflexivity.
Qed.

(** The whole loop, from an idle limiter. *)
Lemma runBatches_runs (rt : Runtime) :
  idle L rt ->
  exists results rt' bodies,
    runBatches CONFIG env urls rt = Some (Ok results, rt')
    /\ idle L rt'
    /\ map o_url results = urls
    /\ Forall2 batch_body (range batches) bodies
    /\ log (store rt')
       = log (store rt) ++ List.concat (map segment (combine (range batches) bodies)).
Proof.
  intros Hidle. pose proof batches_nonneg as Hn.
  destruct (forBatches_runs (Z.to_nat batches) 0 [] rt ltac:(lia) Hidle)
    as (results & rt' & bodies & Hf & Hidle' & Hurls & Hbodies & Hlog).
  exists results, rt', bodies. unfold runBatches, range.
  split; [exact Hf|]. split; [exact Hidle'|].
  split; [exact Hurls|]. split; assumption.
Qed.
End RunBatchesFacts.

(** ** The run as a whole *)

Section ListSplits.
Context {A : Type}.

Lemma segments_in_order (segs : list (list A)) (i j : nat) (si sj : list A) :
  nth_error segs i = Some si ->
  nth_error segs j = Some sj ->
  (i < j)%nat ->
  exists a b c, List.concat segs = a ++ si ++ b ++ sj ++ c.
Proof.
  intros Hi Hj Hij.
  destruct (nth_error_split segs i Hi) as (l1 & l2 & -> & Hlen).
  rewrite nth_error_app2 in Hj by lia.
  replace (j - List.length l1)%nat with (S (j - i - 1)) in Hj by lia.
  cbn [nth_error] in Hj.
  destruct (nth_error_split l2 _ Hj) as (l3 & l4 & -> & _).
  exists (List.concat l1), (List.concat l3), (List.concat l4).
  rewrite concat_app. cbn [List.concat]. rewrite concat_app. reflexivity.
Qed.

Lemma Forall2_nth {B C} (P : A -> B -> Prop) (f : A * B -> C)
      (l1 : list A) (l2 : list B) :
  Forall2 P l1 l2 ->
  forall i a,
    nth_error l1 i = Some a ->
    exists b, P a b /\ nth_error (map f (combine l1 l2)) i = Some (f (a, b)).
Proof.
  induction 1 as [|x y l1 l2 Hxy HF IH]; intros i a Hi.
  - destruct i; discriminate Hi.
  - destruct i as [|i]; cbn in *.
    + injection Hi as <-. now exists y.
    + now apply IH.
Qed.
End ListSplits.

Section RunClaims.
Variable CONFIG : Config.
Variable env : Env.

Local Abbreviation B := (BATCH_SIZE CONFIG).
Local Abbreviation D := (DELAY_BETWEEN_REQUESTS CONFIG).

Lemma idle_initially (st : Store) (t : nat) :
  idle (MAX_CONCURRENT_CHECKS CONFIG)
    {| store := st;
       world := ConcurrencyLimiter.initial (MAX_CONCURRENT_CHECKS CONFIG);
       ticks := t |}.
Proof. split; [apply Inv_initial | reflexivity]. Qed.

Lemma batch_of_index (g n b batches : Z) :
  1 <= b -> 0 < g <= n -> (batches - 1) * b < n <= batches * b ->
  let i := (g - 1) / b in
  0 <= i < batches /\ i * b < g <= Z.min (i * b + b) n.
Proof.
  intros Hb Hg Hn i.
  pose proof (Z.div_mod (g - 1) b ltac:(lia)) as Hdm.
  pose proof (Z.mod_pos_bound (g - 1) b ltac:(lia)) as Hmod.
  fold i in Hdm. split; nia.
Qed.

(** C9.  With a positive batch size (and a limiter that admits at
    least one unit), the loop of [main] over a list of [n] URLs runs
    [ceil(n / B)] batches; batch [i] takes the URLs at positions
    [i * B .. min(i * B + B, n) - 1], [B] of them except possibly fewer,
    but at least one, in the last batch.  The log of the run is, batch
    after batch, the banner of the batch, the events of its units only,
    all of them started and settled, and then a pause of
    [2 * DELAY_BETWEEN_REQUESTS], after every batch but the last.  In
    particular every unit of a batch has settled before any unit of a
    later batch is started. *)
Theorem batches_run_in_turn (urls : list string) (rt : Runtime) :
  1 <= BATCH_SIZE CONFIG ->
  1 <= MAX_CONCURRENT_CHECKS CONFIG ->
  world rt = ConcurrencyLimiter.initial (MAX_CONCURRENT_CHECKS CONFIG) ->
  let n := Z.of_nat (List.length urls) in
  let batches := Js.ceilDiv n B in
  (batches - 1) * B < n <= batches * B
  /\ (forall i, 0 <= i < batches ->
                let size := Z.min (i * B + B) n - i * B in
                1 <= size <= B /\ (i < batches - 1 -> size = B))
  /\ exists results rt' bodies,
      runBatches CONFIG env urls rt = Some (Ok results, rt')
      /\ Forall2
           (fun i body =>
              Forall (batch_event (i * B) (Z.min (i * B + B) n)) body
              /\ forall g,
                  i * B < g <= Z.min (i * B + B) n ->
                  exists url,
                    nth_error urls (Z.to_nat (g - 1)) = Some url
                    /\ done_after_start g url body)
           (range batches) bodies
      /\ log (store rt')
         = log (store rt)
           ++ List.concat
                (map (fun p : Z * list Event =>
                        EvBatch (fst p) (fst p * B) (Z.min (fst p * B + B) n)
                        :: snd p
                        ++ (if fst p <? batches - 1
                            then [EvDelay BatchPause (inject_Z (D * 2))]
                            else []))
                     (combine (range batches) bodies))
      /\ (forall g g',
             0 < g <= n -> 0 < g' <= n ->
             (g - 1) / B < (g' - 1) / B ->
             exists o url' x y z,
               log (store rt') = x ++ EvDone g o :: y ++ EvStart g' url' :: z).
Proof.
  intros HB HL Hworld n batches.
  pose proof (batches_bounds CONFIG HB urls) as Hb. fold n batches in Hb.
  split; [exact Hb|]. split.
  { intros i Hi size. unfold size. split; [nia|]. intros Hlast. nia. }
  assert (idle (MAX_CONCURRENT_CHECKS CONFIG) rt) as Hidle.
  { unfold idle. rewrite Hworld. split; [apply Inv_initial | reflexivity]. }
  destruct (runBatches_runs CONFIG env _ HL HB urls rt Hidle)
    as (results & rt' & bodies & Hrun & _ & _ & Hbodies & Hlog).
  exists results, rt', bodies.
  split; [exact Hrun|]. split; [exact Hbodies|]. split; [exact Hlog|].
  intros g g' Hg Hg' Hlt.
  destruct (batch_of_index g n B batches HB Hg Hb) as [Hi Hgi].
  destruct (batch_of_index g' n B batches HB Hg' Hb) as [Hj Hgj].
  set (i := (g - 1) / B) in *. set (j := (g' - 1) / B) in *.
  assert (forall k, 0 <= k < batches ->
                    nth_error (range batches) (Z.to_nat k) = Some k) as Hrange.
  { intros k Hk. unfold range. rewrite nth_error_map, nth_error_seq.
    destruct (Nat.ltb_spec (Z.to_nat k) (Z.to_nat batches)) as [_|]; [|lia].
    cbn. f_equal. lia. }
  destruct (Forall2_nth _ (segment CONFIG urls) _ _ Hbodies _ _ (Hrange i Hi))
    as (bi & [_ Hbi] & Hsi).
  destruct (Forall2_nth _ (segment CONFIG urls) _ _ Hbodies _ _ (Hrange j Hj))
    as (bj & [_ Hbj] & Hsj).
  destruct (segments_in_order _ _ _ _ _ Hsi Hsj ltac:(lia)) as (a & b & c & Hcat).
  destruct (Hbi g Hgi) as (url & _ & pre & o & post & -> & _ & _).
  destruct (Hbj g' Hgj) as (url' & _ & pre' & o' & post' & -> & Hstart & _).
  destruct (in_split _ _ Hstart) as (p1 & p2 & ->).
  exists o, url'.
  exists (log (store rt) ++ a ++ EvBatch i (i * B) (Z.min (i * B + B) n) :: pre).
  exists (post ++ pause CONFIG urls i ++ b
          ++ EvBatch j (j * B) (Z.min (j * B + B) n) :: p1).
  exists (p2 ++ EvDone g' o' :: post' ++ pause CONFIG urls j ++ c).
  rewrite Hlog. fold (segment CONFIG urls). unfold batches, n. rewrite Hcat.
  unfold segment. cbn [fst snd].
  repeat (rewrite <- app_assoc; cbn [app]). reflexivity.
Qed.
End RunClaims.

Lemma batches_run_in_turn_witness :
  let env := env_where_checks clean_page in
  let urls := ["https://x/1"; "https://x/2"; "https://x/3"; "https://x/4";
               "https://x/5"; "https://x/6"; "https://x/7"]%string in
  let rt := initialRuntime CONFIG_default in
  1 <= BATCH_SIZE CONFIG_default
  /\ 1 <= MAX_CONCURRENT_CHECKS CONFIG_default
  /\ world rt = ConcurrencyLimiter.initial (MAX_CONCURRENT_CHECKS CONFIG_default)
  /\ Js.ceilDiv 7 (BATCH_SIZE CONFIG_default) = 3
  /\ map (fun i => Z.min (i * 3 + 3) 7 - i * 3) (range 3) = [3; 3; 1]
  /\ exists results rt',
      runBatches CONFIG_default env urls rt = Some (Ok results, rt')
      /\ exists o url' x y z,
          log (store rt') = x ++ EvDone 3 o :: y ++ EvStart 4 url' :: z.
Proof.
  intros env urls rt.
  assert (1 <= BATCH_SIZE CONFIG_default) as H1 by (simpl; lia).
  assert (1 <= MAX_CONCURRENT_CHECKS CONFIG_default) as H2 by (simpl; lia).
  assert (world rt = ConcurrencyLimiter.initial (MAX_CONCURRENT_CHECKS CONFIG_default))
    as H3 by reflexivity.
  split; [exact H1|]. split; [exact H2|]. split; [exact H3|].
  split; [reflexivity|]. split; [reflexivity|].
  destruct (batches_run_in_turn CONFIG_default env urls rt H1 H2 H3)
    as (_ & _ & results & rt' & bodies & Hrun & _ & _ & Horder).
  exists results, rt'. split; [exact Hrun|].
  apply (Horder 3 4); [simpl; lia | simpl; lia | reflexivity].
Defined.

Section WholeRun.
Variable CONFIG : Config.
Variable env : Env.

(** C1.  With a positive batch size and a limiter that admits at least
    one unit, [main] comes to an end.  The URLs discovered by
    [getAllUrls] are pairwise distinct; when there is none the process
    exits with status 1, and otherwise the report is written from a list
    of outcomes whose URLs are, in order, exactly the discovered URLs:
    one Outcome for each URL, none left out and none twice, whatever the
    checks did. *)
Theorem one_outcome_per_url (sitemapUrl : string) :
  1 <= BATCH_SIZE CONFIG ->
  1 <= MAX_CONCURRENT_CHECKS CONFIG ->
  exists urls st,
    getAllUrls env sitemapUrl emptyStore = (Ok urls, st)
    /\ NoDup urls
    /\ ((urls = []
         /\ exists rt',
             main CONFIG env sitemapUrl (initialRuntime CONFIG) = Some (Exited 1, rt'))
        \/ (urls <> []
            /\ exists results rt',
                main CONFIG env sitemapUrl (initialRuntime CONFIG)
                = Some (Reported urls results, rt')
                /\ map o_url results = urls
                /\ List.length results = List.length urls
                /\ NoDup (map o_url results))).
Proof.
  intros HB HL.
  destruct (getAllUrls_distinct env sitemapUrl emptyStore)
    as (urls & st & Hget & Hnd).
  exists urls, st. split; [exact Hget|]. split; [exact Hnd|].
  unfold main. cbn [initialRuntime store world ticks]. rewrite Hget.
  destruct urls as [|u rest].
  - left. split; [reflexivity|]. eexists. reflexivity.
  - right. split; [discriminate|].
    replace (Z.of_nat (List.length (u :: rest)) =? 0) with false
      by (symmetry; apply Z.eqb_neq; simpl List.length; lia).
    destruct (runBatches_runs CONFIG env _ HL HB (u :: rest) _ (idle_initially CONFIG st 0))
      as (results & rt' & bodies & Hrun & _ & Hurls & _ & _).
    rewrite Hrun.
    rewrite (cleanup_runs env (store rt')).
    do 2 eexists. split; [reflexivity|]. split; [exact Hurls|].
    split; [|rewrite Hurls; exact Hnd].
    rewrite <- Hurls. now rewrite length_map.
Qed.
End WholeRun.

Lemma one_outcome_per_url_witness :
  let env := env_of_site two_children in
  1 <= BATCH_SIZE CONFIG_default
  /\ 1 <= MAX_CONCURRENT_CHECKS CONFIG_default
  /\ exists results rt',
      main CONFIG_default env "https://x/sitemap_index.xml"
        (initialRuntime CONFIG_default)
      = Some (Reported ["https://x/1"; "https://x/2"; "https://x/3";
                        "https://x/4"; "https://x/5"]%string results, rt')
      /\ map o_url results
         = ["https://x/1"; "https://x/2"; "https://x/3"; "https://x/4"; "https://x/5"]%string.
Proof.
  intros env.
  assert (1 <= BATCH_SIZE CONFIG_default) as H1 by (simpl; lia).
  assert (1 <= MAX_CONCURRENT_CHECKS CONFIG_default) as H2 by (simpl; lia).
  split; [exact H1|]. split; [exact H2|].
  destruct (one_outcome_per_url CONFIG_default env "https://x/sitemap_index.xml" H1 H2)
    as (urls & st & Hget & _ & [[-> _]|[_ (results & rt' & Hmain & Hurls & _)]]).
  - discriminate Hget.
  - assert (urls = ["https://x/1"; "https://x/2"; "https://x/3";
                    "https://x/4"; "https://x/5"]%string) as ->.
    { pose proof two_children_collected as Hc. unfold env in Hget.
      rewrite Hget in Hc. cbn [fst] in Hc. now injection Hc. }
    exists results, rt'. split; [exact Hmain | exact Hurls].
Defined.

(** * Further properties of the code *)

(** ** [escapeHtml] *)

Section EscapeHtmlFacts.
Local Open Scope string_scope.

(** The five characters the pattern matches. *)
Definition special (c : ascii) : Prop :=
  c = "&"%char \/ c = "<"%char \/ c = ">"%char \/ c = "034"%char \/ c = "'"%char.

Ltac split_chars :=
  repeat match goal with
         | |- context [Ascii.eqb ?a ?b] => destruct (Ascii.eqb_spec a b)
         | H : context [Ascii.eqb ?a ?b] |- _ => destruct (Ascii.eqb_spec a b)
         end.

Lemma escapeChar_other (c : ascii) : ~ special c -> escapeChar c = String c "".
Proof.
  unfold special, escapeChar. intros H. split_chars; subst; tauto.
Qed.

Lemma escapeChar_special (c : ascii) :
  special c ->
  exists name, escapeChar c = String "&" name /\ (4 <= String.length (escapeChar c))%nat.
Proof.
  unfold special. intros [-> | [-> | [-> | [-> | ->]]]]; eexists; split;
    try reflexivity; simpl; lia.
Qed.

Lemma special_dec (c : ascii) : special c \/ ~ special c.
Proof.
  unfold special.
  destruct (Ascii.eqb_spec c "&"); [tauto|].
  destruct (Ascii.eqb_spec c "<"); [tauto|].
  destruct (Ascii.eqb_spec c ">"); [tauto|].
  destruct (Ascii.eqb_spec c "034"); [tauto|].
  destruct (Ascii.eqb_spec c "'"); tauto.
Qed.

Lemma list_ascii_of_string_app (a b : string) :
  list_ascii_of_string (a ++ b) = (list_ascii_of_string a ++ list_ascii_of_string b)%list.
Proof. induction a as [|c a IH]; simpl; [reflexivity | now rewrite IH]. Qed.

Lemma length_append (a b : string) :
  String.length (a ++ b) = (String.length a + String.length b)%nat.
Proof. induction a as [|c a IH]; simpl; [reflexivity | now rewrite IH]. Qed.

Lemma escapeChar_safe (c d : ascii) :
  In d (list_ascii_of_string (escapeChar c)) ->
  d <> "<"%char /\ d <> ">"%char /\ d <> "034"%char /\ d <> "'"%char.
Proof.
  destruct (special_dec c) as [Hs|Hn].
  - destruct Hs as [-> | [-> | [-> | [-> | ->]]]]; simpl; intros H;
      repeat (destruct H as [<-|H]; [repeat split; discriminate|]); destruct H.
  - rewrite (escapeChar_other c Hn). simpl. intros [<-|[]].
    unfold special in Hn. repeat split; intros ->; tauto.
Qed.

(** X1.  Whatever the text, the escaped text has no less-than sign, no
    greater-than sign, no double quote and no apostrophe. *)
Theorem escapeHtml_no_markup (text : string) (c : ascii) :
  In c (list_ascii_of_string (escapeHtml text)) ->
  c <> "<"%char /\ c <> ">"%char /\ c <> "034"%char /\ c <> "'"%char.
Proof.
  induction text as [|c0 rest IH]; simpl.
  - intros [].
  - rewrite list_ascii_of_string_app, in_app_iff. intros [H|H].
    + exact (escapeChar_safe c0 c H).
    + exact (IH H).
Qed.

Lemma escapeChar_prefix_free (c d : ascii) (x y : string) :
  escapeChar c ++ x = escapeChar d ++ y -> c = d /\ x = y.
Proof.
  destruct (special_dec c) as [Hc|Hc]; destruct (special_dec d) as [Hd|Hd].
  - destruct Hc as [-> | [-> | [-> | [-> | ->]]]]; destruct Hd as [-> | [-> | [-> | [-> | ->]]]];
      simpl; intros H; try discriminate H; split; congruence.
  - rewrite (escapeChar_other d Hd).
    destruct Hc as [-> | [-> | [-> | [-> | ->]]]]; simpl; intros H;
      injection H as H _; subst d; exfalso; apply Hd; unfold special; tauto.
  - rewrite (escapeChar_other c Hc).
    destruct Hd as [-> | [-> | [-> | [-> | ->]]]]; simpl; intros H;
      injection H as H _; subst c; exfalso; apply Hc; unfold special; tauto.
  - rewrite (escapeChar_other c Hc), (escapeChar_other d Hd). simpl.
    intros H. injection H as -> ->. auto.
Qed.

(** X2.  Escaping loses nothing: two texts with the same escaped form are
    the same text. *)
Theorem escapeHtml_injective (a b : string) :
  escapeHtml a = escapeHtml b -> a = b.
Proof.
  revert b. induction a as [|c a IH]; intros [|d b] H; simpl in H.
  - reflexivity.
  - exfalso. destruct (special_dec d) as [Hd|Hd].
    + destruct (escapeChar_special d Hd) as (name & Hn & _). rewrite Hn in H.
      discriminate H.
    + rewrite (escapeChar_other d Hd) in H. discriminate H.
  - exfalso. destruct (special_dec c) as [Hc|Hc].
    + destruct (escapeChar_special c Hc) as (name & Hn & _). rewrite Hn in H.
      discriminate H.
    + rewrite (escapeChar_other c Hc) in H. discriminate H.
  - apply escapeChar_prefix_free in H. destruct H as [-> H].
    f_equal. now apply IH.
Qed.

Lemma escapeHtml_grows (text : string) :
  (String.length text <= String.length (escapeHtml text))%nat.
Proof.
  induction text as [|c rest IH]; simpl; [lia|].
  rewrite length_append.
  destruct (special_dec c) as [Hc|Hc].
  - destruct (escapeChar_special c Hc) as (_ & _ & Hlen). lia.
  - rewrite (escapeChar_other c Hc). simpl. lia.
Qed.

(** X3.  Escaping a concatenation is concatenating the escaped parts, and
    a text is left as it is exactly when it has none of the five
    characters. *)
Theorem escapeHtml_pieces_and_fixpoints :
  (forall a b, escapeHtml (a ++ b) = escapeHtml a ++ escapeHtml b)
  /\ (forall text,
         escapeHtml text = text
         <-> forall c, In c (list_ascii_of_string text) -> ~ special c).
Proof.
  split.
  - intros a b. induction a as [|c a IH]; simpl; [reflexivity|].
    now rewrite IH, append_assoc.
  - induction text as [|c rest IH]; simpl.
    + split; [intros _ d [] | reflexivity].
    + destruct (special_dec c) as [Hc|Hc].
      * split.
        -- intros H. exfalso.
           apply (f_equal String.length) in H. rewrite length_append in H.
           destruct (escapeChar_special c Hc) as (_ & _ & Hlen).
           pose proof (escapeHtml_grows rest). simpl in H. lia.
        -- intros H. exfalso. apply (H c); auto.
      * rewrite (escapeChar_other c Hc). simpl. split.
        -- intros H. injection H as H. intros d [<-|Hd]; [exact Hc|].
           now apply IH.
        -- intros H. f_equal. apply IH. intros d Hd. apply H. now right.
Qed.

Lemma escapeHtml_no_markup_witness :
  In "&"%char (list_ascii_of_string (escapeHtml "<a href='x'>"))
  /\ "&"%char <> "<"%char.
Proof.
  assert (In "&"%char (list_ascii_of_string (escapeHtml "<a href='x'>"))) as H
    by (simpl; auto).
  split; [exact H|].
  exact (proj1 (escapeHtml_no_markup "<a href='x'>" "&" H)).
Defined.

Lemma escapeHtml_injective_witness :
  escapeHtml "a<b" = escapeHtml ("a" ++ "<b") /\ "a<b" = "a" ++ "<b".
Proof.
  assert (escapeHtml "a<b" = escapeHtml ("a" ++ "<b")) as H by reflexivity.
  split; [exact H|].
  exact (escapeHtml_injective "a<b" ("a" ++ "<b") H).
Defined.

Lemma escapeHtml_pieces_and_fixpoints_witness :
  (forall c, In c (list_ascii_of_string "Home page") -> ~ special c)
  /\ escapeHtml "Home page" = "Home page".
Proof.
  assert (forall c, In c (list_ascii_of_string "Home page") -> ~ special c) as H.
  { intros c Hc. unfold special. simpl in Hc.
    repeat (destruct Hc as [<-|Hc];
            [intros [E|[E|[E|[E|E]]]]; discriminate E|]).
    destruct Hc. }
  split; [exact H|].
  exact (proj2 (proj2 escapeHtml_pieces_and_fixpoints "Home page") H).
Defined.
End EscapeHtmlFacts.

(** ** The figures of the report *)

Section ReportFacts.
Local Open Scope string_scope.

(** All the issues of a list of outcomes, and those of one type. *)
Definition all_issues (results : list Outcome) : list Issue :=
  flat_map o_issues results.

Definition of_type (t : string) (issues : list Issue) : list Issue :=
  filter (fun issue => String.eqb (issue_type issue) t) issues.

(** X4.  For every list of outcomes, the failed and the successful checks
    add up to the number of outcomes, and the retried checks are among
    them. *)
Theorem checks_add_up (results : list Outcome) :
  failedChecks results + successfulChecks results = Z.of_nat (List.length results)
  /\ 0 <= retriedChecks results <= Z.of_nat (List.length results).
Proof.
  unfold failedChecks, successfulChecks, retriedChecks. split.
  - induction results as [|r rest IH]; [reflexivity|].
    cbn [filter List.length]. destruct (o_status r); cbn [status_eqb List.length]; lia.
  - pose proof (filter_length_le (fun r => o_attempts r >? 1) results). lia.
Qed.

Lemma prop_get_set (o : Counters) (k k' : string) (v : Z) :
  prop_get (prop_set o k v) k' = if String.eqb k' k then Some v else prop_get o k'.
Proof.
  induction o as [|[k0 v0] rest IH]; cbn [prop_set prop_get].
  - reflexivity.
  - destruct (String.eqb_spec k k0) as [->|Hne]; cbn [prop_get].
    + destruct (String.eqb_spec k' k0); reflexivity.
    + rewrite IH. destruct (String.eqb_spec k' k0) as [->|]; [|reflexivity].
      destruct (String.eqb_spec k0 k); [congruence | reflexivity].
Qed.

Lemma count_issue_get (table : Counters) (issue : Issue) (t : string) :
  or_zero (prop_get (count_issue table issue) t)
  = or_zero (prop_get table t) + Z.of_nat (List.length (of_type t [issue])).
Proof.
  unfold count_issue. rewrite prop_get_set. cbn [of_type filter].
  rewrite (String.eqb_sym t). destruct (String.eqb_spec (issue_type issue) t) as [-> | ];
    cbn [or_zero List.length]; lia.
Qed.

Lemma count_issues_get (results : list Outcome) (table : Counters) (t : string) :
  or_zero (prop_get (count_issues table results) t)
  = or_zero (prop_get table t)
    + Z.of_nat (List.length (of_type t (all_issues results))).
Proof.
  unfold count_issues, all_issues, of_type.
  revert table. induction results as [|r rest IH]; intros table; cbn [fold_left flat_map].
  - cbn. lia.
  - rewrite IH. rewrite filter_app, length_app.
    assert (forall issues tb,
               or_zero (prop_get (fold_left count_issue issues tb) t)
               = or_zero (prop_get tb t)
                 + Z.of_nat (List.length
                               (filter (fun i => String.eqb (issue_type i) t) issues)))
      as Hinner.
    { induction issues as [|i issues IHi]; intros tb; cbn [fold_left].
      - cbn. lia.
      - rewrite IHi, count_issue_get. cbn [of_type filter].
        destruct (String.eqb (issue_type i) t); cbn [List.length]; lia. }
    rewrite Hinner. lia.
Qed.

Lemma totalIssues_length (results : list Outcome) :
  totalIssues results = Z.of_nat (List.length (all_issues results)).
Proof.
  unfold totalIssues, all_issues.
  assert (forall sum, fold_left (fun sum r => sum + Z.of_nat (List.length (o_issues r)))
                                results sum
                      = sum + Z.of_nat (List.length (flat_map o_issues results))) as H.
  { induction results as [|r rest IH]; intros sum; cbn [fold_left flat_map].
    - cbn. lia.
    - rewrite IH, length_app. lia. }
  rewrite H. lia.
Qed.

(** The three types pa11y gives an issue. *)
Definition pa11y_type (issue : Issue) : Prop :=
  issue_type issue = "error" \/ issue_type issue = "warning"
  \/ issue_type issue = "notice".

(** X5.  The total is the number of all issues of all outcomes.  When
    every issue has one of pa11y's three types, each of the counters the
    report and the summary read ([error], [warning], [notice]) is the number
    of issues of that type, a type never met reading as 0, and the total is
    the sum of the three. *)
Theorem counters_count_issues (results : list Outcome) :
  totalIssues results = Z.of_nat (List.length (all_issues results))
  /\ (Forall pa11y_type (all_issues results) ->
      (forall t,
          In t ["error"; "warning"; "notice"] ->
          or_zero (prop_get (issuesByType results) t)
          = Z.of_nat (List.length (of_type t (all_issues results)))
          /\ or_zero (prop_get (issueTypes results) t)
             = Z.of_nat (List.length (of_type t (all_issues results))))
      /\ totalIssues results
         = or_zero (prop_get (issuesByType results) "error")
           + or_zero (prop_get (issuesByType results) "warning")
           + or_zero (prop_get (issuesByType results) "notice")).
Proof.
  assert (forall t, or_zero (prop_get (issuesByType results) t)
                    = Z.of_nat (List.length (of_type t (all_issues results)))) as Hby.
  { intros t. unfold issuesByType. rewrite count_issues_get.
    cbn [prop_get]. destruct (String.eqb t "error"); [cbn; lia|].
    destruct (String.eqb t "warning"); [cbn; lia|].
    destruct (String.eqb t "notice"); cbn; lia. }
  split; [apply totalIssues_length|].
  intros Htypes. split.
  - intros t _. split; [apply Hby|].
    unfold issueTypes. rewrite count_issues_get. cbn. lia.
  - rewrite !Hby, totalIssues_length.
    unfold of_type.
    assert (List.length (all_issues results)
            = (List.length (filter (fun i => String.eqb (issue_type i) "error")
                                   (all_issues results))
               + List.length (filter (fun i => String.eqb (issue_type i) "warning")
                                     (all_issues results))
               + List.length (filter (fun i => String.eqb (issue_type i) "notice")
                                     (all_issues results)))%nat) as Hsum.
    { revert Htypes. generalize (all_issues results). intros l Hl.
      induction Hl as [|issue issues Ht _ IH]; [reflexivity|].
      cbn [filter]. destruct Ht as [Ht|[Ht|Ht]]; rewrite Ht; simpl; lia. }
    lia.
Qed.

Lemma counters_count_issues_witness :
  let issue := fun t => {| issue_type := t; issue_code := "c"; issue_message := "m";
                           issue_context := None; issue_selector := None |} in
  let page := fun issues => {| o_url := "u"; o_issues := issues; o_status := StatusSuccess;
                               o_error := None; o_documentTitle := "t"; o_attempts := 1;
                               o_isRetryable := None |} in
  let results := [page [issue "error"; issue "notice"]; page [issue "error"]] in
  Forall pa11y_type (all_issues results)
  /\ or_zero (prop_get (issuesByType results) "error") = 2
  /\ or_zero (prop_get (issueTypes results) "warning") = 0
  /\ totalIssues results = 3.
Proof.
  intros issue page results.
  assert (Forall pa11y_type (all_issues results)) as H.
  { unfold results, page, issue, all_issues, pa11y_type. cbn [flat_map o_issues app].
    repeat (constructor; [cbn [issue_type]; auto|]). constructor. }
  split; [exact H|].
  destruct (counters_count_issues results) as [Htotal Hcounters].
  destruct (Hcounters H) as [Hby _].
  split; [|split].
  - rewrite (proj1 (Hby "error" ltac:(simpl; auto))). reflexivity.
  - rewrite (proj2 (Hby "warning" ltac:(simpl; auto))). reflexivity.
  - rewrite Htotal. reflexivity.
Defined.
End ReportFacts.

(** ** What a run keeps true *)

(** The handles on which [close] was called, in order. *)
Definition closed_handles (events : list Event) : list Handle :=
  flat_map (fun e => match e with EvClose h _ => [h] | _ => [] end) events.

(** An event that is not a call of [close]. *)
Definition quiet (e : Event) : Prop :=
  match e with
  | EvClose _ _ => False
  | _ => True
  end.

Section RunFrame.
Variable CONFIG : Config.
Variable env : Env.

(** A property of outcomes and a property of the store that every unit
    establishes, respectively keeps, and that logging leaves alone. *)
Variable P : Outcome -> Prop.
Variable S : Store -> Prop.
Hypothesis S_logged : forall st evs, Forall quiet evs -> S st -> S (logged st evs).
Hypothesis job_keeps :
  forall job st r st',
    S st -> job_body CONFIG env job st = (r, st') ->
    S st' /\ forall o, r = Ok o -> P o.

Lemma S_emit (e : Event) (st : Store) : quiet e -> S st -> S (snd (emit e st)).
Proof.
  intros He Hs. change (snd (emit e st)) with (logged st [e]).
  apply S_logged; [repeat constructor; exact He | exact Hs].
Qed.

Lemma S_on_launch (launched : option Job) (st : Store) :
  S st -> S (snd (on_launch launched st)).
Proof.
  intros Hs. destruct launched as [job|]; [|exact Hs].
  apply S_emit; [exact I | exact Hs].
Qed.

Lemma submitAll_keeps (jobs : list Job) (rt : Runtime) :
  S (store rt) -> S (store (submitAll jobs rt)).
Proof.
  revert rt. induction jobs as [|job rest IH]; intros rt Hs; cbn [submitAll].
  - exact Hs.
  - destruct (ConcurrencyLimiter.submit (world rt) job) as [w launched].
    apply IH. cbn [store]. unfold with_store. now apply S_on_launch.
Qed.

Lemma allSettled_Forall (slots : list (option Outcome)) (results : list Outcome) :
  Forall (fun s => forall o, s = Some o -> P o) slots ->
  allSettled slots = Some results ->
  Forall P results.
Proof.
  revert results. induction slots as [|s slots IH]; intros results Hs Ha; cbn in Ha.
  - injection Ha as <-. constructor.
  - destruct s as [o|]; [|discriminate].
    destruct (allSettled slots) as [l|]; [|discriminate]. injection Ha as <-.
    inversion Hs as [|? ? Ho Hrest]; subst. constructor; [now apply Ho | now apply IH].
Qed.

Lemma set_slot_Forall (slots : list (option Outcome)) (i : nat) (o : Outcome) :
  P o ->
  Forall (fun s => forall o, s = Some o -> P o) slots ->
  Forall (fun s => forall o, s = Some o -> P o) (set_slot slots i o).
Proof.
  intros Ho. revert i. induction slots as [|s slots IH]; intros i Hs; cbn.
  - destruct i; constructor.
  - inversion Hs as [|? ? Hs0 Hrest]; subst. destruct i as [|i].
    + constructor; [|exact Hrest]. intros o' H. injection H as <-. exact Ho.
    + constructor; [exact Hs0 | now apply IH].
Qed.

Lemma awaitAll_keeps (budget : nat) :
  forall slots rt res rt',
    S (store rt) ->
    Forall (fun s => forall o, s = Some o -> P o) slots ->
    awaitAll CONFIG env budget slots rt = Some (res, rt') ->
    S (store rt') /\ forall results, res = Ok results -> Forall P results.
Proof.
  induction budget as [|budget IH]; intros slots rt res rt' Hs Hslots Ha;
    cbn [awaitAll] in Ha;
    destruct (ConcurrencyLimiter.inflight (world rt)) as [|j0 fl] eqn:Hfl.
  - destruct (ConcurrencyLimiter.queue (ConcurrencyLimiter.lim (world rt))); [|discriminate].
    destruct (allSettled slots) as [l|] eqn:El; [|discriminate].
    injection Ha as <- <-. split; [exact Hs|].
    intros results H. injection H as <-. eapply allSettled_Forall; eauto.
  - discriminate.
  - destruct (ConcurrencyLimiter.queue (ConcurrencyLimiter.lim (world rt))); [|discriminate].
    destruct (allSettled slots) as [l|] eqn:El; [|discriminate].
    injection Ha as <- <-. split; [exact Hs|].
    intros results H. injection H as <-. eapply allSettled_Forall; eauto.
  - destruct (nth_error (j0 :: fl) _) as [job|]; [|discriminate].
    destruct (ConcurrencyLimiter.settle (world rt) _) as [[w' launched]|]; [|discriminate].
    destruct (job_body CONFIG env job (store rt)) as [r st] eqn:Ej.
    destruct (job_keeps job (store rt) r st Hs Ej) as [Hst Hr].
    destruct r as [result|e].
    + apply IH in Ha; [exact Ha | |].
      * cbn [store]. apply S_on_launch, S_emit; [exact I | exact Hst].
      * apply set_slot_Forall; [now apply Hr | exact Hslots].
    + injection Ha as <- <-. split; [|intros results H; discriminate H].
      cbn [store]. now apply S_on_launch.
Qed.

Lemma processUrlBatch_keeps (urls : list string) (startIndex totalUrls : Z)
      (rt : Runtime) res rt' :
  S (store rt) ->
  processUrlBatch CONFIG env urls startIndex totalUrls rt = Some (res, rt') ->
  S (store rt') /\ forall results, res = Ok results -> Forall P results.
Proof.
  intros Hs Hp. unfold processUrlBatch in Hp. cbv zeta in Hp.
  destruct (awaitAll CONFIG env (List.length urls) (map (fun _ => None) urls)
              (submitAll (jobs_from urls startIndex 0) rt))
    as [[r rt1]|] eqn:Ea; [|discriminate].
  apply awaitAll_keeps in Ea.
  - destruct Ea as [Hs1 Hr]. destruct r as [batchResults|e]; injection Hp as <- <-.
    + split; [exact Hs1|]. intros results H. injection H as <-. now apply Hr.
    + split; [exact Hs1|]. intros results H. discriminate H.
  - now apply submitAll_keeps.
  - clear. induction urls; constructor; [discriminate | assumption].
Qed.

Lemma forBatches_keeps (indices : list Z) (batches : Z) (urls : list string) :
  forall results0 rt res rt',
    S (store rt) -> Forall P results0 ->
    forBatches CONFIG env indices batches urls results0 rt = Some (res, rt') ->
    S (store rt') /\ forall results, res = Ok results -> Forall P results.
Proof.
  induction indices as [|i rest IH]; intros results0 rt res rt' Hs H0 Hf;
    cbn [forBatches] in Hf.
  - injection Hf as <- <-. split; [exact Hs|]. intros results H. now injection H as <-.
  - match type of Hf with
    | context [processUrlBatch ?c ?e ?b ?s ?t ?r] =>
        destruct (processUrlBatch c e b s t r) as [[r1 rt1]|] eqn:Ep; [|discriminate]
    end.
    apply processUrlBatch_keeps in Ep.
    + destruct Ep as [Hs1 Hr1]. destruct r1 as [batchResults|e].
      * apply IH in Hf; [exact Hf | |].
        -- destruct (i <? batches - 1); [|exact Hs1].
           cbn [in_store store]. unfold with_store. apply S_emit; [exact I | exact Hs1].
        -- apply Forall_app. split; [exact H0 | now apply Hr1].
      * injection Hf as <- <-. split; [exact Hs1|]. intros results H. discriminate H.
    + cbn [in_store store]. unfold with_store. apply S_emit; [exact I | exact Hs].
Qed.

Lemma runBatches_keeps (urls : list string) (rt : Runtime) res rt' :
  S (store rt) ->
  runBatches CONFIG env urls rt = Some (res, rt') ->
  S (store rt') /\ forall results, res = Ok results -> Forall P results.
Proof.
  intros Hs Hr. unfold runBatches in Hr.
  eapply forBatches_keeps in Hr; [exact Hr | exact Hs | constructor].
Qed.
End RunFrame.

(** ** [fetchXML] *)

Section FetchFacts.
Variable env : Env.

(** What [fetchXML] logs when its first [k] tries, numbered from [a], throw:
    each failed request is followed by a wait of [1000 * (attempt + 1)]
    milliseconds, then comes one more request. *)
Definition fetch_events (url : string) (a k : nat) : list Event :=
  flat_map (fun j => [EvRequest url;
                      EvDelay FetchRetry (inject_Z (1000 * (Z.of_nat j + 1)))])
           (seq a k)
  ++ [EvRequest url].

Definition after_requests (st : Store) (k : nat) (evs : list Event) : Store :=
  {| browserInstances := browserInstances st;
     requests := requests st + k;
     log := log st ++ evs |}.

Definition throws (n : nat) (url : string) : Prop :=
  exists e, http env n url = Failed e.

Lemma fetchXML_loop_decided (url : string) (retries : nat) (k : nat) :
  forall (left : nat) (st : Store) (d : option XmlDoc),
    (left <= retries)%nat -> (k <= left)%nat ->
    (forall j, (j < k)%nat -> throws (requests st + j) url) ->
    http env (requests st + k) url = Parsed d ->
    fetchXML_loop env url retries left st
    = (Ok d, after_requests st (S k) (fetch_events url (retries - left) k)).
Proof.
  induction k as [|k IH]; intros left st d Hl Hk Hfail Hok.
  - rewrite Nat.add_0_r in Hok.
    destruct left; cbn [fetchXML_loop]; unfold tryCatch, axios_get_and_parse;
      rewrite Hok; unfold after_requests, fetch_events; cbn [seq flat_map app];
      rewrite Nat.add_1_r; reflexivity.
  - destruct left as [|left]; [lia|].
    destruct (Hfail 0%nat ltac:(lia)) as [e He]. rewrite Nat.add_0_r in He.
    cbn [fetchXML_loop]. unfold tryCatch at 1, axios_get_and_parse at 1. rewrite He.
    unfold bind, delay, emit. cbn [log browserInstances requests].
    rewrite (IH left _ d); cbn [requests].
    + unfold after_requests, fetch_events. cbn [requests log browserInstances].
      replace (retries - left)%nat with (S (retries - S left)) by lia.
      cbn [seq flat_map app]. f_equal. f_equal; [lia|].
      rewrite <- !app_assoc. reflexivity.
    + lia.
    + lia.
    + intros j Hj. replace (S (requests st) + j)%nat with (requests st + S j)%nat by lia.
      apply Hfail. lia.
    + replace (S (requests st) + k)%nat with (requests st + S k)%nat by lia. exact Hok.
Qed.

Lemma fetchXML_loop_gives_up (url : string) (retries : nat) :
  forall (left : nat) (st : Store),
    (left <= retries)%nat ->
    (forall j, (j <= left)%nat -> throws (requests st + j) url) ->
    fetchXML_loop env url retries left st
    = (Ok None, after_requests st (S left) (fetch_events url (retries - left) left)).
Proof.
  induction left as [|left IH]; intros st Hl Hfail.
  - destruct (Hfail 0%nat ltac:(lia)) as [e He]. rewrite Nat.add_0_r in He.
    cbn [fetchXML_loop]. unfold tryCatch, axios_get_and_parse. rewrite He.
    unfold ret, after_requests, fetch_events. cbn [seq flat_map app].
    rewrite Nat.add_1_r. reflexivity.
  - destruct (Hfail 0%nat ltac:(lia)) as [e He]. rewrite Nat.add_0_r in He.
    cbn [fetchXML_loop]. unfold tryCatch at 1, axios_get_and_parse at 1. rewrite He.
    unfold bind, delay, emit. cbn [log browserInstances requests].
    rewrite IH; cbn [requests].
    + unfold after_requests, fetch_events. cbn [requests log browserInstances].
      replace (retries - left)%nat with (S (retries - S left)) by lia.
      cbn [seq flat_map app]. f_equal. f_equal; [lia|].
      rewrite <- !app_assoc. reflexivity.
    + lia.
    + intros j Hj. replace (S (requests st) + j)%nat with (requests st + S j)%nat by lia.
      apply Hfail. lia.
Qed.

(** X6.  [fetchXML] returns what the first try that does not throw
    delivers, after exactly the requests up to that try, each failed one
    followed by a wait of 1000 ms, then 2000 ms; when all three tries throw
    it returns [null] after three requests.  It never throws and leaves the
    tracked browsers alone. *)
Theorem fetchXML_first_answer (url : string) (st : Store) :
  (forall k d,
      (k <= 2)%nat ->
      (forall j, (j < k)%nat -> throws (requests st + j) url) ->
      http env (requests st + k) url = Parsed d ->
      fetchXML env url st = (Ok d, after_requests st (S k) (fetch_events url 0 k)))
  /\ ((forall j, (j <= 2)%nat -> throws (requests st + j) url) ->
      fetchXML env url st = (Ok None, after_requests st 3 (fetch_events url 0 2))).
Proof.
  split.
  - intros k d Hk Hfail Hok. unfold fetchXML. cbv zeta.
    rewrite (fetchXML_loop_decided url 2 k 2 st d); auto.
  - intros Hfail. unfold fetchXML. cbv zeta.
    rewrite (fetchXML_loop_gives_up url 2 2 st); auto.
Qed.
End FetchFacts.

Lemma fetchXML_first_answer_witness :
  let env := env_of_site missing_child in
  fetchXML env "https://x/b.xml" emptyStore
  = (Ok (Some (sitemap_of ["https://x/3"; "https://x/4"]%string)),
     after_requests emptyStore 1 [EvRequest "https://x/b.xml"])
  /\ fetchXML env "https://x/gone.xml" emptyStore
     = (Ok None,
        after_requests emptyStore 3
          [EvRequest "https://x/gone.xml"; EvDelay FetchRetry (inject_Z 1000);
           EvRequest "https://x/gone.xml"; EvDelay FetchRetry (inject_Z 2000);
           EvRequest "https://x/gone.xml"]).
Proof.
  intros env.
  destruct (fetchXML_first_answer env "https://x/b.xml" emptyStore) as [Hfirst _].
  destruct (fetchXML_first_answer env "https://x/gone.xml" emptyStore) as [_ Hnone].
  split.
  - apply (Hfirst 0%nat); [lia | intros j Hj; lia | reflexivity].
  - apply Hnone. intros j _. eexists. reflexivity.
Defined.

(** ** Extraction and collection *)

Section CollectionOrder.
Variable env : Env.

Lemma push_locs_In (items : list LocItem) (out : list string) (u : string) :
  In u (push_locs items out)
  <-> In u out \/ exists item, In item items /\ first_loc item = Some u.
Proof.
  revert out. induction items as [|item items IH]; intros out; cbn [push_locs].
  - split; [auto | intros [H|(item & [] & _)]; exact H].
  - destruct (first_loc item) as [l0|] eqn:E; rewrite IH.
    + rewrite in_app_iff. cbn [In]. split.
      * intros [[H|[<-|[]]]|(it & Hit & Hl)]; [now left | right | right].
        -- exists item. split; [now left | exact E].
        -- exists it. split; [now right | exact Hl].
      * intros [H|(it & [<-|Hit] & Hl)].
        -- left. now left.
        -- left. right. left. congruence.
        -- right. exists it. auto.
    + split.
      * intros [H|(it & Hit & Hl)]; [now left | right].
        exists it. split; [now right | exact Hl].
      * intros [H|(it & [<-|Hit] & Hl)]; [now left | congruence | right].
        exists it. auto.
Qed.

Lemma push_locs_length (items : list LocItem) (out : list string) :
  (List.length (push_locs items out) <= List.length out + List.length items)%nat.
Proof.
  revert out. induction items as [|item items IH]; intros out; cbn [push_locs List.length].
  - lia.
  - destruct (first_loc item) as [l0|]; [|specialize (IH out); lia].
    specialize (IH (out ++ [l0])). rewrite length_app in IH. cbn in IH. lia.
Qed.

Lemma first_loc_Some (item : LocItem) (u : string) :
  first_loc item = Some u <-> u <> ""%string /\ exists rest, loc item = Some (u :: rest).
Proof.
  unfold first_loc. destruct (loc item) as [[|l0 rest]|].
  - split; [discriminate | intros [_ [r H]]; discriminate].
  - destruct (String.eqb_spec l0 "") as [->|Hne].
    + split; [discriminate | intros [Hu [r H]]; congruence].
    + split.
      * intros H. injection H as <-. split; [exact Hne | now exists rest].
      * intros [_ [r H]]. congruence.
  - split; [discriminate | intros [_ [r H]]; discriminate].
Qed.

(** X7.  On a document in which every [loc] is text, the shape the
    collector is written for: [extractUrlsFromSitemap] returns exactly the
    first [loc] of those [url] elements of the [urlset] whose first [loc] is
    not the empty string, so an element without [loc], or with an empty one,
    is passed over, and no more URLs are returned than there are elements.
    The same holds of [getSitemapsFromIndex] for the [sitemap] elements of
    the [sitemapindex]. *)
Theorem extracted_locs (d : option XmlDoc) :
  (forall u,
      In u (extractUrlsFromSitemap d) <->
      u <> ""%string
      /\ exists doc set items item rest,
          d = Some doc /\ urlset doc = Some set /\ url set = Some items
          /\ In item items /\ loc item = Some (u :: rest))
  /\ (forall u,
         In u (getSitemapsFromIndex d) <->
         u <> ""%string
         /\ exists doc index items item rest,
             d = Some doc /\ sitemapindex doc = Some index /\ sitemap index = Some items
             /\ In item items /\ loc item = Some (u :: rest))
  /\ (forall doc set items,
         d = Some doc -> urlset doc = Some set -> url set = Some items ->
         (List.length (extractUrlsFromSitemap d) <= List.length items)%nat)
  /\ (forall doc index items,
         d = Some doc -> sitemapindex doc = Some index -> sitemap index = Some items ->
         (List.length (getSitemapsFromIndex d) <= List.length items)%nat).
Proof.
  split; [|split; [|split]].
  - intros u. destruct d as [[[[[items|]]|] si]|]; cbn [extractUrlsFromSitemap].
    + rewrite push_locs_In. split.
      * intros [[]|(item & Hi & Hl)]. apply first_loc_Some in Hl.
        destruct Hl as [Hne [rest Hr]]. split; [exact Hne|].
        do 5 eexists. repeat split; eauto.
      * intros (Hne & doc & set & its & item & rest & Hd & Hs & Hu & Hi & Hl).
        injection Hd as <-. cbn in Hs. injection Hs as <-. cbn in Hu. injection Hu as <-.
        right. exists item. split; [exact Hi|]. apply first_loc_Some. eauto.
    + split; [intros [] | intros (_ & doc & set & its & item & rest & Hd & Hs & Hu & _)].
      injection Hd as <-. cbn in Hs. injection Hs as <-. discriminate Hu.
    + split; [intros [] | intros (_ & doc & set & its & item & rest & Hd & Hs & _)].
      injection Hd as <-. discriminate Hs.
    + split; [intros [] | intros (_ & doc & set & its & item & rest & Hd & _)].
      discriminate Hd.
  - intros u. destruct d as [[us [[[items|]]|]]|]; cbn [getSitemapsFromIndex].
    + rewrite push_locs_In. split.
      * intros [[]|(item & Hi & Hl)]. apply first_loc_Some in Hl.
        destruct Hl as [Hne [rest Hr]]. split; [exact Hne|].
        do 5 eexists. repeat split; eauto.
      * intros (Hne & doc & set & its & item & rest & Hd & Hs & Hu & Hi & Hl).
        injection Hd as <-. cbn in Hs. injection Hs as <-. cbn in Hu. injection Hu as <-.
        right. exists item. split; [exact Hi|]. apply first_loc_Some. eauto.
    + split; [intros [] | intros (_ & doc & set & its & item & rest & Hd & Hs & Hu & _)].
      injection Hd as <-. cbn in Hs. injection Hs as <-. discriminate Hu.
    + split; [intros [] | intros (_ & doc & set & its & item & rest & Hd & Hs & _)].
      injection Hd as <-. discriminate Hs.
    + split; [intros [] | intros (_ & doc & set & its & item & rest & Hd & _)].
      discriminate Hd.
  - intros [us si] [u] items -> Hs Hu. cbn in Hs, Hu. subst.
    cbn [extractUrlsFromSitemap]. apply (push_locs_length items []).
  - intros [us si] [sm] items -> Hs Hu. cbn in Hs, Hu. subst.
    cbn [getSitemapsFromIndex]. apply (push_locs_length items []).
Qed.
End CollectionOrder.

Lemma extracted_locs_witness :
  let doc := sitemap_of ["https://x/1"; ""]%string in
  In "https://x/1"%string (extractUrlsFromSitemap (Some doc))
  /\ ~ In ""%string (extractUrlsFromSitemap (Some doc))
  /\ (List.length (extractUrlsFromSitemap (Some doc)) <= 2)%nat.
Proof.
  intros doc.
  destruct (extracted_locs (Some doc)) as (Hin & _ & Hlen & _).
  split; [|split].
  - apply Hin. split; [discriminate|].
    exists doc, {| url := Some (map page ["https://x/1"; ""]%string) |},
      (map page ["https://x/1"; ""]%string), (page "https://x/1"), [].
    repeat split. simpl. auto.
  - intros H. apply Hin in H. destruct H as [H _]. now apply H.
  - exact (Hlen doc _ _ eq_refl eq_refl eq_refl).
Defined.

Section CollectionCost.
Variable env : Env.

(** The list without the later occurrences of its members. *)
Fixpoint keepFirst (xs : list string) : list string :=
  match xs with
  | [] => []
  | x :: rest => x :: filter (fun y => negb (String.eqb y x)) (keepFirst rest)
  end.

Lemma filter_known (s : list string) (x : string) (K : list string) :
  Js.has String.eqb s x = true ->
  filter (fun y => negb (Js.has String.eqb s y))
         (filter (fun y => negb (String.eqb y x)) K)
  = filter (fun y => negb (Js.has String.eqb s y)) K.
Proof.
  intros Hx. induction K as [|y K IH]; [reflexivity|]. cbn [filter].
  destruct (String.eqb_spec y x) as [->|Hne]; cbn [negb filter].
  - rewrite Hx. cbn [negb]. exact IH.
  - destruct (Js.has String.eqb s y); cbn [negb]; [exact IH | now rewrite IH].
Qed.

Lemma filter_new (s : list string) (x : string) (K : list string) :
  filter (fun y => negb (Js.has String.eqb (s ++ [x]) y)) K
  = filter (fun y => negb (Js.has String.eqb s y))
           (filter (fun y => negb (String.eqb y x)) K).
Proof.
  induction K as [|y K IH]; [reflexivity|]. cbn [filter].
  unfold Js.has at 1. rewrite existsb_app. cbn [existsb]. rewrite orb_false_r.
  fold (Js.has String.eqb s y).
  destruct (String.eqb_spec y x) as [->|Hne]; cbn [negb filter].
  - rewrite orb_true_r. cbn [negb]. exact IH.
  - rewrite orb_false_r. destruct (Js.has String.eqb s y); cbn [negb];
      [exact IH | now rewrite IH].
Qed.

Lemma addAll_keepFirst (xs s : list string) :
  Js.addAll String.eqb s xs
  = s ++ filter (fun y => negb (Js.has String.eqb s y)) (keepFirst xs).
Proof.
  revert s. induction xs as [|x rest IH]; intros s.
  - cbn. now rewrite app_nil_r.
  - change (Js.addAll String.eqb s (x :: rest))
      with (Js.addAll String.eqb (Js.add String.eqb s x) rest).
    rewrite IH. unfold Js.add. cbn [keepFirst filter].
    destruct (Js.has String.eqb s x) eqn:Hx; cbn [negb].
    + now rewrite filter_known.
    + rewrite filter_new, <- app_assoc. reflexivity.
Qed.

(** X8.  The URLs come back in the order of their first discovery: when
    the root is fetched, [getAllUrls] returns the URLs of the fetched
    children, child after child, followed by the root's own, without the
    later occurrences of a URL already met. *)
Theorem getAllUrls_first_discovery
        (sitemapUrl : string) (st st1 : Store) (idx : XmlDoc) :
  fetchXML env sitemapUrl st = (Ok (Some idx), st1) ->
  fst (getAllUrls env sitemapUrl st)
  = Ok (keepFirst
          (urls_of_children
             (fst (fetched_in_turn env (getSitemapsFromIndex (Some idx)) st1))
           ++ extractUrlsFromSitemap (Some idx))).
Proof.
  intros Hroot. rewrite getAllUrls_runs, Hroot. cbn [fst].
  rewrite addAll_keepFirst. cbn [app]. f_equal.
  apply forallb_filter_id. apply forallb_forall. reflexivity.
Qed.

(** The events of the collector. *)
Definition fetch_event (e : Event) : Prop :=
  match e with
  | EvRequest _ => True
  | EvDelay FetchRetry _ => True
  | _ => False
  end.

(** [st'] differs from [st] by at least one and at most [k] more requests,
    and by fetch events in the log. *)
Definition fetched_within (k : nat) (st st' : Store) : Prop :=
  browserInstances st' = browserInstances st
  /\ (requests st < requests st' <= requests st + k)%nat
  /\ exists evs, log st' = log st ++ evs /\ Forall fetch_event evs.

Lemma fetchXML_loop_within (url : string) (retries left : nat) (st : Store) :
  exists d st',
    fetchXML_loop env url retries left st = (Ok d, st')
    /\ fetched_within (S left) st st'.
Proof.
  revert st. induction left as [|left IH]; intros st;
    cbn [fetchXML_loop]; unfold tryCatch at 1, axios_get_and_parse at 1;
    destruct (http env (requests st) url) as [doc|e].
  - do 2 eexists. split; [reflexivity|]. unfold fetched_within. cbn.
    split; [reflexivity|]. split; [lia|]. eexists. split; [reflexivity|].
    repeat constructor.
  - do 2 eexists. split; [reflexivity|]. unfold fetched_within. cbn.
    split; [reflexivity|]. split; [lia|]. eexists. split; [reflexivity|].
    repeat constructor.
  - do 2 eexists. split; [reflexivity|]. unfold fetched_within. cbn.
    split; [reflexivity|]. split; [lia|]. eexists. split; [reflexivity|].
    repeat constructor.
  - unfold bind, delay, emit. cbn [log browserInstances requests].
    match goal with
    | |- context [fetchXML_loop env url retries left ?s] =>
        destruct (IH s) as (d & st' & Hrun & Hb & Hr & evs & Hlog & Hev)
    end.
    exists d, st'. split; [exact Hrun|]. cbn in Hb, Hr, Hlog.
    split; [exact Hb|]. split; [lia|].
    eexists. split; [rewrite Hlog, <- !app_assoc; reflexivity|].
    cbn [app]. repeat constructor. exact Hev.
Qed.

Lemma fetched_within_trans (a b : nat) (st st1 st2 : Store) :
  fetched_within a st st1 -> fetched_within b st1 st2 ->
  fetched_within (a + b) st st2.
Proof.
  intros (Hb1 & Hr1 & e1 & Hl1 & He1) (Hb2 & Hr2 & e2 & Hl2 & He2).
  split; [congruence|]. split; [lia|].
  exists (e1 ++ e2). split; [rewrite Hl2, Hl1, app_assoc; reflexivity|].
  apply Forall_app. auto.
Qed.

Lemma fetched_in_turn_within (sitemaps : list string) (st : Store) :
  browserInstances (snd (fetched_in_turn env sitemaps st)) = browserInstances st
  /\ (requests st <= requests (snd (fetched_in_turn env sitemaps st))
      <= requests st + 3 * List.length sitemaps)%nat
  /\ exists evs, log (snd (fetched_in_turn env sitemaps st)) = log st ++ evs
                 /\ Forall fetch_event evs.
Proof.
  revert st. induction sitemaps as [|u rest IH]; intros st; cbn [fetched_in_turn].
  - cbn. split; [reflexivity|]. split; [lia|]. exists []. now rewrite app_nil_r.
  - destruct (fetchXML_loop_within u 2 2 st) as (d & st1 & Hrun & Hb & Hr & e1 & Hl & He).
    unfold fetchXML. cbv zeta. rewrite Hrun.
    destruct (IH st1) as (Hb' & Hr' & e2 & Hl' & He').
    destruct (fetched_in_turn env rest st1) as [docs st2]. cbn [snd] in *.
    split; [congruence|]. split; [cbn [List.length]; lia|].
    exists (e1 ++ e2). split; [rewrite Hl', Hl, app_assoc; reflexivity|].
    apply Forall_app. auto.
Qed.

(** X9.  [getAllUrls] always returns; it makes at least one request and at
    most three for the root and three for each child sitemap the root
    lists; it logs requests and retry waits only and leaves the tracked
    browsers as they were. *)
Theorem getAllUrls_cost (sitemapUrl : string) (st : Store) :
  exists urls st' root st1,
    getAllUrls env sitemapUrl st = (Ok urls, st')
    /\ fetchXML env sitemapUrl st = (Ok root, st1)
    /\ browserInstances st' = browserInstances st
    /\ (requests st < requests st'
        <= requests st + 3 * (1 + List.length (getSitemapsFromIndex root)))%nat
    /\ exists evs, log st' = log st ++ evs /\ Forall fetch_event evs.
Proof.
  destruct (fetchXML_loop_within sitemapUrl 2 2 st)
    as (root & st1 & Hrun & Hb & Hr & e1 & Hl & He).
  rewrite getAllUrls_runs. unfold fetchXML. cbv zeta. rewrite Hrun.
  destruct root as [idx|].
  - destruct (fetched_in_turn_within (getSitemapsFromIndex (Some idx)) st1)
      as (Hb' & Hr' & e2 & Hl' & He').
    do 4 eexists. split; [reflexivity|]. split; [reflexivity|].
    cbn [snd]. split; [congruence|]. split; [lia|].
    exists (e1 ++ e2). split; [rewrite Hl', Hl, app_assoc; reflexivity|].
    apply Forall_app. auto.
  - do 4 eexists. split; [reflexivity|]. split; [reflexivity|].
    split; [exact Hb|]. split; [cbn; lia|].
    exists e1. auto.
Qed.
End CollectionCost.

Lemma getAllUrls_first_discovery_witness :
  let env := env_of_site two_children in
  let st1 := {| browserInstances := []; requests := 1;
                log := [EvRequest "https://x/sitemap_index.xml"] |} in
  fetchXML env "https://x/sitemap_index.xml" emptyStore
  = (Ok (Some (index_of ["https://x/a.xml"; "https://x/b.xml"]%string)), st1)
  /\ fst (getAllUrls env "https://x/sitemap_index.xml" emptyStore)
     = Ok (keepFirst ["https://x/1"; "https://x/2"; "https://x/3";
                      "https://x/3"; "https://x/4"; "https://x/5"]%string).
Proof.
  intros env st1.
  assert (fetchXML env "https://x/sitemap_index.xml" emptyStore
          = (Ok (Some (index_of ["https://x/a.xml"; "https://x/b.xml"]%string)), st1))
    as Hroot by reflexivity.
  split; [exact Hroot|].
  exact (getAllUrls_first_discovery env _ _ _ _ Hroot).
Defined.

(** ** [isRetryableError] *)

Section ClassifierFacts.
Local Open Scope string_scope.

Lemma includes_startsWith (s p : string) :
  Js.startsWith s p = true -> Js.includes s p = true.
Proof. intros H. destruct s; cbn [Js.includes]; rewrite H; reflexivity. Qed.

Lemma includes_iff (s p : string) :
  Js.includes s p = true <-> exists a b, s = a ++ p ++ b.
Proof.
  induction s as [|c s IH]; cbn [Js.includes].
  - destruct (Js.startsWith "" p) eqn:E.
    + split; [intros _ | reflexivity]. apply startsWith_iff in E.
      destruct E as [t Ht]. now exists "", t.
    + split; [discriminate|]. intros (a & b & H).
      destruct a; [|discriminate H]. cbn in H.
      assert (Js.startsWith "" p = true) by (apply startsWith_iff; now exists b).
      congruence.
  - destruct (Js.startsWith (String c s) p) eqn:E.
    + split; [intros _ | reflexivity]. apply startsWith_iff in E.
      destruct E as [t Ht]. now exists "", t.
    + rewrite IH. split.
      * intros (a & b & ->). now exists (String c a), b.
      * intros (a & b & H). destruct a as [|c' a].
        -- cbn in H. assert (Js.startsWith (String c s) p = true)
             by (apply startsWith_iff; now exists b). congruence.
        -- cbn in H. injection H as _ ->. now exists a, b.
Qed.

Lemma toLowerCase_app (a b : string) :
  Js.toLowerCase (a ++ b) = Js.toLowerCase a ++ Js.toLowerCase b.
Proof. induction a as [|c a IH]; cbn; [reflexivity | now rewrite IH]. Qed.

(** X10.  An error with a string message is retryable exactly when its
    message, put in lower case, contains one of the patterns; so a pattern
    occurring anywhere in the message, in whatever letter case, makes the
    error retryable. *)
Theorem retryable_iff_pattern_occurs (msg : string) :
  (isRetryableError (ThrownObject (VString msg)) = Ok true
   <-> exists p a b, In p retryablePatterns /\ Js.toLowerCase msg = a ++ p ++ b)
  /\ (forall p q a b,
         In p retryablePatterns -> Js.toLowerCase q = p -> msg = a ++ q ++ b ->
         isRetryableError (ThrownObject (VString msg)) = Ok true).
Proof.
  assert (isRetryableError (ThrownObject (VString msg)) = Ok true
          <-> exists p a b, In p retryablePatterns /\ Js.toLowerCase msg = a ++ p ++ b)
    as Hiff.
  { assert (forall x y : bool, Ok x = Ok y -> x = y) as Ok_inj
        by (intros x y E; now inversion E).
    change (isRetryableError (ThrownObject (VString msg)))
      with (Ok (existsb (fun pattern => Js.includes (Js.toLowerCase msg) pattern)
                        retryablePatterns)).
    split.
    - intros H. apply Ok_inj in H. apply existsb_exists in H.
      destruct H as (p & Hp & Hin). apply includes_iff in Hin.
      destruct Hin as (a & b & Hab). now exists p, a, b.
    - intros (p & a & b & Hp & Hab). f_equal. apply existsb_exists.
      exists p. split; [exact Hp|]. apply includes_iff. now exists a, b. }
  split; [exact Hiff|].
  intros p q a b Hp Hq ->. apply Hiff.
  exists p, (Js.toLowerCase a), (Js.toLowerCase b).
  split; [exact Hp|]. now rewrite !toLowerCase_app, Hq.
Qed.

(** The classifier over another list of patterns. *)
Definition classify_with (patterns : list string) (error : Thrown) : Result bool :=
  match errorMessage_of error with
  | Throw e => Throw e
  | Ok errorMessage =>
      Ok (existsb (fun pattern => Js.includes errorMessage pattern) patterns)
  end.

(** X11.  The pattern [navigation timeout] decides nothing: every message
    it matches is matched by [timeout] already, so the classifier without
    it gives the same answer on every error. *)
Theorem navigation_timeout_redundant (error : Thrown) :
  isRetryableError error
  = classify_with
      (filter (fun p => negb (String.eqb p "navigation timeout")) retryablePatterns)
      error.
Proof.
  unfold isRetryableError, classify_with.
  destruct (errorMessage_of error) as [m|e]; [|reflexivity]. f_equal.
  assert (Js.includes m "navigation timeout" = true -> Js.includes m "timeout" = true)
    as Hsub.
  { intros H. apply includes_iff in H. destruct H as (a & b & ->).
    apply includes_iff. exists (a ++ "navigation "), b.
    rewrite !append_assoc. reflexivity. }
  cbn [retryablePatterns filter existsb String.eqb Ascii.eqb Bool.eqb negb].
  destruct (Js.includes m "timeout"); [reflexivity|].
  destruct (Js.includes m "navigation timeout"); [discriminate (Hsub eq_refl)|].
  reflexivity.
Qed.
End ClassifierFacts.

Lemma retryable_iff_pattern_occurs_witness :
  isRetryableError (ThrownObject (VString "Page: NET::ERR_CONNECTION_RESET at /"))
  = Ok true.
Proof.
  destruct (retryable_iff_pattern_occurs "Page: NET::ERR_CONNECTION_RESET at /")
    as [_ Hany].
  apply (Hany "net::err" "NET::ERR" "Page: " "_CONNECTION_RESET at /")%string.
  - simpl. tauto.
  - reflexivity.
  - reflexivity.
Defined.

(** ** The attempts of [runAccessibilityCheck] *)

Section RunnerTrace.
Variable CONFIG : Config.
Variable env : Env.

Local Abbreviation run_check := (runAccessibilityCheck CONFIG env).

(** Attempt [j] fails with an error the classifier calls retryable. *)
Definition retryable_failure (url : string) (j : Z) : Prop :=
  exists e, attempt_error (pa11y env url j) = Some e /\ isRetryableError e = Ok true.

(** What is logged from attempt [n] on when [more] further attempts
    follow: each attempt but the last is followed by its backoff wait. *)
Fixpoint check_trace (url : string) (n : Z) (more : nat) : list Event :=
  attempt_events env url n
  ++ match more with
     | O => []
     | S m => EvDelay Backoff (number_of_double (retryDelay_of CONFIG env n)) :: check_trace url (n + 1) m
     end.

(** The invocations of pa11y among the events. *)
Definition checks_of (events : list Event) : list Event :=
  filter (fun e => match e with EvCheck _ _ => true | _ => false end) events.

Lemma checks_of_attempt (url : string) (n : Z) (rest : list Event) :
  checks_of (attempt_events env url n ++ rest) = EvCheck url n :: checks_of rest.
Proof.
  unfold checks_of, attempt_events. rewrite !filter_app.
  destruct (n >? 1); reflexivity.
Qed.

Lemma checks_of_trace (url : string) (more : nat) :
  forall n,
    checks_of (check_trace url n more)
    = map (fun i => EvCheck url (n + Z.of_nat i)) (seq 0 (S more)).
Proof.
  induction more as [|m IH]; intros n; cbn [check_trace];
    rewrite checks_of_attempt.
  - cbn. now rewrite Z.add_0_r.
  - change (checks_of (EvDelay Backoff (number_of_double (retryDelay_of CONFIG env n))
                       :: check_trace url (n + 1) m))
      with (checks_of (check_trace url (n + 1) m)).
    rewrite IH. change (seq 0 (S (S m))) with (0%nat :: seq 1 (S m)).
    rewrite <- seq_shift. cbn [map]. rewrite map_map, Z.add_0_r. f_equal.
    apply map_ext. intros i. f_equal. lia.
Qed.

Lemma logged_nil (st : Store) : logged st [] = st.
Proof. destruct st. unfold logged. cbn. now rewrite app_nil_r. Qed.

(** Retryable failures with attempts left are run through one by one. *)
Lemma run_check_chain (url : string) (more : nat) :
  forall n st,
    (forall j, n <= j < n + Z.of_nat more -> retryable_failure url j) ->
    n + Z.of_nat more <= MAX_RETRIES CONFIG ->
    exists evs,
      run_check url n st = run_check url (n + Z.of_nat more) (logged st evs)
      /\ forall last, evs ++ check_trace url (n + Z.of_nat more) last
                      = check_trace url n (more + last).
Proof.
  induction more as [|m IH]; intros n st Hfail Hmax.
  - exists []. rewrite Z.add_0_r, logged_nil. split; reflexivity.
  - destruct (Hfail n ltac:(lia)) as (e & He & Hc).
    rewrite (run_check_retries CONFIG env url n st e He Hc ltac:(lia)).
    destruct (IH (n + 1)
                 (logged st (attempt_events env url n
                             ++ [EvDelay Backoff (number_of_double (retryDelay_of CONFIG env n))])))
      as (evs & Hrun & Htrace).
    + intros j Hj. apply Hfail. lia.
    + lia.
    + exists ((attempt_events env url n ++ [EvDelay Backoff (number_of_double (retryDelay_of CONFIG env n))])
              ++ evs).
      replace (n + Z.of_nat (S m)) with (n + 1 + Z.of_nat m) by lia.
      split; [rewrite Hrun, logged_logged; reflexivity|].
      intros last. rewrite <- !app_assoc, Htrace. reflexivity.
Qed.

(** X12.  The outcome is decided by the first attempt that is not a
    retryable failure, or by attempt [MAX_RETRIES].  If the attempts before
    attempt [k] (with [1 <= k <= MAX_RETRIES]) all fail retryably, then: when
    attempt [k] resolves, the Outcome is a success with [attempts = k], the
    issues and title of that result (the URL standing in for a missing
    title); when it fails with an error classified not retryable, or
    retryable with [k = MAX_RETRIES], the Outcome is an error with
    [attempts = k], no issue, the URL as title and the classifier's verdict.
    In both cases pa11y was invoked [k] times, with a backoff wait after each
    failed attempt and a jitter wait before each attempt after the first. *)
Theorem outcome_decided_by (url : string) (k : Z) (st : Store) :
  1 <= k <= MAX_RETRIES CONFIG ->
  (forall j, 1 <= j < k -> retryable_failure url j) ->
  (forall r,
      settlement (pa11y env url k) = Resolved (Some r) ->
      run_check url 1 st
      = (Ok {| o_url := url;
               o_issues := match r_issues r with Some issues => issues | None => [] end;
               o_status := StatusSuccess;
               o_error := None;
               o_documentTitle :=
                 match r_documentTitle r with
                 | Some t => if String.eqb t "" then url else t
                 | None => url
                 end;
               o_attempts := k;
               o_isRetryable := None |},
         tracked (logged st (check_trace url 1 (Z.to_nat (k - 1)))) (r_browser r)))
  /\ (forall e b,
         attempt_error (pa11y env url k) = Some e ->
         isRetryableError e = Ok b ->
         b = false \/ k = MAX_RETRIES CONFIG ->
         exists m,
           e = ThrownObject m
           /\ run_check url 1 st
              = (Ok {| o_url := url;
                       o_issues := [];
                       o_status := StatusError;
                       o_error := Some m;
                       o_documentTitle := url;
                       o_attempts := k;
                       o_isRetryable := Some b |},
                 logged st (check_trace url 1 (Z.to_nat (k - 1)))))
  /\ checks_of (check_trace url 1 (Z.to_nat (k - 1)))
     = map (fun i => EvCheck url (1 + Z.of_nat i)) (seq 0 (Z.to_nat k)).
Proof.
  intros Hk Hfail.
  destruct (run_check_chain url (Z.to_nat (k - 1)) 1 st) as (evs & Hrun & Htrace).
  { intros j Hj. apply Hfail. lia. }
  { lia. }
  replace (1 + Z.of_nat (Z.to_nat (k - 1))) with k in * by lia.
  specialize (Htrace 0%nat). rewrite Nat.add_0_r in Htrace.
  cbn [check_trace] in Htrace. rewrite app_nil_r in Htrace at 1.
  split; [|split].
  - intros r Hr. rewrite Hrun, (run_check_resolved CONFIG env url k _ r Hr).
    rewrite logged_logged, Htrace. reflexivity.
  - intros e b He Hc Hlast.
    destruct (run_check_gives_up CONFIG env url k (logged st evs) e b He Hc)
      as (m & Hm & Hgive).
    { destruct Hlast as [-> | ->]; [reflexivity|].
      rewrite Z.ltb_irrefl. apply andb_false_r. }
    exists m. split; [exact Hm|].
    rewrite Hrun, Hgive, logged_logged, Htrace. reflexivity.
  - rewrite checks_of_trace. replace (S (Z.to_nat (k - 1))) with (Z.to_nat k) by lia.
    reflexivity.
Qed.
End RunnerTrace.

Lemma outcome_decided_by_witness :
  let env := env_where_checks navigation_timeout in
  let url := "https://example.com/"%string in
  1 <= 3 <= MAX_RETRIES CONFIG_default
  /\ (forall j, 1 <= j < 3 -> retryable_failure env url j)
  /\ exists m,
      settlement_error navigation_timeout = ThrownObject m
      /\ runAccessibilityCheck CONFIG_default env url 1 emptyStore
         = (Ok {| o_url := url;
                  o_issues := [];
                  o_status := StatusError;
                  o_error := Some m;
                  o_documentTitle := url;
                  o_attempts := 3;
                  o_isRetryable := Some true |},
            logged emptyStore (check_trace CONFIG_default env url 1 2)).
Proof.
  intros env url.
  assert (1 <= 3 <= MAX_RETRIES CONFIG_default) as H1 by (simpl; lia).
  assert (forall j, 1 <= j < 3 -> retryable_failure env url j) as H2.
  { intros j _. exists (settlement_error navigation_timeout). split; reflexivity. }
  split; [exact H1|]. split; [exact H2|].
  destruct (outcome_decided_by CONFIG_default env url 3 emptyStore H1 H2) as (_ & Herr & _).
  apply (Herr (settlement_error navigation_timeout) true);
    [reflexivity | reflexivity | right; reflexivity].
Defined.

Section RunnerCount.
Variable CONFIG : Config.
Variable env : Env.

Local Abbreviation run_check := (runAccessibilityCheck CONFIG env).

Lemma run_check_traced (url : string) (n : Z) (st : Store) :
  exists more,
    log (snd (run_check url n st))
    = log st ++ check_trace CONFIG env url n more
    /\ forall o, fst (run_check url n st) = Ok o -> o_attempts o = n + Z.of_nat more.
Proof.
  remember (Z.to_nat (MAX_RETRIES CONFIG - n)) as k eqn:Ek.
  revert n st Ek. induction k as [k IH] using lt_wf_ind. intros n st Ek.
  destruct (attempt_error (pa11y env url n)) as [e|] eqn:Ee.
  - destruct (isRetryableError e) as [b|t] eqn:Ec.
    + destruct (b && (n <? MAX_RETRIES CONFIG)) eqn:Eb.
      * apply andb_prop in Eb. destruct Eb as [-> Hlt]. apply Z.ltb_lt in Hlt.
        rewrite (run_check_retries CONFIG env url n st e Ee Ec Hlt).
        destruct (IH (Z.to_nat (MAX_RETRIES CONFIG - (n + 1))) ltac:(lia)
                     (n + 1)
                     (logged st (attempt_events env url n
                                 ++ [EvDelay Backoff (number_of_double (retryDelay_of CONFIG env n))]))
                     eq_refl) as (more & Hlog & Hatt).
        exists (S more). split.
        -- rewrite Hlog. cbn [logged log check_trace].
           rewrite <- !app_assoc. reflexivity.
        -- intros o Ho. rewrite (Hatt o Ho). lia.
      * destruct (run_check_gives_up CONFIG env url n st e b Ee Ec Eb) as [m [-> ->]].
        exists 0%nat. cbn [snd fst logged log check_trace]. rewrite app_nil_r.
        split; [reflexivity|]. intros o Ho. injection Ho as <-. cbn. lia.
    + rewrite (run_check_classifier_throws CONFIG env url n st e _ Ee Ec).
      exists 0%nat. cbn [snd fst logged log check_trace]. rewrite app_nil_r.
      split; [reflexivity|]. intros o Ho. discriminate Ho.
  - destruct (attempt_error_none _ Ee) as [r Hr].
    rewrite (run_check_resolved CONFIG env url n st r Hr).
    exists 0%nat. cbn [snd fst]. rewrite log_tracked.
    cbn [logged log check_trace]. rewrite app_nil_r.
    split; [reflexivity|]. intros o Ho. injection Ho as <-. cbn. lia.
Qed.

(** X13.  Whatever Outcome [runAccessibilityCheck] returns, pa11y was
    invoked exactly [attempts] times, on attempt numbers 1 to [attempts] in
    turn; what the call logged is, for each of these attempts, a jitter wait
    (from the second attempt on), the check, and, after every attempt but the
    last, the backoff wait of that attempt. *)
Theorem checks_equal_attempts (url : string) (st : Store) (o : Outcome) (st' : Store) :
  run_check url 1 st = (Ok o, st') ->
  1 <= o_attempts o
  /\ log st' = log st ++ check_trace CONFIG env url 1 (Z.to_nat (o_attempts o - 1))
  /\ checks_of (check_trace CONFIG env url 1 (Z.to_nat (o_attempts o - 1)))
     = map (fun i => EvCheck url (1 + Z.of_nat i)) (seq 0 (Z.to_nat (o_attempts o))).
Proof.
  intros Hrun. destruct (run_check_traced url 1 st) as (more & Hlog & Hatt).
  rewrite Hrun in Hlog, Hatt. cbn [fst snd] in Hlog, Hatt.
  specialize (Hatt o eq_refl).
  replace (Z.to_nat (o_attempts o - 1)) with more by lia.
  split; [lia|]. split; [exact Hlog|].
  rewrite checks_of_trace. f_equal. f_equal. lia.
Qed.
End RunnerCount.

Lemma checks_equal_attempts_witness :
  let env := env_where_checks navigation_timeout in
  exists o st',
    runAccessibilityCheck CONFIG_default env "https://x/1" 1 emptyStore = (Ok o, st')
    /\ o_attempts o = 3
    /\ checks_of (log st')
       = [EvCheck "https://x/1" 1; EvCheck "https://x/1" 2; EvCheck "https://x/1" 3].
Proof.
  intros env.
  exists {| o_url := "https://x/1"; o_issues := []; o_status := StatusError;
            o_error := Some (VString "Navigation timeout of 90000 ms exceeded");
            o_documentTitle := "https://x/1"; o_attempts := 3;
            o_isRetryable := Some true |}.
  exists (logged emptyStore (check_trace CONFIG_default env "https://x/1" 1 2)).
  assert (runAccessibilityCheck CONFIG_default env "https://x/1" 1 emptyStore
          = (Ok {| o_url := "https://x/1"; o_issues := []; o_status := StatusError;
                   o_error := Some (VString "Navigation timeout of 90000 ms exceeded");
                   o_documentTitle := "https://x/1"; o_attempts := 3;
                   o_isRetryable := Some true |},
             logged emptyStore (check_trace CONFIG_default env "https://x/1" 1 2)))
    as Hrun by reflexivity.
  split; [exact Hrun|]. split; [reflexivity|].
  destruct (checks_equal_attempts CONFIG_default env _ _ _ _ Hrun) as (_ & Hlog & Hchecks).
  rewrite Hlog. exact Hchecks.
Defined.

(** ** More on the limiter *)

Section LimiterMore.
Context {U : Type}.
Import ConcurrencyLimiter.

(** X14.  A limiter with a limit of at least 1 wastes no capacity and
    cannot stall: in every state it reaches, a unit is queued only while as
    many units as the limit allows are in flight, so that with nothing in
    flight nothing is left waiting. *)
Theorem limiter_work_conserving (L : Z) (acts : list (Action U)) (w : World U) :
  1 <= L ->
  exec (initial L) acts = Some w ->
  (queue (lim w) <> [] -> Z.of_nat (List.length (inflight w)) = L)
  /\ (inflight w = [] -> queue (lim w) = []).
Proof.
  intros HL He.
  destruct (Inv_exec L acts _ _ (Inv_initial L) He) as [_ Hc Hb _ Hbusy].
  split.
  - intros Hq. destruct Hbusy as [Hq'|Hr]; [contradiction | lia].
  - intros Hfl. destruct Hbusy as [Hq|Hr]; [exact Hq|].
    rewrite Hc, Hfl in Hr. simpl in Hr. lia.
Qed.

Lemma process_full (l : t U) : limit l <= running l -> process l = (l, None).
Proof.
  intros H. unfold process.
  replace (running l >=? limit l) with true; [reflexivity|].
  symmetry. apply Z.geb_le. exact H.
Qed.

(** X15.  A limiter whose limit is zero or negative never starts
    anything: every unit submitted stays in the queue, in submission order,
    and since nothing is in flight nothing can settle. *)
Theorem limiter_never_starts (L : Z) (acts : list (Action U)) (w : World U) :
  L <= 0 ->
  exec (initial L) acts = Some w ->
  started w = []
  /\ inflight w = []
  /\ running (lim w) = 0
  /\ queue (lim w) = submitted w
  /\ acts = map Submit (submitted w).
Proof.
  intros HL.
  assert (forall (acts : list (Action U)) (w0 w : World U),
             limit (lim w0) = L -> running (lim w0) = 0 ->
             started w0 = [] -> inflight w0 = [] -> queue (lim w0) = submitted w0 ->
             exec w0 acts = Some w ->
             started w = [] /\ inflight w = [] /\ running (lim w) = 0
             /\ queue (lim w) = submitted w
             /\ map Submit (submitted w0) ++ acts = map Submit (submitted w)) as H.
  { clear acts w. induction acts as [|a acts IH]; intros w0 w Hl Hr Hs Hf Hq He;
      cbn [exec] in He.
    - injection He as <-. rewrite app_nil_r. auto.
    - destruct a as [u|k]; cbn [step] in He.
      + unfold submit, run in He. rewrite process_full in He by (cbn; lia).
        cbn [launch snd fst] in He.
        apply IH in He; cbn [lim limit running queue started inflight submitted]; auto.
        * destruct He as (H1 & H2 & H3 & H4 & H5). repeat split; auto.
          cbn [submitted] in H5. rewrite <- H5, map_app, <- app_assoc. reflexivity.
        * now rewrite Hq.
      + unfold settle in He. rewrite Hf in He. destruct k; discriminate He. }
  intros He. destruct (H acts (initial L) w) as (H1 & H2 & H3 & H4 & H5); auto.
Qed.
End LimiterMore.

Lemma limiter_work_conserving_witness :
  let acts := [ConcurrencyLimiter.Submit 10%nat; ConcurrencyLimiter.Submit 11%nat;
               ConcurrencyLimiter.Submit 12%nat] in
  exists w,
    ConcurrencyLimiter.exec (ConcurrencyLimiter.initial 2) acts = Some w
    /\ ConcurrencyLimiter.queue (ConcurrencyLimiter.lim w) = [12%nat]
    /\ Z.of_nat (List.length (ConcurrencyLimiter.inflight w)) = 2.
Proof.
  intros acts. eexists. split; [reflexivity|]. split; [reflexivity|].
  apply (limiter_work_conserving 2 acts); [lia | reflexivity | discriminate].
Defined.

Lemma limiter_never_starts_witness :
  let acts := [ConcurrencyLimiter.Submit 10%nat; ConcurrencyLimiter.Submit 11%nat] in
  exists w,
    ConcurrencyLimiter.exec (ConcurrencyLimiter.initial (-1)) acts = Some w
    /\ ConcurrencyLimiter.started w = []
    /\ ConcurrencyLimiter.queue (ConcurrencyLimiter.lim w) = [10; 11]%nat.
Proof.
  intros acts. eexists. split; [reflexivity|].
  destruct (limiter_never_starts (-1) acts _ ltac:(lia) eq_refl) as (Hs & _ & _ & Hq & _).
  split; [exact Hs | reflexivity].
Defined.

(** ** More on [processSitemapUrl] *)

Section ProcessSitemapUrlMore.
Local Open Scope string_scope.

Lemma trimStart_all_white (s : string) :
  (forall c, In c (list_ascii_of_string s) -> Js.isWhiteSpace c = true) ->
  Js.trimStart s = "".
Proof.
  induction s as [|c s IH]; intros H; [reflexivity|].
  cbn [Js.trimStart]. rewrite (H c) by (simpl; auto).
  apply IH. intros d Hd. apply H. simpl. auto.
Qed.

Lemma trimStart_first (c : ascii) (s : string) :
  Js.isWhiteSpace c = false -> Js.trimStart (String c s) = String c s.
Proof. intros H. cbn [Js.trimStart]. now rewrite H. Qed.

Lemma trimEnd_last (s : string) (c : ascii) :
  Js.isWhiteSpace c = false -> Js.trimEnd (s ++ String c "") = s ++ String c "".
Proof.
  intros H. unfold Js.trimEnd. rewrite rev_app.
  change (Js.rev (String c "") ++ Js.rev s) with (String c (Js.rev s)).
  rewrite trimStart_first by exact H.
  change (String c (Js.rev s)) with (Js.rev (String c "") ++ Js.rev s).
  now rewrite <- rev_app, rev_involutive.
Qed.

(** A URL with a protocol that ends with [.xml] is returned as it is. *)
Lemma processSitemapUrl_fixed (r : string) :
  Js.startsWith r "http://" || Js.startsWith r "https://" = true ->
  Js.endsWith r ".xml" = true ->
  processSitemapUrl (Some r) = Returns r.
Proof.
  intros Hp Hx.
  assert (exists s, r = String "h" s) as [s Hs].
  { apply orb_prop in Hp. destruct Hp as [Hp|Hp]; apply startsWith_iff in Hp;
      destruct Hp as [t ->]; eexists; reflexivity. }
  assert (Js.trim r = r) as Htrim.
  { unfold Js.trim. rewrite Hs, trimStart_first by reflexivity. rewrite <- Hs.
    apply endsWith_iff in Hx. destruct Hx as [v ->].
    replace (v ++ ".xml") with ((v ++ ".xm") ++ "l") by now rewrite append_assoc.
    now apply trimEnd_last. }
  assert (withProtocol r = r) as Hw.
  { unfold withProtocol. rewrite Htrim, Hp. reflexivity. }
  rewrite processSitemapUrl_unfold by (rewrite Hs; discriminate).
  now rewrite Hw, Hx.
Qed.

(** X16.  Whatever [processSitemapUrl] returns ends with [.xml], and
    [processSitemapUrl] returns it unchanged when it is given as the
    input: a sitemap URL printed by one run can be passed to the next. *)
Theorem processSitemapUrl_idempotent (input result : string) :
  processSitemapUrl (Some input) = Returns result ->
  Js.endsWith result ".xml" = true
  /\ processSitemapUrl (Some result) = Returns result.
Proof.
  intros H.
  assert (input <> "") as Hne by (intros ->; discriminate H).
  rewrite (processSitemapUrl_unfold input Hne) in H.
  assert (Js.startsWith result "http://" || Js.startsWith result "https://" = true
          /\ Js.endsWith result ".xml" = true) as [Hp Hx].
  { destruct (Js.endsWith (withProtocol input) ".xml") eqn:Exml;
      injection H as <-.
    - split; [|exact Exml].
      destruct (withProtocol_shape input) as [[t Ht]|[t Ht]]; rewrite Ht.
      + apply orb_true_iff. left. apply startsWith_iff. now exists t.
      + apply orb_true_iff. right. apply startsWith_iff. now exists t.
    - split.
      + destruct (withProtocol_shape input) as [[t Ht]|[t Ht]]; rewrite Ht.
        * apply orb_true_iff. left.
          exact (replaceTrailingSlash_keeps_prefix "http:/" t "sitemap_index.xml").
        * apply orb_true_iff. right.
          exact (replaceTrailingSlash_keeps_prefix "https:/" t "sitemap_index.xml").
      + apply endsWith_iff.
        exists (Js.replaceTrailingSlash (withProtocol input) ++ "/sitemap_index").
        now rewrite append_assoc. }
  split; [exact Hx|]. now apply processSitemapUrl_fixed.
Qed.

(** X17.  An input that is not empty but consists of white space only is
    not refused: the trimmed input being empty, the result is the sitemap
    index of a host with no name. *)
Theorem processSitemapUrl_white_input (input : string) :
  input <> "" ->
  (forall c, In c (list_ascii_of_string input) -> Js.isWhiteSpace c = true) ->
  processSitemapUrl (Some input) = Returns "https://sitemap_index.xml".
Proof.
  intros Hne Hws. rewrite (processSitemapUrl_unfold input Hne).
  unfold withProtocol, Js.trim. rewrite (trimStart_all_white input Hws).
  reflexivity.
Qed.

Lemma processSitemapUrl_idempotent_witness :
  processSitemapUrl (Some " example.com/ ") = Returns "https://example.com/sitemap_index.xml"
  /\ Js.endsWith "https://example.com/sitemap_index.xml" ".xml" = true
  /\ processSitemapUrl (Some "https://example.com/sitemap_index.xml")
     = Returns "https://example.com/sitemap_index.xml".
Proof.
  assert (processSitemapUrl (Some " example.com/ ")
          = Returns "https://example.com/sitemap_index.xml") as H by reflexivity.
  split; [exact H|].
  exact (processSitemapUrl_idempotent " example.com/ " _ H).
Defined.

Lemma processSitemapUrl_white_input_witness :
  processSitemapUrl (Some (String " " (String "009" " ")))
  = Returns "https://sitemap_index.xml".
Proof.
  apply processSitemapUrl_white_input; [discriminate|].
  intros c Hc. simpl in Hc.
  repeat (destruct Hc as [<-|Hc]; [reflexivity|]). destruct Hc.
Defined.
End ProcessSitemapUrlMore.

(** ** Sessions and outcomes over a whole run *)

(** What the report relies on in an outcome: a success has no [error]
    property; a failure has no issue and has the URL as its title. *)
Definition well_formed (o : Outcome) : Prop :=
  match o_status o with
  | StatusSuccess => o_error o = None /\ o_isRetryable o = None
  | StatusError => o_issues o = [] /\ o_documentTitle o = o_url o
  end.

(** No tracked handle is repeated and [close] has not been called yet. *)
Definition sessions_open (st : Store) : Prop :=
  NoDup (browserInstances st) /\ closed_handles (log st) = [].

Lemma closed_handles_app (a b : list Event) :
  closed_handles (a ++ b) = closed_handles a ++ closed_handles b.
Proof. apply flat_map_app. Qed.

Lemma closed_handles_quiet (evs : list Event) :
  Forall quiet evs <-> closed_handles evs = [].
Proof.
  induction evs as [|e evs IH]; [split; [reflexivity | constructor]|].
  split.
  - intros H. inversion H as [|? ? He Hrest]; subst.
    destruct e; try contradiction; cbn; now apply IH.
  - intros H. destruct e; cbn in H; try discriminate H;
      (constructor; [exact I | now apply IH]).
Qed.

Lemma job_event_quiet (e : Event) : job_event e -> quiet e.
Proof. destruct e; simpl; auto. Qed.

Lemma fetch_event_quiet (e : Event) : fetch_event e -> quiet e.
Proof. destruct e; simpl; auto. Qed.

Section RunSessions.
Variable CONFIG : Config.
Variable env : Env.

Lemma closed_handles_closeEvents (handles : list Handle) :
  closed_handles (map (closeEvent env) handles) = handles.
Proof.
  induction handles as [|h hs IH]; [reflexivity|]. cbn. f_equal. exact IH.
Qed.

Lemma sessions_open_logged (st : Store) (evs : list Event) :
  Forall quiet evs -> sessions_open st -> sessions_open (logged st evs).
Proof.
  intros He [Hn Hc]. split; [exact Hn|]. cbn [logged log].
  rewrite closed_handles_app, Hc. now apply closed_handles_quiet.
Qed.

Lemma sessions_open_tracked (st : Store) (browser : option Handle) :
  sessions_open st -> sessions_open (tracked st browser).
Proof.
  intros [Hn Hc]. destruct browser as [h|]; [|split; assumption].
  split; [|exact Hc]. cbn [tracked browserInstances].
  now apply (add_NoDup Nat.eqb Nat.eqb_spec).
Qed.

Lemma job_body_keeps_sessions (job : Job) (st : Store) (r : Result Outcome) (st' : Store) :
  sessions_open st ->
  job_body CONFIG env job st = (r, st') ->
  sessions_open st' /\ forall o, r = Ok o -> well_formed o.
Proof.
  intros Hs Hj.
  pose proof (run_check_ends CONFIG env (job_url job) 1 st) as H.
  assert (forall evs, Forall job_event evs -> Forall quiet evs) as Hq.
  { intros evs Hev. eapply Forall_impl; [|exact Hev]. exact job_event_quiet. }
  destruct (job_body_returns CONFIG env job st)
    as [(o & st1 & Hrun & Hjob)|(msg & st1 & Hrun & Hjob)];
    rewrite Hjob in Hj; injection Hj as <- <-; rewrite Hrun in H.
  - inversion H as [last r0 evs Hev Hb Hsett Heq | last m b evs Hev Hb He Hc Hm Heq | ];
      subst.
    + split.
      * apply sessions_open_logged; [repeat constructor|].
        apply sessions_open_tracked, sessions_open_logged; auto.
      * intros o' Ho. injection Ho as <-. split; reflexivity.
    + split.
      * apply sessions_open_logged; [repeat constructor|].
        apply sessions_open_logged; auto.
      * intros o' Ho. injection Ho as <-. split; reflexivity.
  - inversion H as [ | | last e' msg' evs Hev He Hc Heq]; subst. split.
    + apply sessions_open_logged; auto.
    + intros o' Ho. injection Ho as <-. split; reflexivity.
Qed.

(** No exception leaves a unit, hence none leaves a batch or the loop. *)
Lemma awaitAll_no_throw (budget : nat) :
  forall slots rt res rt',
    awaitAll CONFIG env budget slots rt = Some (res, rt') ->
    exists results, res = Ok results.
Proof.
  induction budget as [|budget IH]; intros slots rt res rt' Ha;
    cbn [awaitAll] in Ha;
    destruct (ConcurrencyLimiter.inflight (world rt)) as [|j0 fl] eqn:Hfl.
  - destruct (ConcurrencyLimiter.queue (ConcurrencyLimiter.lim (world rt))); [|discriminate].
    destruct (allSettled slots) as [l|]; [|discriminate].
    injection Ha as <- _. now exists l.
  - discriminate.
  - destruct (ConcurrencyLimiter.queue (ConcurrencyLimiter.lim (world rt))); [|discriminate].
    destruct (allSettled slots) as [l|]; [|discriminate].
    injection Ha as <- _. now exists l.
  - destruct (nth_error (j0 :: fl) _) as [job|]; [|discriminate].
    destruct (ConcurrencyLimiter.settle (world rt) _) as [[w' launched]|]; [|discriminate].
    destruct (job_body_returns CONFIG env job (store rt))
      as [(o & st1 & _ & Hjob)|(msg & st1 & _ & Hjob)];
      rewrite Hjob in Ha; now apply IH in Ha.
Qed.

Lemma forBatches_no_throw (indices : list Z) (batches : Z) (urls : list string) :
  forall results0 rt res rt',
    forBatches CONFIG env indices batches urls results0 rt = Some (res, rt') ->
    exists results, res = Ok results.
Proof.
  induction indices as [|i rest IH]; intros results0 rt res rt' Hf;
    cbn [forBatches] in Hf.
  - injection Hf as <- _. now exists results0.
  - unfold processUrlBatch in Hf. cbv zeta in Hf.
    match type of Hf with
    | context [awaitAll ?c ?e ?b ?sl ?r] =>
        destruct (awaitAll c e b sl r) as [[r1 rt1]|] eqn:Ea; [|discriminate]
    end.
    destruct (awaitAll_no_throw _ _ _ _ _ Ea) as [batchResults ->].
    now apply IH in Hf.
Qed.

Lemma getAllUrls_fetches (sitemapUrl : string) (st : Store) :
  exists urls st',
    getAllUrls env sitemapUrl st = (Ok urls, st')
    /\ browserInstances st' = browserInstances st
    /\ exists evs, log st' = log st ++ evs /\ Forall fetch_event evs.
Proof.
  destruct (fetchXML_loop_within env sitemapUrl 2 2 st)
    as (root & st1 & Hrun & Hb & _ & e1 & Hl & He).
  rewrite getAllUrls_runs. unfold fetchXML. cbv zeta. rewrite Hrun.
  destruct root as [idx|].
  - destruct (fetched_in_turn_within env (getSitemapsFromIndex (Some idx)) st1)
      as (Hb' & _ & e2 & Hl' & He').
    do 2 eexists. split; [reflexivity|]. cbn [snd]. split; [congruence|].
    exists (e1 ++ e2). split; [rewrite Hl', Hl, app_assoc; reflexivity|].
    apply Forall_app. auto.
  - do 2 eexists. split; [reflexivity|]. split; [exact Hb|]. exists e1. auto.
Qed.

(** X18.  A run of [main] that comes to an end never ends in the handler
    of [main]'s rejection: no exception of a check, of a request or of
    [close] leaves the code up to and including [main]'s own cleanup.  The
    run exits with 1 for lack of URLs or goes on to the report; either way
    no browser stays tracked, and [close] was called on no handle twice and
    only at the very end, after everything else the run did.  When the
    report is written, every outcome in it is either a success without an
    [error] property or a failure with no issue and its URL as title. *)
Theorem run_closes_each_session_once (sitemapUrl : string) (e : RunEnd) (rt' : Runtime) :
  main CONFIG env sitemapUrl (initialRuntime CONFIG) = Some (e, rt') ->
  (e = Exited 1 \/ exists urls results, e = Reported urls results)
  /\ browserInstances (store rt') = []
  /\ (exists before handles,
         log (store rt') = before ++ map (closeEvent env) handles
         /\ Forall quiet before
         /\ NoDup handles
         /\ closed_handles (log (store rt')) = handles)
  /\ (forall urls results, e = Reported urls results -> Forall well_formed results).
Proof.
  intros Hmain. unfold main in Hmain. cbn [initialRuntime store world ticks] in Hmain.
  destruct (getAllUrls_fetches sitemapUrl emptyStore)
    as (urls & st & Hget & Hb & evs & Hlog & Hev).
  rewrite Hget in Hmain. cbn [browserInstances log emptyStore app] in Hb, Hlog.
  assert (sessions_open st) as Hs.
  { split; [rewrite Hb; constructor|]. rewrite Hlog. apply closed_handles_quiet.
    eapply Forall_impl; [|exact Hev]. exact fetch_event_quiet. }
  assert (forall st1 : Store,
             sessions_open st1 ->
             exists before handles,
               log st1 ++ map (closeEvent env) (browserInstances st1)
               = before ++ map (closeEvent env) handles
               /\ Forall quiet before
               /\ NoDup handles
               /\ closed_handles (log st1 ++ map (closeEvent env) (browserInstances st1))
                  = handles) as Hend.
  { intros st1 [Hn Hc]. exists (log st1), (browserInstances st1).
    split; [reflexivity|]. split; [now apply closed_handles_quiet|].
    split; [exact Hn|]. now rewrite closed_handles_app, Hc, closed_handles_closeEvents. }
  destruct (Z.of_nat (List.length urls) =? 0).
  - injection Hmain as <- <-. cbn [store]. split; [now left|]. split; [exact Hb|]. split.
    + destruct (Hend st Hs) as (before & handles & H1 & H2 & H3 & H4).
      rewrite Hb in H1, H4. cbn [map] in H1, H4. rewrite app_nil_r in H1, H4.
      exists before, handles. auto.
    + intros ? ? H. discriminate H.
  - match type of Hmain with
    | context [runBatches ?c ?e ?u ?r] =>
        destruct (runBatches c e u r) as [[r1 rt1]|] eqn:Er; [|discriminate]
    end.
    destruct (forBatches_no_throw _ _ _ _ _ _ _ Er) as [results ->].
    apply (runBatches_keeps CONFIG env well_formed sessions_open
             sessions_open_logged job_body_keeps_sessions) in Er; [|exact Hs].
    destruct Er as [Hs1 Hr].
    rewrite (cleanup_runs env (store rt1)) in Hmain. injection Hmain as <- <-.
    cbn [store browserInstances log]. split; [right; now exists urls, results|].
    split; [reflexivity|]. split.
    + exact (Hend (store rt1) Hs1).
    + intros us rs H. injection H as _ <-. now apply Hr.
Qed.
End RunSessions.

(** The site of five pages, each check resolving with a browser handle
    that depends on the last character of the URL; [close] throws on the
    odd handles. *)
Definition env_with_sessions : Env :=
  {| http := http (env_of_site two_children);
     pa11y := fun url _ =>
       let h := if Js.endsWith url "3" then 3%nat
                else if Js.endsWith url "4" then 4%nat
                else 2%nat in
       {| session := Some h;
          settlement :=
            Resolved (Some {| r_issues := None;
                              r_documentTitle := None;
                              r_browser := Some h |}) |};
     Math_random := fun _ _ => one_half;
     Math_pow := fun base exponent => pow_by_products base (Z.to_nat exponent);
     scheduler := fun _ => 0%nat;
     browser_close := fun h => if Nat.even h then Ok tt else Throw ThrownNullish |}.

Lemma run_closes_each_session_once_witness :
  exists e rt',
    main CONFIG_default env_with_sessions "https://x/sitemap_index.xml"
      (initialRuntime CONFIG_default) = Some (e, rt')
    /\ (e = Exited 1 \/ exists urls results, e = Reported urls results)
    /\ browserInstances (store rt') = []
    /\ NoDup (closed_handles (log (store rt'))).
Proof.
  destruct (main CONFIG_default env_with_sessions "https://x/sitemap_index.xml"
              (initialRuntime CONFIG_default)) as [[e rt']|] eqn:Hmain.
  - exists e, rt'. split; [reflexivity|].
    destruct (run_closes_each_session_once CONFIG_default env_with_sessions _ e rt' Hmain)
      as (Hend & Hb & (before & handles & _ & _ & Hn & Hc) & _).
    split; [exact Hend|]. split; [exact Hb|]. rewrite Hc. exact Hn.
  - vm_compute in Hmain. discriminate Hmain.
Defined.

(** ** [cleanup] called again *)

Section CleanupAgain.
Variable env : Env.

(** X19.  A second [cleanup], as made by the handler of [main]'s rejection
    after [main] has cleaned up itself, closes nothing and changes nothing;
    and [cleanup] makes no request. *)
Theorem cleanup_twice (st : Store) :
  cleanup env (snd (cleanup env st)) = (Ok tt, snd (cleanup env st))
  /\ requests (snd (cleanup env st)) = requests st
  /\ closed_handles (log (snd (cleanup env (snd (cleanup env st)))))
     = closed_handles (log st) ++ browserInstances st.
Proof.
  rewrite (cleanup_runs env st). cbn [snd].
  rewrite cleanup_runs. cbn [snd browserInstances requests log map].
  rewrite app_nil_r. split; [reflexivity|]. split; [reflexivity|].
  now rewrite closed_handles_app, closed_handles_closeEvents.
Qed.
End CleanupAgain.
